(** * Qwen3 embedding engine: a shallow embedding of [qwen3_embedding_jni.cpp]

    The file models the native side of [LocalEmbeddingEngine]: the three JNI
    entry points [nativeInit], [nativeEmbed], [nativeRelease] and the helpers
    of the anonymous namespace ([ensure_backend], [log_error], [tokenize],
    [normalize_l2]).

    - C++ [int32_t], [uint32_t] and [size_t] values are integers of [Z] with
      the conversions written out ([to_int32], [to_uint32], [to_size_t]).
    - [float] is IEEE-754 binary32, computed with the operations of
      [SpecFloat] at precision 24 and maximal exponent 128; every operation is
      rounded on its own (round to nearest, ties to even).  Norms are
      measured in exact rational arithmetic; the module [Rnd] holds what is
      needed to compare a rounded result with the exact one.
    - [std::vector<T>] is a [list]; construction and [resize] beyond
      [max_size()] throw, which is a distinct outcome of the model.
    - The inference runtime (llama.cpp) and the JVM are collaborators outside
      this source file: the class [Runtime] and the record [JNIEnv] hold
      their operations, and every statement below quantifies over them.
    - Heap objects ([EmbeddingState], [llama_model], [llama_context]) live in
      finite maps keyed by their address; a call on an address that is not
      live is undefined behaviour, again a distinct outcome. *)

From Stdlib Require Import ZArith QArith Qabs Qpower Qfield String List Bool.
From Stdlib Require Import Lia Lqa.
From Stdlib Require Import Floats.SpecFloat.
From stdpp Require Import base option list gmap.

Local Open Scope string_scope.
Local Open Scope list_scope.
Local Open Scope Z_scope.

(** ** Machine integers *)

Module Int.

Definition INT32_MIN : Z := - 2 ^ 31.
Definition INT32_MAX : Z := 2 ^ 31 - 1.

(** [static_cast<int32_t>(z)] *)
Definition to_int32 (z : Z) : Z := (z + 2 ^ 31) mod 2 ^ 32 - 2 ^ 31.

(** [static_cast<uint32_t>(z)] *)
Definition to_uint32 (z : Z) : Z := z mod 2 ^ 32.

(** [static_cast<size_t>(z)] on an LP64 target. *)
Definition to_size_t (z : Z) : Z := z mod 2 ^ 64.

Definition in_int32 (z : Z) : bool := (INT32_MIN <=? z) && (z <=? INT32_MAX).

End Int.
Export Int.

(** ** Outcomes of native code

    [Ok a]      the code runs to its end with value [a];
    [Throws s]  a C++ exception [s] leaves the function;
    [UB]        the C++ standard gives the execution no meaning. *)

Inductive result (A : Type) : Type :=
| Ok (a : A)
| Throws (what : string)
| UB.
Arguments Ok {A} a.
Arguments Throws {A} what.
Arguments UB {A}.

Global Instance result_ret : MRet result := fun A a => Ok a.

Global Instance result_bind : MBind result := fun A B k r =>
  match r with
  | Ok a => k a
  | Throws s => Throws s
  | UB => UB
  end.

(** ** binary32 *)

Module F32.

Definition prec : Z := 24.
Definition emax : Z := 128.

Definition f32 : Type := spec_float.

Definition add : f32 -> f32 -> f32 := SFadd prec emax.
Definition mul : f32 -> f32 -> f32 := SFmul prec emax.
Definition div : f32 -> f32 -> f32 := SFdiv prec emax.
Definition sqrt : f32 -> f32 := SFsqrt prec emax.
Definition leb : f32 -> f32 -> bool := SFleb.

(** The literal [0.0f]. *)
Definition zero : f32 := S754_zero false.
(** The literal [1.0f]. *)
Definition one : f32 := S754_finite false 8388608 (-23).

(** The binary32 nearest to the integer [z] scaled by [2^e]. *)
Definition of_Z_pow2 (z e : Z) : f32 := binary_normalize prec emax z e false.
Definition of_Z (z : Z) : f32 := of_Z_pow2 z 0.

Definition is_zero (x : f32) : bool :=
  match x with
  | S754_zero _ => true
  | _ => false
  end.

(** The exact rational value of a finite binary32. *)
Definition to_Q (x : f32) : option Q :=
  match x with
  | S754_zero _ => Some 0%Q
  | S754_finite s m e =>
      let v := (inject_Z (Z.pos m) * Qpower 2 e)%Q in
      Some (if s then Qopp v else v)
  | S754_infinity _ | S754_nan => None
  end.

(** The exact sum of the squares of a vector of finite values. *)
Fixpoint norm2_exact (values : list f32) : option Q :=
  match values with
  | [] => Some 0%Q
  | v :: rest =>
      match to_Q v, norm2_exact rest with
      | Some q, Some r => Some (q * q + r)%Q
      | _, _ => None
      end
  end.

(** [values] has a Euclidean norm whose square is within [tol] of 1. *)
Definition unit_norm_within (tol : Q) (values : list f32) : Prop :=
  exists q, norm2_exact values = Some q /\ (Qabs (q - 1) <= tol)%Q.

End F32.
Export F32(f32).

(** ** [std::vector] *)

Module Vec.

(** [max_size()] of a vector of 4-byte elements (libc++, LP64); both
    [llama_token] and [float] are 4 bytes wide. *)
Definition max_size : Z := 2 ^ 62 - 1.

(** [std::vector<T> v(n)] with [n : size_t]: [n] value-initialised elements. *)
Definition make {A} (dflt : A) (n : Z) : result (list A) :=
  if n >? max_size then Throws "std::length_error"
  else Ok (repeat dflt (Z.to_nat n)).

(** [v.resize(n)] with [n : size_t]: truncates, or pads with value-initialised
    elements. *)
Definition resize {A} (dflt : A) (v : list A) (n : Z) : result (list A) :=
  if n >? max_size then Throws "std::length_error"
  else Ok (firstn (Z.to_nat n) v ++ repeat dflt (Z.to_nat n - length v)%nat).

(** [v.size()] *)
Definition size {A} (v : list A) : Z := Z.of_nat (length v).

End Vec.

(** ** The vector post-processor *)

(** The first loop of [normalize_l2]: [sum += v * v] from [0.0f]. *)
Definition sum_squares (values : list f32) : f32 :=
  fold_left (fun sum v => F32.add sum (F32.mul v v)) values F32.zero.

(** [1.0f / std::sqrt(sum)] *)
Definition inv_norm (sum : f32) : f32 := F32.div F32.one (F32.sqrt sum).

(** [normalize_l2(values)]; the vector after the call. *)
Definition normalize_l2 (values : list f32) : list f32 :=
  let sum := sum_squares values in
  if F32.leb sum F32.zero then values
  else
    let inv := inv_norm sum in
    map (fun v => F32.mul v inv) values.


(** ** Rounding to binary32, in exact arithmetic *)

Module Rnd.

(** The point [p], in units of the last place of [mrs], lies where the
    round and sticky bits of [mrs] say. *)
Definition located (mrs : shr_record) (p : Q) : Prop :=
  match shr_r mrs, shr_s mrs with
  | false, false => (p == inject_Z (shr_m mrs))%Q
  | false, true =>
      (inject_Z (shr_m mrs) < p /\ p < inject_Z (shr_m mrs) + (1 # 2))%Q
  | true, false => (p == inject_Z (shr_m mrs) + (1 # 2))%Q
  | true, true =>
      (inject_Z (shr_m mrs) + (1 # 2) < p /\ p < inject_Z (shr_m mrs) + 1)%Q
  end.

(** The value [m * 2^e]. *)
Definition val (m e : Z) : Q := (inject_Z m * 2 ^ e)%Q.

(** The exponent of the last place of a binary32 of magnitude below
    [2^e]. *)
Definition fexp32 (e : Z) : Z := fexp F32.prec F32.emax e.

(** Unit roundoff and the largest error of a result below the normal
    range. *)
Definition u : Q := (2 ^ (-24))%Q.
Definition eta : Q := (2 ^ (-150))%Q.

(** The magnitude of a binary32; zero for what is not a number. *)
Definition mag (x : f32) : Q :=
  match x with
  | S754_finite _ m e => val (Z.pos m) e
  | _ => 0%Q
  end.

(** Zero or a positive number. *)
Definition is_nonneg (x : f32) : bool :=
  match x with
  | S754_zero false | S754_finite false _ _ => true
  | _ => false
  end.

(** A positive normal number in canonical form. *)
Definition normal_pos (x : f32) : Prop :=
  exists m e, x = S754_finite false m e /\ (2 ^ 23 <= Z.pos m < 2 ^ 24)%Z.

(** The exact sum of the squares of the magnitudes. *)
Fixpoint sumsq (values : list f32) : Q :=
  match values with
  | [] => 0%Q
  | v :: rest => (mag v * mag v + sumsq rest)%Q
  end.

(** [y] is within [err] of [x]. *)
Definition near (err x y : Q) : Prop := (y - x <= err /\ x - y <= err)%Q.

(** The distance from 1 allowed to the squared norm of a normalised vector
    of [n] elements: [n + 4] units in the 22nd binary place. *)
Definition norm_tolerance (n : nat) : Q :=
  ((4 * inject_Z (Z.of_nat n) + 16) * u)%Q.

End Rnd.

(** ** The collaborators: inference runtime and JVM *)

Definition llama_token : Type := Z.

(** The fields of [llama_model_params] that [nativeInit] sets. *)
Record llama_model_params := {
  n_gpu_layers : Z;
  use_mmap : bool;
  use_mlock : bool
}.

Inductive llama_pooling_type :=
| LLAMA_POOLING_TYPE_UNSPECIFIED
| LLAMA_POOLING_TYPE_NONE
| LLAMA_POOLING_TYPE_MEAN
| LLAMA_POOLING_TYPE_CLS
| LLAMA_POOLING_TYPE_LAST
| LLAMA_POOLING_TYPE_RANK.

(** The fields of [llama_context_params] that [nativeInit] sets. *)
Record llama_context_params := {
  embeddings : bool;
  pooling_type : llama_pooling_type;
  cp_n_ctx : Z;
  n_batch : Z;
  n_ubatch : Z;
  n_seq_max : Z;
  n_threads : Z;
  n_threads_batch : Z;
  kv_unified : bool
}.

Definition set_embeddings (b : bool) (cp : llama_context_params) :=
  {| embeddings := b; pooling_type := pooling_type cp; cp_n_ctx := cp_n_ctx cp;
     n_batch := n_batch cp; n_ubatch := n_ubatch cp; n_seq_max := n_seq_max cp;
     n_threads := n_threads cp; n_threads_batch := n_threads_batch cp;
     kv_unified := kv_unified cp |}.

(** [llama_batch] for token input ([embd == 0]): parallel arrays. *)
Record llama_batch := {
  n_tokens : Z;
  token : list llama_token;
  pos : list Z;
  n_seq_id : list Z;
  seq_id : list (list Z);
  logits : list Z
}.

(** What this file takes from llama.cpp and from the C++ runtime, as pure
    functions of the values they are applied to.
    - [llama_tokenize vocab text text_len tokens n_tokens_max add_special
      parse_special] gives the returned count and the token buffer after the
      call.
    - [rt_context_create] gives the realised context length and the fresh
      sequence memory, or nothing when the context cannot be built.
    - [rt_decode] gives the return code, the sequence memory after the call
      and the pooled embedding of sequence 0, when there is one. *)
Class Runtime := {
  llama_model : Type;
  llama_vocab : Type;
  llama_memory : Type;
  hardware_concurrency : Z;
  rt_model_load : string -> llama_model_params -> option llama_model;
  rt_model_get_vocab : llama_model -> llama_vocab;
  rt_model_n_embd : llama_model -> Z;
  rt_context_create :
    llama_model -> llama_context_params -> option (Z * llama_memory);
  llama_tokenize :
    llama_vocab -> string -> Z -> list llama_token -> Z -> bool -> bool ->
    Z * list llama_token;
  rt_memory_clear : llama_memory -> bool -> llama_memory;
  rt_decode :
    llama_model -> llama_context_params -> llama_memory -> llama_batch ->
    Z * llama_memory * option (list f32)
}.

(** The two services of [JNIEnv] that the entry points call.
    [GetStringUTFChars] gives the bytes of a Java string or a null pointer;
    [NewFloatArray n] tells whether the JVM can allocate the array. *)
Record JNIEnv := {
  jstring : Type;
  GetStringUTFChars : jstring -> option string;
  NewFloatArray : Z -> bool
}.

(** ** The tokenizer adapter *)

(** [count = -count] on [int32_t]; overflow of a signed negation has no
    defined behaviour. *)
Definition int32_neg (count : Z) : result Z :=
  if in_int32 (- count) then Ok (- count) else UB.

Definition tokenize `{Runtime} (vocab : llama_vocab) (text : string)
    (max_tokens : Z) : result (list llama_token) :=
  if String.eqb text "" then Ok []
  else
    tokens ← Vec.make (0 : llama_token) (to_size_t max_tokens);
    let '(count, tokens) :=
      llama_tokenize vocab text (to_int32 (Z.of_nat (String.length text)))
        tokens max_tokens true false in
    count ← (if count <? 0 then
               count ← int32_neg count;
               Ok (if count >? max_tokens then max_tokens else count)
             else Ok count);
    Vec.resize (0 : llama_token) tokens (to_size_t count).

(** ** The native heap and the call trace *)

(** A non-null address. A [jlong] handle is [Z.pos p] for the address [p] of
    a session, or [0]. *)
Definition ptr : Type := positive.

(** [struct EmbeddingState]. The [std::mutex] member is left out: the calls
    of this model run one after the other, so the lock taken by [nativeEmbed]
    is free on entry and released on every way out. *)
Record EmbeddingState := {
  model : option ptr;
  ctx : option ptr;
  n_embd : Z;
  n_ctx : Z
}.

(** A session as [new EmbeddingState()] leaves it. *)
Definition EmbeddingState_default : EmbeddingState :=
  {| model := None; ctx := None; n_embd := 0; n_ctx := 0 |}.

(** What a call does to the world outside this file, in the order in which
    it does it: calls into the runtime that create, use or free an object,
    [new] and [delete] of a session, and the lines of the error log. *)
Inductive Event :=
| EvBackendInit
| EvLog (message : string)
| EvNew (p : ptr)
| EvDelete (p : ptr)
| EvModelLoad (path : string) (r : option ptr)
| EvModelFree (m : ptr)
| EvContextInit (m : ptr) (r : option ptr)
| EvContextFree (c : ptr)
| EvMemoryClear (c : ptr)
| EvBatchInit (n : Z)
| EvDecode (c : ptr) (rc : Z)
| EvBatchFree.

Section WithRuntime.
Context `{rt : Runtime}.

(** A [llama_context] object: the model it is bound to, its parameters, its
    realised length, its sequence memory and the pooled output of the last
    decode. *)
Record llama_context := {
  ctx_model : ptr;
  ctx_params : llama_context_params;
  ctx_n_ctx : Z;
  ctx_memory : llama_memory;
  ctx_embd_seq : option (list f32)
}.

Record World := {
  g_backend_ready : bool;
  states : gmap ptr EmbeddingState;
  models : gmap ptr llama_model;
  contexts : gmap ptr llama_context;
  live_batches : nat;
  trace : list Event
}.

(** Native code: a world transformer that may throw or go wrong. *)
Definition M (A : Type) : Type := World -> result (A * World).

Definition M_ret {A} (a : A) : M A := fun w => Ok (a, w).
Definition M_bind {A B} (k : A -> M B) (c : M A) : M B := fun w =>
  match c w with
  | Ok (a, w') => k a w'
  | Throws s => Throws s
  | UB => UB
  end.

Definition lift {A} (r : result A) : M A := fun w =>
  match r with
  | Ok a => Ok (a, w)
  | Throws s => Throws s
  | UB => UB
  end.

Definition undefined {A} : M A := fun _ => UB.

(** Updates of one field of the world. *)
Definition upd_trace (e : Event) (w : World) : World :=
  {| g_backend_ready := g_backend_ready w; states := states w;
     models := models w; contexts := contexts w;
     live_batches := live_batches w; trace := trace w ++ [e] |}.

Definition upd_backend_ready (b : bool) (w : World) : World :=
  {| g_backend_ready := b; states := states w;
     models := models w; contexts := contexts w;
     live_batches := live_batches w; trace := trace w |}.

Definition upd_states
    (f : gmap ptr EmbeddingState -> gmap ptr EmbeddingState) (w : World)
  : World :=
  {| g_backend_ready := g_backend_ready w; states := f (states w);
     models := models w; contexts := contexts w;
     live_batches := live_batches w; trace := trace w |}.

Definition upd_models (f : gmap ptr llama_model -> gmap ptr llama_model)
    (w : World) : World :=
  {| g_backend_ready := g_backend_ready w; states := states w;
     models := f (models w); contexts := contexts w;
     live_batches := live_batches w; trace := trace w |}.

Definition upd_contexts
    (f : gmap ptr llama_context -> gmap ptr llama_context) (w : World)
  : World :=
  {| g_backend_ready := g_backend_ready w; states := states w;
     models := models w; contexts := f (contexts w);
     live_batches := live_batches w; trace := trace w |}.

Definition upd_live_batches (f : nat -> nat) (w : World) : World :=
  {| g_backend_ready := g_backend_ready w; states := states w;
     models := models w; contexts := contexts w;
     live_batches := f (live_batches w); trace := trace w |}.

Definition emit (e : Event) : M unit := fun w => Ok (tt, upd_trace e w).

Definition set_backend_ready (b : bool) : M unit := fun w =>
  Ok (tt, upd_backend_ready b w).

Definition set_states (f : gmap ptr EmbeddingState -> gmap ptr EmbeddingState)
  : M unit := fun w => Ok (tt, upd_states f w).

Definition set_models (f : gmap ptr llama_model -> gmap ptr llama_model)
  : M unit := fun w => Ok (tt, upd_models f w).

Definition set_contexts
    (f : gmap ptr llama_context -> gmap ptr llama_context) : M unit :=
  fun w => Ok (tt, upd_contexts f w).

Definition set_live_batches (f : nat -> nat) : M unit := fun w =>
  Ok (tt, upd_live_batches f w).

Definition get {A} (f : World -> A) : M A := fun w => Ok (f w, w).

End WithRuntime.

Global Instance M_mret `{Runtime} : MRet M := @M_ret _.
Global Instance M_mbind `{Runtime} : MBind M := @M_bind _.

Section Native.
Context `{rt : Runtime}.

(** *** Helpers of the anonymous namespace *)

Definition ensure_backend : M unit :=
  ready ← get g_backend_ready;
  if ready : bool then mret tt
  else emit EvBackendInit ;; set_backend_ready true.

Definition log_error (message : string) : M unit := emit (EvLog message).

(** *** Heap objects of this file *)

(** [new EmbeddingState()] *)
Definition new_EmbeddingState : M ptr :=
  live ← get states;
  let p := fresh (dom live) in
  set_states (insert p EmbeddingState_default) ;;
  emit (EvNew p) ;;
  mret p.

(** Reading through [state->]. *)
Definition read_state (p : ptr) : M EmbeddingState :=
  live ← get states;
  match live !! p with
  | Some st => mret st
  | None => undefined
  end.

(** Writing through [state->]. *)
Definition write_state (p : ptr) (f : EmbeddingState -> EmbeddingState)
  : M unit :=
  st ← read_state p;
  set_states (insert p (f st)).

(** [delete state] *)
Definition delete_state (p : ptr) : M unit :=
  _ ← read_state p;
  set_states (delete p) ;;
  emit (EvDelete p).

Definition with_model (m : option ptr) (st : EmbeddingState) :=
  {| model := m; ctx := ctx st; n_embd := n_embd st; n_ctx := n_ctx st |}.
Definition with_ctx (c : option ptr) (st : EmbeddingState) :=
  {| model := model st; ctx := c; n_embd := n_embd st; n_ctx := n_ctx st |}.
Definition with_n_embd (n : Z) (st : EmbeddingState) :=
  {| model := model st; ctx := ctx st; n_embd := n; n_ctx := n_ctx st |}.
Definition with_n_ctx (n : Z) (st : EmbeddingState) :=
  {| model := model st; ctx := ctx st; n_embd := n_embd st; n_ctx := n |}.

(** [reinterpret_cast<EmbeddingState *>(handle)] for a non-zero handle; an
    integer that is no address of the model cannot be followed. *)
Definition state_of_handle (handle : Z) : M ptr :=
  match handle with
  | Z.pos p => mret p
  | _ => undefined
  end.

(** *** The llama.cpp API on the heap *)

Definition read_model (m : ptr) : M llama_model :=
  live ← get models;
  match live !! m with
  | Some v => mret v
  | None => undefined
  end.

Definition read_context (c : ptr) : M llama_context :=
  live ← get contexts;
  match live !! c with
  | Some v => mret v
  | None => undefined
  end.

Definition llama_model_load_from_file (path : string)
    (mparams : llama_model_params) : M (option ptr) :=
  match rt_model_load path mparams with
  | Some v =>
      live ← get models;
      let m := fresh (dom live) in
      set_models (insert m v) ;;
      emit (EvModelLoad path (Some m)) ;;
      mret (Some m)
  | None => emit (EvModelLoad path None) ;; mret None
  end.

Definition llama_model_free (m : ptr) : M unit :=
  _ ← read_model m;
  set_models (delete m) ;;
  emit (EvModelFree m).

Definition llama_init_from_model (m : ptr) (cparams : llama_context_params)
  : M (option ptr) :=
  v ← read_model m;
  match rt_context_create v cparams with
  | Some (realised, mem) =>
      live ← get contexts;
      let c := fresh (dom live) in
      set_contexts (insert c {| ctx_model := m; ctx_params := cparams;
                                ctx_n_ctx := realised; ctx_memory := mem;
                                ctx_embd_seq := None |}) ;;
      emit (EvContextInit m (Some c)) ;;
      mret (Some c)
  | None => emit (EvContextInit m None) ;; mret None
  end.

Definition llama_free (c : ptr) : M unit :=
  _ ← read_context c;
  set_contexts (delete c) ;;
  emit (EvContextFree c).

Definition llama_set_embeddings (c : ptr) (b : bool) : M unit :=
  v ← read_context c;
  set_contexts (insert c {| ctx_model := ctx_model v;
                            ctx_params := set_embeddings b (ctx_params v);
                            ctx_n_ctx := ctx_n_ctx v;
                            ctx_memory := ctx_memory v;
                            ctx_embd_seq := ctx_embd_seq v |}).

Definition llama_model_n_embd (m : ptr) : M Z :=
  v ← read_model m; mret (rt_model_n_embd v).

Definition llama_n_ctx (c : ptr) : M Z :=
  v ← read_context c; mret (ctx_n_ctx v).

Definition llama_model_get_vocab (m : ptr) : M llama_vocab :=
  v ← read_model m; mret (rt_model_get_vocab v).

(** [llama_memory_clear(llama_get_memory(ctx), data)] *)
Definition llama_memory_clear (c : ptr) (data : bool) : M unit :=
  v ← read_context c;
  set_contexts (insert c {| ctx_model := ctx_model v;
                            ctx_params := ctx_params v;
                            ctx_n_ctx := ctx_n_ctx v;
                            ctx_memory := rt_memory_clear (ctx_memory v) data;
                            ctx_embd_seq := ctx_embd_seq v |}) ;;
  emit (EvMemoryClear c).

(** [llama_batch_init(n_tokens_alloc, 0, n_seq_max)]: arrays of
    [n_tokens_alloc] entries, every [seq_id] row of [n_seq_max] entries, and
    [n_tokens = 0]. The arrays come from [malloc]; their unspecified contents
    are taken to be 0, and [nativeEmbed] overwrites every entry before the
    batch is used. *)
Definition llama_batch_init (n_tokens_alloc embd n_seq_max : Z)
  : M llama_batch :=
  let n := Z.to_nat n_tokens_alloc in
  set_live_batches S ;;
  emit (EvBatchInit n_tokens_alloc) ;;
  mret {| n_tokens := 0; token := repeat 0 n; pos := repeat 0 n;
          n_seq_id := repeat 0 n;
          seq_id := repeat (repeat 0 (Z.to_nat n_seq_max)) n;
          logits := repeat 0 n |}.

Definition llama_batch_free (batch : llama_batch) : M unit :=
  set_live_batches Nat.pred ;;
  emit EvBatchFree.

Definition llama_decode (c : ptr) (batch : llama_batch) : M Z :=
  v ← read_context c;
  mv ← read_model (ctx_model v);
  let '(rc, mem, out) := rt_decode mv (ctx_params v) (ctx_memory v) batch in
  set_contexts (insert c {| ctx_model := ctx_model v;
                            ctx_params := ctx_params v;
                            ctx_n_ctx := ctx_n_ctx v;
                            ctx_memory := mem;
                            ctx_embd_seq := out |}) ;;
  emit (EvDecode c rc) ;;
  mret rc.

(** [llama_get_embeddings_seq(ctx, 0)]: the pooled buffer or a null pointer. *)
Definition llama_get_embeddings_seq (c : ptr) (seq : Z)
  : M (option (list f32)) :=
  v ← read_context c;
  mret (if seq =? 0 then ctx_embd_seq v else None).

End Native.

(** ** Arrays behind raw pointers *)

(** [a[i]] read and written through a pointer: outside the allocation the
    access has no defined behaviour. *)
Definition load {A} (a : list A) (i : Z) : result A :=
  if (0 <=? i) && (i <? Z.of_nat (length a)) then
    match a !! Z.to_nat i with
    | Some x => Ok x
    | None => UB
    end
  else UB.

Definition store {A} (a : list A) (i : Z) (x : A) : result (list A) :=
  if (0 <=? i) && (i <? Z.of_nat (length a)) then Ok (<[Z.to_nat i := x]> a)
  else UB.

(** ** The sequence batch builder *)

(** The body of the loop that fills the batch, at index [i]. *)
Definition batch_set (tokens : list llama_token) (i : Z) (batch : llama_batch)
  : result llama_batch :=
  t ← load tokens (to_size_t i);
  token' ← store (token batch) i t;
  pos' ← store (pos batch) i i;
  n_seq_id' ← store (n_seq_id batch) i 1;
  row ← load (seq_id batch) i;
  row' ← store row 0 0;
  seq_id' ← store (seq_id batch) i row';
  logits' ← store (logits batch) i 1;
  Ok {| n_tokens := n_tokens batch; token := token'; pos := pos';
        n_seq_id := n_seq_id'; seq_id := seq_id'; logits := logits' |}.

(** [steps] turns of the loop from index [i]. *)
Fixpoint batch_fill (steps : nat) (i : Z) (tokens : list llama_token)
    (batch : llama_batch) : result llama_batch :=
  match steps with
  | O => Ok batch
  | S k =>
      batch' ← batch_set tokens i batch;
      batch_fill k (i + 1) tokens batch'
  end.

Definition with_n_tokens (n : Z) (batch : llama_batch) : llama_batch :=
  {| n_tokens := n; token := token batch; pos := pos batch;
     n_seq_id := n_seq_id batch; seq_id := seq_id batch;
     logits := logits batch |}.

(** ** Copying the pooled embedding *)

(** [steps] turns of [output[i] = embd[i]] from index [i]. *)
Fixpoint copy_embd (steps : nat) (i : Z) (embd output : list f32)
  : result (list f32) :=
  match steps with
  | O => Ok output
  | S k =>
      x ← load embd i;
      output' ← store output (to_size_t i) x;
      copy_embd k (i + 1) embd output'
  end.

(** The test that guards the truncation in [nativeEmbed]:
    [static_cast<uint32_t>(tokens.size()) > state->n_ctx]. *)
Definition exceeds_context (tokens : list llama_token) (n_ctx : Z) : bool :=
  to_uint32 (Vec.size tokens) >? n_ctx.

(** ** The JNI entry points *)

Section EntryPoints.
Context `{rt : Runtime}.

(** [mparams] of [nativeInit]: the defaults of the runtime with these three
    fields overwritten. *)
Definition init_model_params : llama_model_params :=
  {| n_gpu_layers := 0; use_mmap := true; use_mlock := false |}.

(** [cparams] of [nativeInit]; [n_threads] is
    [std::max(1u, std::thread::hardware_concurrency())]. *)
Definition init_context_params : llama_context_params :=
  {| embeddings := true;
     pooling_type := LLAMA_POOLING_TYPE_LAST;
     cp_n_ctx := 4096;
     n_batch := 4096;
     n_ubatch := 4096;
     n_seq_max := 1;
     n_threads := Z.max 1 hardware_concurrency;
     n_threads_batch := Z.max 1 hardware_concurrency;
     kv_unified := true |}.

(** [LocalEmbeddingEngine.nativeInit]; the result is the [jlong] handle. *)
Definition nativeInit (env : JNIEnv) (model_path : jstring env) : M Z :=
  ensure_backend ;;
  match GetStringUTFChars env model_path with
  | None => log_error "Model path is null" ;; mret 0
  | Some model_path_str =>
      state ← new_EmbeddingState;
      let mparams := init_model_params in
      loaded ← llama_model_load_from_file model_path_str mparams;
      write_state state (with_model loaded) ;;
      st ← read_state state;
      match model st with
      | None =>
          log_error "Failed to load model" ;;
          delete_state state ;;
          mret 0
      | Some state_model =>
          let cparams := init_context_params in
          created ← llama_init_from_model state_model cparams;
          write_state state (with_ctx created) ;;
          st ← read_state state;
          match ctx st with
          | None =>
              log_error "Failed to init context" ;;
              llama_model_free state_model ;;
              delete_state state ;;
              mret 0
          | Some state_ctx =>
              llama_set_embeddings state_ctx true ;;
              width ← llama_model_n_embd state_model;
              write_state state (with_n_embd width) ;;
              len ← llama_n_ctx state_ctx;
              write_state state (with_n_ctx len) ;;
              mret (Z.pos state)
          end
      end
  end.

(** [LocalEmbeddingEngine.nativeEmbed]; the result is the Java [float[]] or
    a null reference. *)
Definition nativeEmbed (env : JNIEnv) (handle : Z) (text : jstring env)
  : M (option (list f32)) :=
  if handle =? 0 then log_error "Embedding handle is null" ;; mret None
  else
    state ← state_of_handle handle;
    st ← read_state state;
    match ctx st, model st with
    | Some state_ctx, Some state_model =>
        match GetStringUTFChars env text with
        | None => log_error "Embedding text is null" ;; mret None
        | Some text_str =>
            vocab ← llama_model_get_vocab state_model;
            let max_tokens := to_int32 (n_ctx st) in
            tokens ← lift (tokenize vocab text_str max_tokens);
            if bool_decide (tokens = []) then
              log_error "Tokenization produced empty tokens" ;; mret None
            else
              tokens ← (if exceeds_context tokens (n_ctx st)
                        then lift (Vec.resize (0 : llama_token) tokens
                                     (n_ctx st))
                        else mret tokens);
              llama_memory_clear state_ctx true ;;
              batch ← llama_batch_init (to_int32 (Vec.size tokens)) 0 1;
              let batch := with_n_tokens (to_int32 (Vec.size tokens)) batch in
              batch ← lift (batch_fill (Z.to_nat (n_tokens batch)) 0
                              tokens batch);
              decode_result ← llama_decode state_ctx batch;
              llama_batch_free batch ;;
              if negb (decode_result =? 0) then
                log_error "llama_decode failed" ;; mret None
              else
                embd ← llama_get_embeddings_seq state_ctx 0;
                match embd with
                | None => log_error "Failed to get embeddings" ;; mret None
                | Some embd =>
                    output ← lift (Vec.make F32.zero (to_size_t (n_embd st)));
                    output ← lift (copy_embd (Z.to_nat (n_embd st)) 0
                                     embd output);
                    let output := normalize_l2 output in
                    if NewFloatArray env (n_embd st) then mret (Some output)
                    else
                      log_error "Failed to allocate float array" ;;
                      mret None
                end
        end
    | _, _ => log_error "Embedding state is invalid" ;; mret None
    end.

(** [LocalEmbeddingEngine.nativeRelease] *)
Definition nativeRelease (handle : Z) : M unit :=
  if handle =? 0 then mret tt
  else
    state ← state_of_handle handle;
    st ← read_state state;
    match ctx st with
    | Some state_ctx =>
        llama_free state_ctx ;;
        write_state state (with_ctx None)
    | None => mret tt
    end ;;
    st ← read_state state;
    match model st with
    | Some state_model =>
        llama_model_free state_model ;;
        write_state state (with_model None)
    | None => mret tt
    end ;;
    delete_state state.

End EntryPoints.

(** ** [nativeEmbed] in direct style

    The same run as [nativeEmbed], with the monad unfolded: every heap
    lookup, every outcome and every world is written out, in the order of
    the source. [nativeEmbed_run] below shows that the two agree on every
    input; the properties of [nativeEmbed] are read off this form. *)

Section DirectStyle.
Context `{rt : Runtime}.

(** The batch that [nativeEmbed] hands to [llama_decode]. *)
Definition embed_batch (tokens : list llama_token) : result llama_batch :=
  let n := to_int32 (Vec.size tokens) in
  let k := Z.to_nat n in
  batch_fill k 0 tokens
    {| n_tokens := n; token := repeat 0 k; pos := repeat 0 k;
       n_seq_id := repeat 0 k; seq_id := repeat (repeat 0 (Z.to_nat 1)) k;
       logits := repeat 0 k |}.

(** The batch after [i] turns of the filling loop, with [k] entries still
    to fill. *)
Definition filled (tokens : list llama_token) (i k : nat) : llama_batch :=
  {| n_tokens := Z.of_nat (length tokens);
     token := take i tokens ++ repeat 0 k;
     pos := (Z.of_nat <$> seq 0 i) ++ repeat 0 k;
     n_seq_id := repeat 1 i ++ repeat 0 k;
     seq_id := repeat [0] i ++ repeat [0] k;
     logits := repeat 1 i ++ repeat 0 k |}.

(** The host-owned copy of the pooled embedding, normalised. *)
Definition embed_output (n_embd : Z) (embd : list f32) : result (list f32) :=
  output ← Vec.make F32.zero (to_size_t n_embd);
  output ← copy_embd (Z.to_nat n_embd) 0 embd output;
  Ok (normalize_l2 output).

Definition cleared (cv : llama_context) : llama_context :=
  {| ctx_model := ctx_model cv; ctx_params := ctx_params cv;
     ctx_n_ctx := ctx_n_ctx cv;
     ctx_memory := rt_memory_clear (ctx_memory cv) true;
     ctx_embd_seq := ctx_embd_seq cv |}.

Definition decoded (cv : llama_context) (mem : llama_memory)
    (out : option (list f32)) : llama_context :=
  {| ctx_model := ctx_model cv; ctx_params := ctx_params cv;
     ctx_n_ctx := ctx_n_ctx cv; ctx_memory := mem; ctx_embd_seq := out |}.

(** From the decode on: [w2] is the world in which the batch exists. *)
Definition embed_run_decode (env : JNIEnv) (st : EmbeddingState) (c : ptr)
    (cv : llama_context) (cmv : llama_model) (batch : llama_batch)
    (w2 : World) : result (option (list f32) * World) :=
  let '(rc, mem, out) :=
    rt_decode cmv (ctx_params cv) (ctx_memory cv) batch in
  let w3 :=
    upd_trace (EvDecode c rc)
      (upd_contexts (insert c (decoded cv mem out)) w2) in
  let w4 := upd_trace EvBatchFree (upd_live_batches Nat.pred w3) in
  if negb (rc =? 0) then
    Ok (None, upd_trace (EvLog "llama_decode failed") w4)
  else
    match out with
    | None => Ok (None, upd_trace (EvLog "Failed to get embeddings") w4)
    | Some embd =>
        match embed_output (n_embd st) embd with
        | Ok output =>
            if NewFloatArray env (n_embd st) then Ok (Some output, w4)
            else
              Ok (None, upd_trace (EvLog "Failed to allocate float array") w4)
        | Throws s => Throws s
        | UB => UB
        end
    end.

(** From the non-empty token sequence on. *)
Definition embed_run_tokens (env : JNIEnv) (st : EmbeddingState) (c : ptr)
    (tokens0 : list llama_token) (w : World)
  : result (option (list f32) * World) :=
  match (if exceeds_context tokens0 (n_ctx st)
         then Vec.resize (0 : llama_token) tokens0 (n_ctx st)
         else Ok tokens0) with
  | Ok tokens =>
      match contexts w !! c with
      | Some cv =>
          let w1 :=
            upd_trace (EvMemoryClear c)
              (upd_contexts (insert c (cleared cv)) w) in
          let w2 :=
            upd_trace (EvBatchInit (to_int32 (Vec.size tokens)))
              (upd_live_batches S w1) in
          match embed_batch tokens with
          | Ok batch =>
              match models w !! ctx_model cv with
              | Some cmv => embed_run_decode env st c (cleared cv) cmv batch w2
              | None => UB
              end
          | Throws s => Throws s
          | UB => UB
          end
      | None => UB
      end
  | Throws s => Throws s
  | UB => UB
  end.

(** From the session object on. *)
Definition embed_run_session (env : JNIEnv) (state : ptr)
    (text : jstring env) (w : World) : result (option (list f32) * World) :=
  match states w !! state with
  | None => UB
  | Some st =>
      match ctx st, model st with
      | Some c, Some m =>
          match GetStringUTFChars env text with
          | None => Ok (None, upd_trace (EvLog "Embedding text is null") w)
          | Some text_str =>
              match models w !! m with
              | None => UB
              | Some mv =>
                  match tokenize (rt_model_get_vocab mv) text_str
                          (to_int32 (n_ctx st)) with
                  | Ok tokens0 =>
                      if bool_decide (tokens0 = []) then
                        Ok (None,
                            upd_trace
                              (EvLog "Tokenization produced empty tokens") w)
                      else embed_run_tokens env st c tokens0 w
                  | Throws s => Throws s
                  | UB => UB
                  end
              end
          end
      | _, _ => Ok (None, upd_trace (EvLog "Embedding state is invalid") w)
      end
  end.

Definition embed_run (env : JNIEnv) (handle : Z) (text : jstring env)
    (w : World) : result (option (list f32) * World) :=
  match handle with
  | 0 => Ok (None, upd_trace (EvLog "Embedding handle is null") w)
  | Z.pos p => embed_run_session env p text w
  | Z.neg _ => UB
  end.

End DirectStyle.

(** The events of a run that concern the decode batch. *)
Definition is_batch_event (e : Event) : bool :=
  match e with
  | EvBatchInit _ | EvDecode _ _ | EvBatchFree => true
  | _ => false
  end.

Definition batch_events (evs : list Event) : list Event :=
  List.filter is_batch_event evs.

(** ** Contracts of the collaborators *)

Section Contracts.
Context `{rt : Runtime}.

(** llama.h on [llama_tokenize]: on success the count is "no more than
    [n_tokens_max]". *)
Definition tokenizer_bounded : Prop :=
  forall vocab text len buf n_tokens_max add_special parse_special,
    0 <= n_tokens_max ->
    fst (llama_tokenize vocab text len buf n_tokens_max add_special
           parse_special) <= n_tokens_max.

(** Clearing the sequence memory together with its data leaves nothing of
    what earlier sequences stored. *)
Definition memory_clear_erases : Prop :=
  forall mem mem', rt_memory_clear mem true = rt_memory_clear mem' true.

(** What [ensure_backend] adds to the trace. *)
Definition backend_events (w : World) : list Event :=
  if g_backend_ready w then [] else [EvBackendInit].

(** What [nativeRelease] adds to the trace for the session [st] at [p]. *)
Definition release_events (p : ptr) (st : EmbeddingState) : list Event :=
  match ctx st with Some c => [EvContextFree c] | None => [] end ++
  match model st with Some m => [EvModelFree m] | None => [] end ++
  [EvDelete p].

(** A session that [nativeEmbed] and [nativeRelease] can follow: the object
    is live, and so are the model and the context it refers to, and the model
    the context is bound to. *)
Definition live_session (w : World) (p : ptr) (st : EmbeddingState) : Prop :=
  states w !! p = Some st /\
  (forall m, model st = Some m -> is_Some (models w !! m)) /\
  (forall c, ctx st = Some c ->
     exists cv, contexts w !! c = Some cv /\
                is_Some (models w !! ctx_model cv)).

(** A call that exits before the tokens are used says why and changes
    nothing else. *)
Definition early_exit (w w' : World) : Prop :=
  (exists message, trace w' = trace w ++ [EvLog message]) /\
  states w' = states w /\ models w' = models w /\
  contexts w' = contexts w /\ live_batches w' = live_batches w.

(** What a call of [nativeEmbed] on the session at [p] can see of the world
    apart from the sequence memory and the output buffer of the context: the
    session object, the model it points to, and the parameters and the model
    of the context it points to. *)
Definition context_view (w : World) (c : ptr)
  : option (llama_context_params * option llama_model) :=
  match contexts w !! c with
  | Some cv => Some (ctx_params cv, models w !! ctx_model cv)
  | None => None
  end.

Definition session_view (w : World) (p : ptr)
  : option (EmbeddingState * option llama_model *
            option (llama_context_params * option llama_model)) :=
  match states w !! p with
  | Some st =>
      Some (st,
            match model st with Some m => models w !! m | None => None end,
            match ctx st with Some c => context_view w c | None => None end)
  | None => None
  end.

End Contracts.

(** ** A small runtime to run the entry points on

    One token per byte of the text; the sequence memory is the list of the
    tokens decoded since it was last cleared; the pooled embedding has two
    coordinates, the sum and the number of the tokens in memory, scaled by a
    factor stored in the model file. A batch that holds the byte 33 fails to
    decode. Three model files exist. *)

Module Toy.

Record weights := { scale : f32; builds_context : bool }.

Definition load (path : string) (_ : llama_model_params) : option weights :=
  if String.eqb path "model.gguf" then
    Some {| scale := F32.one; builds_context := true |}
  else if String.eqb path "tiny.gguf" then
    Some {| scale := F32.of_Z_pow2 1 (-100); builds_context := true |}
  else if String.eqb path "nocontext.gguf" then
    Some {| scale := F32.one; builds_context := false |}
  else None.

Definition tokens_of (text : string) : list llama_token :=
  map (fun a => Z.of_nat (Ascii.nat_of_ascii a)) (list_ascii_of_string text).

(** As [llama_vocab::tokenize]: a text that does not fit is reported by the
    negated count and the buffer is left alone. *)
Definition tokenize_fn (_ : unit) (text : string) (_ : Z)
    (buf : list llama_token) (n_tokens_max : Z) (_ _ : bool)
  : Z * list llama_token :=
  let res := tokens_of text in
  let n := Z.of_nat (length res) in
  if n_tokens_max <? n then (- n, buf)
  else (n, res ++ drop (length res) buf).

Definition zsum (l : list Z) : Z := fold_right Z.add 0 l.

Definition decode (m : weights) (_ : llama_context_params)
    (mem : list llama_token) (batch : llama_batch)
  : Z * list llama_token * option (list f32) :=
  let mem' := mem ++ firstn (Z.to_nat (n_tokens batch)) (token batch) in
  if existsb (Z.eqb 33) (token batch) then (1, mem', None)
  else (0, mem',
        Some [F32.mul (scale m) (F32.of_Z (zsum mem'));
              F32.mul (scale m) (F32.of_Z (Z.of_nat (length mem')))]).

Global Instance runtime : Runtime := {|
  llama_model := weights;
  llama_vocab := unit;
  llama_memory := list llama_token;
  hardware_concurrency := 4;
  rt_model_load := load;
  rt_model_get_vocab := fun _ => tt;
  rt_model_n_embd := fun _ => 2;
  rt_context_create := fun m cp =>
    if builds_context m then Some (cp_n_ctx cp, []) else None;
  llama_tokenize := tokenize_fn;
  rt_memory_clear := fun _ _ => [];
  rt_decode := decode
|}.

(** A JVM whose strings are never null and whose allocations succeed. *)
Definition env : JNIEnv := {|
  jstring := string;
  GetStringUTFChars := Some;
  NewFloatArray := fun _ => true
|}.

(** The process before the first call. *)
Definition world0 : World := {|
  g_backend_ready := false;
  states := ∅;
  models := ∅;
  contexts := ∅;
  live_batches := 0;
  trace := []
|}.

(** The value and the world after [c], when it runs to its end. *)
Definition value {A} (r : result (A * World)) : option A :=
  match r with
  | Ok (a, _) => Some a
  | _ => None
  end.

Definition after {A} (r : result (A * World)) : World :=
  match r with
  | Ok (_, w) => w
  | _ => world0
  end.

(** The world after a session on [path] was built. *)
Definition world_with (path : string) : World :=
  after (nativeInit env path world0).

(** The session that [nativeInit] builds on ["model.gguf"]. *)
Definition session : EmbeddingState :=
  {| model := Some 1%positive; ctx := Some 1%positive;
     n_embd := 2; n_ctx := 4096 |}.

(** The model of that session. *)
Definition session_weights : weights :=
  {| scale := F32.one; builds_context := true |}.

(** The embedding of ["ab"] under ["model.gguf"]: [195, 2] normalised. *)
Definition ab_embedding : list f32 :=
  [S754_finite false 16776334 (-24); S754_finite false 11012158 (-30)].

(** The pooled vector of ["ab"] under ["tiny.gguf"]: [195, 2] scaled by
    [2^-100]. *)
Definition ab_tiny : list f32 :=
  [S754_finite false 12779520 (-116); S754_finite false 8388608 (-122)].

End Toy.


(** ** Observations on values and traces *)

(** A binary32 that is a zero or a finite number: neither infinite nor NaN. *)
Definition is_finite_f32 (x : f32) : bool :=
  match x with
  | S754_zero _ | S754_finite _ _ _ => true
  | S754_infinity _ | S754_nan => false
  end.

(** The lines of the error log among the events of a run. *)
Definition is_log_event (e : Event) : bool :=
  match e with
  | EvLog _ => true
  | _ => false
  end.

Definition log_events (evs : list Event) : list Event :=
  List.filter is_log_event evs.

(** The calls of [llama_backend_init] among the events of a run. *)
Definition is_backend_event (e : Event) : bool :=
  match e with
  | EvBackendInit => true
  | _ => false
  end.

Definition backend_inits (evs : list Event) : list Event :=
  List.filter is_backend_event evs.

(** A runtime as [Toy.runtime], except that its tokenizer answers every text
    with [INT32_MIN], the value by which [llama_tokenize] reports a number of
    tokens that does not fit an [int32_t]. *)
Definition sentinel_runtime : Runtime := {|
  llama_model := Toy.weights;
  llama_vocab := unit;
  llama_memory := list llama_token;
  hardware_concurrency := 4;
  rt_model_load := Toy.load;
  rt_model_get_vocab := fun _ => tt;
  rt_model_n_embd := fun _ => 2;
  rt_context_create := fun m cp =>
    if Toy.builds_context m then Some (cp_n_ctx cp, []) else None;
  llama_tokenize := fun _ _ _ buf _ _ _ => (INT32_MIN, buf);
  rt_memory_clear := fun _ _ => [];
  rt_decode := Toy.decode
|}.

(** The process after two sessions were built on ["model.gguf"], and the
    second of them. *)
Definition toy_world2 : World :=
  Toy.after (nativeInit Toy.env "model.gguf" (Toy.world_with "model.gguf")).

Definition toy_session2 : EmbeddingState :=
  {| model := Some 2%positive; ctx := Some 2%positive;
     n_embd := 2; n_ctx := 4096 |}.

(** The context of the first session on ["model.gguf"] as [nativeInit]
    leaves it, and the batch that [nativeEmbed] builds for the text ["ab"]. *)
Definition toy_context : llama_context (rt := Toy.runtime) :=
  {| ctx_model := 1%positive;
     ctx_params := set_embeddings true init_context_params;
     ctx_n_ctx := 4096; ctx_memory := []; ctx_embd_seq := None |}.

Definition toy_context2 : llama_context (rt := Toy.runtime) :=
  {| ctx_model := 2%positive;
     ctx_params := set_embeddings true init_context_params;
     ctx_n_ctx := 4096; ctx_memory := []; ctx_embd_seq := None |}.

Definition toy_batch_ab : llama_batch :=
  {| n_tokens := 2; token := [97; 98]; pos := [0; 1]; n_seq_id := [1; 1];
     seq_id := [[0]; [0]]; logits := [1; 1] |}.

(** ** The life of a process

    The JVM calls the three entry points in any order; a call that does not
    return ends the process. *)

Section Process.
Context `{rt : Runtime}.

(** The process when the library is loaded: [g_backend_ready] is [false]
    and nothing is allocated. *)
Definition initial_world : World :=
  {| g_backend_ready := false; states := ∅; models := ∅; contexts := ∅;
     live_batches := 0; trace := [] |}.

(** One returning call of an entry point. *)
Inductive api_step : World -> World -> Prop :=
| step_init env model_path w handle w' :
    nativeInit env model_path w = Ok (handle, w') -> api_step w w'
| step_embed env handle text w r w' :
    nativeEmbed env handle text w = Ok (r, w') -> api_step w w'
| step_release handle w w' :
    nativeRelease handle w = Ok (tt, w') -> api_step w w'.

(** Every session object holds a live model and a live context bound to
    that model; no two sessions share a model or a context; every model and
    every context belongs to a session; no decode batch is allocated. *)
Definition heap_consistent (w : World) : Prop :=
  (forall p st, states w !! p = Some st ->
     exists m c cv,
       model st = Some m /\ ctx st = Some c /\
       is_Some (models w !! m) /\
       contexts w !! c = Some cv /\ ctx_model cv = m) /\
  (forall p q st st',
     states w !! p = Some st -> states w !! q = Some st' -> p <> q ->
     model st <> model st' /\ ctx st <> ctx st') /\
  (forall m, is_Some (models w !! m) ->
     exists p st, states w !! p = Some st /\ model st = Some m) /\
  (forall c, is_Some (contexts w !! c) ->
     exists p st, states w !! p = Some st /\ ctx st = Some c) /\
  live_batches w = 0%nat.

(** The flag [g_backend_ready] tells whether [llama_backend_init] was
    called, and it was called at most once. *)
Definition backend_tracked (w : World) : Prop :=
  backend_inits (trace w)
    = if g_backend_ready w then [EvBackendInit] else [].

End Process.

(** ** Tactics to run native code *)

Ltac run_M :=
  unfold mbind, M_mbind, M_bind, mret, M_mret, M_ret.

Ltac unfold_prims :=
  unfold ensure_backend, log_error, new_EmbeddingState,
    llama_model_load_from_file, llama_init_from_model, llama_set_embeddings,
    llama_model_n_embd, llama_n_ctx, llama_model_get_vocab,
    llama_memory_clear, llama_batch_init, llama_batch_free, llama_decode,
    llama_get_embeddings_seq, llama_free, llama_model_free, write_state,
    delete_state, read_state, read_model, read_context, state_of_handle;
  unfold set_states, set_models, set_contexts, set_live_batches,
    set_backend_ready, emit, get, undefined, lift;
  run_M.

Ltac wsimpl :=
  cbn [states models contexts trace live_batches g_backend_ready
       upd_trace upd_states upd_models upd_contexts upd_live_batches
       upd_backend_ready model ctx n_embd n_ctx
       with_ctx with_model with_n_embd with_n_ctx
       ctx_model ctx_params ctx_n_ctx ctx_memory ctx_embd_seq].

Ltac wrun := repeat (first [rewrite lookup_insert_eq | progress wsimpl]).

(** The run from the memory clear on, once the tokens are fixed. *)
Ltac run_from_clear c cv w :=
  destruct (contexts w !! c) as [cv|]; [|reflexivity]; wrun;
  unfold embed_batch;
  cbn [n_tokens with_n_tokens token pos n_seq_id seq_id logits];
  destruct (batch_fill _ _ _ _) as [batch| |]; [|reflexivity|reflexivity];
  wrun; unfold cleared; wrun;
  destruct (models w !! ctx_model cv) as [cmv|]; [|reflexivity];
  unfold embed_run_decode; wrun;
  destruct (rt_decode _ _ _ _) as [[rc mem] out]; wrun;
  destruct (negb (rc =? 0)); [reflexivity|];
  cbn [Z.eqb]; unfold decoded; wrun;
  destruct out as [embd|]; [|reflexivity];
  unfold embed_output;
  destruct (Vec.make _ _) as [output| |]; [|reflexivity|reflexivity];
  cbn [mbind result_bind];
  destruct (copy_embd _ _ _ _) as [output'| |]; [|reflexivity|reflexivity];
  destruct (NewFloatArray _ _); reflexivity.

(** A leaf of [embed_run]: the world is known, the events are read off. *)
Ltac leaf :=
  intros [= <- <-]; eexists; wsimpl; rewrite <- ?app_assoc;
  (split; [reflexivity|]); (split; [reflexivity|]); cbn.

(** * Properties *)

(** ** Conversions and vectors *)

Lemma to_size_t_small z : 0 <= z < 2 ^ 64 -> to_size_t z = z.
Proof. intros Hz. unfold to_size_t. apply Z.mod_small, Hz. Qed.

Lemma to_size_t_negative z :
  - 2 ^ 31 <= z < 0 -> to_size_t z = 2 ^ 64 + z.
Proof.
  intros Hz. unfold to_size_t.
  symmetry. apply (Z.mod_unique_pos z (2 ^ 64) (-1) (2 ^ 64 + z)); lia.
Qed.

Lemma to_int32_small z : - 2 ^ 31 <= z < 2 ^ 31 -> to_int32 z = z.
Proof. intros Hz. unfold to_int32. rewrite Z.mod_small; lia. Qed.

Lemma to_int32_high z : 2 ^ 31 <= z < 2 ^ 32 -> to_int32 z = z - 2 ^ 32.
Proof.
  intros Hz. unfold to_int32.
  rewrite <- (Z.mod_unique_pos (z + 2 ^ 31) (2 ^ 32) 1 (z - 2 ^ 31)); lia.
Qed.

Lemma to_uint32_small z : 0 <= z < 2 ^ 32 -> to_uint32 z = z.
Proof. intros Hz. unfold to_uint32. apply Z.mod_small, Hz. Qed.

Lemma make_Ok {A} (dflt : A) n v :
  Vec.make dflt n = Ok v -> n <= Vec.max_size /\ v = repeat dflt (Z.to_nat n).
Proof.
  unfold Vec.make. destruct (n >? Vec.max_size) eqn:E; [discriminate|].
  intros [= <-]. split; [lia | reflexivity].
Qed.

Lemma resize_Ok {A} (dflt : A) v n v' :
  Vec.resize dflt v n = Ok v' -> n <= Vec.max_size /\ length v' = Z.to_nat n.
Proof.
  unfold Vec.resize. destruct (n >? Vec.max_size) eqn:E; [discriminate|].
  intros [= <-]. split; [lia|].
  rewrite length_app, length_take, repeat_length. lia.
Qed.

Lemma resize_fits {A} (dflt : A) v n :
  n <= Vec.max_size ->
  Vec.resize dflt v n =
    Ok (firstn (Z.to_nat n) v ++ repeat dflt (Z.to_nat n - length v)%nat).
Proof.
  intros Hn. unfold Vec.resize.
  destruct (n >? Vec.max_size) eqn:E; [lia | reflexivity].
Qed.

(** ** The vector post-processor *)

Lemma sum_squares_zeros values :
  forallb F32.is_zero values = true -> sum_squares values = F32.zero.
Proof.
  unfold sum_squares, F32.zero. induction values as [|v rest IH]; cbn.
  - reflexivity.
  - destruct v as [s| | |]; cbn; try discriminate.
    intros Hrest. destruct s; cbn; apply IH, Hrest.
Qed.

Lemma normalize_l2_zeros values :
  forallb F32.is_zero values = true -> normalize_l2 values = values.
Proof.
  intros Hz. unfold normalize_l2. rewrite (sum_squares_zeros _ Hz).
  reflexivity.
Qed.

Lemma forallb_repeat {A} (f : A -> bool) x n :
  f x = true -> forallb f (repeat x n) = true.
Proof. intros Hx. induction n; cbn; [reflexivity | now rewrite Hx]. Qed.

(** C5. [normalize_l2] is the identity when the computed sum of squares is
    [<= 0] and the element-wise product with [1/sqrt(sum)] otherwise; the
    all-zero vector of every length is returned unchanged, and [3,4] becomes
    [0.6f, 0.8f], the binary32 numbers nearest to 6/10 and 8/10. *)
Theorem normalize_l2_contract :
  (forall values,
     normalize_l2 values =
       if F32.leb (sum_squares values) F32.zero then values
       else map (fun v =>
                   F32.mul v (F32.div F32.one (F32.sqrt (sum_squares values))))
              values) /\
  (forall N, normalize_l2 (repeat F32.zero N) = repeat F32.zero N) /\
  normalize_l2 [F32.of_Z 3; F32.of_Z 4] =
    [F32.div (F32.of_Z 6) (F32.of_Z 10); F32.div (F32.of_Z 8) (F32.of_Z 10)] /\
  F32.div (F32.of_Z 6) (F32.of_Z 10) = S754_finite false 10066330 (-24) /\
  F32.div (F32.of_Z 8) (F32.of_Z 10) = S754_finite false 13421773 (-24).
Proof.
  split; [reflexivity|]. split.
  - intros N. apply normalize_l2_zeros, forallb_repeat. reflexivity.
  - repeat split; vm_compute; reflexivity.
Qed.

(** ** The tokenizer adapter *)

Section TokenizerProperties.
Context `{rt : Runtime}.

Lemma tokenize_empty vocab max_tokens : tokenize vocab "" max_tokens = Ok [].
Proof. reflexivity. Qed.

Lemma int32_neg_Ok count c :
  int32_neg count = Ok c -> c = - count /\ INT32_MIN <= c <= INT32_MAX.
Proof.
  unfold int32_neg, in_int32.
  destruct (_ && _) eqn:E; [|discriminate].
  intros [= <-]. apply andb_true_iff in E as [E1 E2]. lia.
Qed.

(** What [tokenize] returns on a text that does not fit. *)
Lemma tokenize_overflow vocab text max_tokens count buf :
  text <> "" ->
  0 <= max_tokens <= INT32_MAX ->
  llama_tokenize vocab text (to_int32 (Z.of_nat (String.length text)))
    (repeat 0 (Z.to_nat max_tokens)) max_tokens true false = (count, buf) ->
  INT32_MIN < count < 0 ->
  let n := Z.to_nat (Z.min (- count) max_tokens) in
  tokenize vocab text max_tokens =
    Ok (firstn n buf ++ repeat 0 (n - length buf)%nat).
Proof.
  intros Htext Hmax Hcall Hcount n. unfold tokenize.
  apply String.eqb_neq in Htext. rewrite Htext.
  unfold INT32_MAX, INT32_MIN in *.
  rewrite to_size_t_small by lia.
  unfold Vec.make. destruct (max_tokens >? Vec.max_size) eqn:E.
  { unfold Vec.max_size in E. lia. }
  cbn.
  match goal with
  | |- context [llama_tokenize ?a ?b ?c ?d ?e ?f ?g] =>
      replace (llama_tokenize a b c d e f g) with (count, buf)
        by (symmetry; exact Hcall)
  end.
  destruct (count <? 0) eqn:Eneg; [|lia].
  unfold int32_neg, in_int32, INT32_MIN, INT32_MAX.
  destruct ((- 2 ^ 31 <=? - count) && (- count <=? 2 ^ 31 - 1)) eqn:Er.
  2:{ apply andb_false_iff in Er as [Er|Er]; lia. }
  cbn.
  assert (Hclamp : (if - count >? max_tokens then max_tokens else - count)
                   = Z.min (- count) max_tokens).
  { destruct (- count >? max_tokens) eqn:Ec; lia. }
  rewrite Hclamp, to_size_t_small by lia.
  apply resize_fits. unfold Vec.max_size. lia.
Qed.

(** The length of what [tokenize] returns, when the tokenizer keeps to its
    bound. *)
Lemma tokenize_length vocab text max_tokens toks :
  tokenizer_bounded ->
  0 <= max_tokens ->
  tokenize vocab text max_tokens = Ok toks ->
  Vec.size toks <= max_tokens.
Proof.
  intros Hb Hmax. unfold tokenize, Vec.size.
  destruct (String.eqb text "").
  { intros [= <-]. cbn. lia. }
  destruct (Vec.make _ _) as [tokens| |]; cbn;
    try discriminate.
  specialize (Hb vocab text (to_int32 (Z.of_nat (String.length text))) tokens
                max_tokens true false Hmax).
  destruct (llama_tokenize _ _ _ _ _ _ _) as [count buf]. cbn in Hb.
  destruct (count <? 0) eqn:Eneg.
  - destruct (int32_neg count) as [c| |] eqn:En; cbn; try discriminate.
    apply int32_neg_Ok in En as [-> Hr]. unfold INT32_MIN, INT32_MAX in Hr.
    intros Hres. apply resize_Ok in Hres as [_ ->].
    destruct (- count >? max_tokens) eqn:Ec.
    + rewrite to_size_t_small by lia. lia.
    + rewrite to_size_t_small by lia. lia.
  - cbn. intros Hres. apply resize_Ok in Hres as [_ ->].
    assert (0 <= count) by lia.
    pose proof (Z.mod_le count (2 ^ 64) ltac:(lia) ltac:(lia)).
    pose proof (Z.mod_pos_bound count (2 ^ 64) ltac:(lia)).
    unfold to_size_t. lia.
Qed.

(** [tokenize] returns, when the budget is a non-negative [int32_t] and the
    tokenizer's count is within the budget and not [INT32_MIN]. *)
Lemma tokenize_returns vocab text max_tokens :
  0 <= max_tokens <= INT32_MAX ->
  (let count :=
     fst (llama_tokenize vocab text
            (to_int32 (Z.of_nat (String.length text)))
            (repeat 0 (Z.to_nat max_tokens)) max_tokens true false) in
   INT32_MIN < count <= max_tokens) ->
  exists toks, tokenize vocab text max_tokens = Ok toks.
Proof.
  intros Hmax Hcount. unfold tokenize.
  destruct (String.eqb text ""); [eauto|].
  unfold INT32_MAX, INT32_MIN in *.
  rewrite to_size_t_small by lia.
  unfold Vec.make. destruct (max_tokens >? Vec.max_size) eqn:E.
  { unfold Vec.max_size in E. lia. }
  cbn. destruct (llama_tokenize _ _ _ _ _ _ _) as [count buf].
  cbn in Hcount.
  destruct (count <? 0) eqn:Eneg.
  - unfold int32_neg, in_int32, INT32_MIN, INT32_MAX.
    destruct ((- 2 ^ 31 <=? - count) && (- count <=? 2 ^ 31 - 1)) eqn:Er.
    2:{ apply andb_false_iff in Er as [Er|Er]; lia. }
    cbn. rewrite resize_fits; [eauto|].
    destruct (- count >? max_tokens);
      rewrite to_size_t_small; unfold Vec.max_size; lia.
  - cbn. rewrite resize_fits; [eauto|].
    rewrite to_size_t_small; unfold Vec.max_size; lia.
Qed.

End TokenizerProperties.

Lemma toy_tokenizer_bounded : tokenizer_bounded (rt := Toy.runtime).
Proof.
  intros vocab text len buf n_max a p Hn. cbn. unfold Toy.tokenize_fn.
  destruct (n_max <? _) eqn:E; cbn; lia.
Qed.

(** C4. [tokenize] on the empty text returns the empty sequence; on a
    negative count it returns the buffer resized to the negated count clamped
    to [max_tokens]; and the returned sequence is never longer than
    [max_tokens]. *)
Theorem tokenize_contract `{rt : Runtime} :
  (forall vocab max_tokens, tokenize vocab "" max_tokens = Ok []) /\
  (forall vocab text max_tokens count buf,
     text <> "" ->
     0 <= max_tokens <= INT32_MAX ->
     llama_tokenize vocab text (to_int32 (Z.of_nat (String.length text)))
       (repeat 0 (Z.to_nat max_tokens)) max_tokens true false = (count, buf) ->
     INT32_MIN < count < 0 ->
     exists toks,
       tokenize vocab text max_tokens = Ok toks /\
       Vec.resize 0 buf (Z.min (- count) max_tokens) = Ok toks /\
       Vec.size toks = Z.min (- count) max_tokens) /\
  (forall vocab text max_tokens toks,
     tokenizer_bounded ->
     0 <= max_tokens ->
     tokenize vocab text max_tokens = Ok toks ->
     Vec.size toks <= max_tokens) /\
  (forall vocab text max_tokens,
     0 <= max_tokens <= INT32_MAX ->
     (let count :=
        fst (llama_tokenize vocab text
               (to_int32 (Z.of_nat (String.length text)))
               (repeat 0 (Z.to_nat max_tokens)) max_tokens true false) in
      INT32_MIN < count <= max_tokens) ->
     exists toks, tokenize vocab text max_tokens = Ok toks).
Proof.
  split; [apply tokenize_empty|]. split; [|split].
  - intros vocab text max_tokens count buf Htext Hmax Hcall Hcount.
    pose proof (tokenize_overflow _ _ _ _ _ Htext Hmax Hcall Hcount) as Htok.
    cbn zeta in Htok. eexists. split; [exact Htok|].
    unfold INT32_MAX, INT32_MIN in *.
    assert (Hfit : Z.min (- count) max_tokens <= Vec.max_size)
      by (unfold Vec.max_size; lia).
    split; [apply resize_fits, Hfit|].
    unfold Vec.size.
    rewrite length_app, length_take, repeat_length. lia.
  - apply @tokenize_length.
  - apply @tokenize_returns.
Qed.

Lemma tokenize_contract_witness :
  tokenize (H := Toy.runtime) tt "abc" 2 = Ok [0; 0] /\
  Vec.size [0; 0] <= 2.
Proof.
  split; [reflexivity|].
  apply (proj1 (proj2 (proj2 (tokenize_contract (rt := Toy.runtime))))
           tt "abc" 2 [0; 0] toy_tokenizer_bounded).
  - lia.
  - reflexivity.
Defined.

(** C10. The sequence that [tokenize] returns for the budget
    [static_cast<int32_t>(n_ctx)] is at most [n_ctx] long, so the test that
    guards the truncation in [nativeEmbed] is false and the guarded step
    leaves the sequence as it is. *)
Theorem truncation_branch_dead `{rt : Runtime} vocab text n_ctx toks :
  tokenizer_bounded ->
  0 <= n_ctx < 2 ^ 32 ->
  tokenize vocab text (to_int32 n_ctx) = Ok toks ->
  Vec.size toks <= n_ctx /\
  exceeds_context toks n_ctx = false /\
  (if exceeds_context toks n_ctx
   then Vec.resize (0 : llama_token) toks n_ctx
   else Ok toks) = Ok toks.
Proof.
  intros Hb Hn Htok.
  assert (Hlen : Vec.size toks <= n_ctx).
  { destruct (Z.lt_ge_cases n_ctx (2 ^ 31)) as [Hlo|Hhi].
    - rewrite to_int32_small in Htok by lia.
      apply (tokenize_length _ _ _ _ Hb) in Htok; lia.
    - unfold tokenize in Htok.
      destruct (String.eqb text "").
      { injection Htok as <-. unfold Vec.size. cbn. lia. }
      rewrite (to_int32_high n_ctx), (to_size_t_negative (n_ctx - 2 ^ 32))
        in Htok by lia.
      unfold Vec.make in Htok.
      destruct (_ >? Vec.max_size) eqn:E; [discriminate|].
      unfold Vec.max_size in E. lia. }
  split; [exact Hlen|].
  assert (Hdead : exceeds_context toks n_ctx = false).
  { unfold exceeds_context. unfold Vec.size in *.
    rewrite to_uint32_small by lia. lia. }
  split; [exact Hdead|]. now rewrite Hdead.
Qed.

Lemma truncation_branch_dead_witness :
  tokenize (H := Toy.runtime) tt "abcdef" (to_int32 4) = Ok [0; 0; 0; 0] /\
  Vec.size [0; 0; 0; 0] <= 4 /\
  exceeds_context [0; 0; 0; 0] 4 = false /\
  (if exceeds_context [0; 0; 0; 0] 4
   then Vec.resize (0 : llama_token) [0; 0; 0; 0] 4
   else Ok [0; 0; 0; 0]) = Ok [0; 0; 0; 0].
Proof.
  split; [reflexivity|].
  apply (truncation_branch_dead (rt := Toy.runtime) tt "abcdef" 4
           [0; 0; 0; 0] toy_tokenizer_bounded).
  - lia.
  - reflexivity.
Defined.

(** ** Destruction of a session *)

Section ReleaseProperties.
Context `{rt : Runtime}.

Lemma release_null w : nativeRelease 0 w = Ok (tt, w).
Proof. reflexivity. Qed.

Lemma release_live w p st :
  live_session w p st ->
  exists w',
    nativeRelease (Z.pos p) w = Ok (tt, w') /\
    trace w' = trace w ++ release_events p st /\
    states w' = delete p (states w) /\
    contexts w' = match ctx st with
                  | Some c => delete c (contexts w)
                  | None => contexts w
                  end /\
    models w' = match model st with
                | Some m => delete m (models w)
                | None => models w
                end /\
    live_batches w' = live_batches w /\
    g_backend_ready w' = g_backend_ready w.
Proof.
  intros (Hst & Hm & Hc).
  unfold nativeRelease, release_events. cbn [Z.eqb]. unfold_prims.
  rewrite Hst. destruct st as [m c ne nc]. wsimpl.
  destruct c as [c|]; [destruct (Hc c eq_refl) as (cv & Hcv & _)|];
    (destruct m as [m|]; [destruct (Hm m eq_refl) as (mv & Hmv)|]);
    rewrite ?Hcv; wrun; rewrite ?Hst; wrun; rewrite ?Hmv; wrun;
    rewrite ?Hst; wrun;
    (eexists; split; [reflexivity|]); wsimpl;
    rewrite ?delete_insert_eq, <- ?app_assoc; auto 10.
Qed.

End ReleaseProperties.

(** C9. [nativeRelease] on the null handle returns at once and leaves the
    world as it was; on the handle of a live session it frees the context if
    there is one, then the model if there is one, then the session object,
    in this order. *)
Theorem release_contract `{rt : Runtime} :
  (forall w, nativeRelease 0 w = Ok (tt, w)) /\
  (forall w p st,
     live_session w p st ->
     exists w',
       nativeRelease (Z.pos p) w = Ok (tt, w') /\
       trace w' =
         trace w ++
         match ctx st with Some c => [EvContextFree c] | None => [] end ++
         match model st with Some m => [EvModelFree m] | None => [] end ++
         [EvDelete p] /\
       states w' = delete p (states w) /\
       contexts w' = match ctx st with
                     | Some c => delete c (contexts w)
                     | None => contexts w
                     end /\
       models w' = match model st with
                   | Some m => delete m (models w)
                   | None => models w
                   end).
Proof.
  split; [apply release_null|].
  intros w p st Hlive.
  destruct (release_live w p st Hlive) as (w' & Hrun & Htr & Hs & Hc & Hm & _).
  exists w'. auto.
Qed.

(** ** Construction of a session *)

Section InitProperties.
Context `{rt : Runtime}.

Lemma fresh_state_free (w : World) : states w !! fresh (dom (states w)) = None.
Proof. apply not_elem_of_dom, is_fresh. Qed.

Lemma fresh_model_free (w : World) : models w !! fresh (dom (models w)) = None.
Proof. apply not_elem_of_dom, is_fresh. Qed.

Lemma fresh_context_free (w : World) :
  contexts w !! fresh (dom (contexts w)) = None.
Proof. apply not_elem_of_dom, is_fresh. Qed.

(** The path cannot be read: nothing is allocated. *)
Lemma init_null_path env model_path w :
  GetStringUTFChars env model_path = None ->
  exists w',
    nativeInit env model_path w = Ok (0, w') /\
    trace w' = trace w ++ backend_events w ++ [EvLog "Model path is null"] /\
    states w' = states w /\ models w' = models w /\
    contexts w' = contexts w /\ live_batches w' = live_batches w.
Proof.
  intros Hp. unfold nativeInit, backend_events. rewrite Hp. unfold_prims.
  destruct (g_backend_ready w) eqn:E; wsimpl;
    (eexists; split; [reflexivity|]); wsimpl; rewrite <- ?app_assoc; auto.
Qed.

(** The model cannot be loaded: the session object is deleted again. *)
Lemma init_load_fails env model_path path w :
  GetStringUTFChars env model_path = Some path ->
  rt_model_load path init_model_params = None ->
  exists w' p,
    nativeInit env model_path w = Ok (0, w') /\
    trace w' = trace w ++ backend_events w ++
               [EvNew p; EvModelLoad path None;
                EvLog "Failed to load model"; EvDelete p] /\
    states w' = states w /\ models w' = models w /\
    contexts w' = contexts w /\ live_batches w' = live_batches w.
Proof.
  intros Hp Hl. unfold nativeInit, backend_events. rewrite Hp. unfold_prims.
  rewrite Hl.
  destruct (g_backend_ready w) eqn:E; wrun;
    (do 2 eexists; split; [reflexivity|]); wsimpl;
    rewrite ?delete_insert_eq, <- ?app_assoc,
      (delete_id _ _ (fresh_state_free w));
    cbn [app]; auto 10.
Qed.

(** The context cannot be built: the model is freed and the session object
    is deleted. *)
Lemma init_context_fails env model_path path mv w :
  GetStringUTFChars env model_path = Some path ->
  rt_model_load path init_model_params = Some mv ->
  rt_context_create mv init_context_params = None ->
  exists w' p m,
    nativeInit env model_path w = Ok (0, w') /\
    trace w' = trace w ++ backend_events w ++
               [EvNew p; EvModelLoad path (Some m); EvContextInit m None;
                EvLog "Failed to init context"; EvModelFree m; EvDelete p] /\
    states w' = states w /\ models w' = models w /\
    contexts w' = contexts w /\ live_batches w' = live_batches w.
Proof.
  intros Hp Hl Hc. unfold nativeInit, backend_events. rewrite Hp. unfold_prims.
  rewrite Hl.
  destruct (g_backend_ready w) eqn:E; wrun; rewrite Hc; wrun;
    (do 3 eexists; split; [reflexivity|]); wsimpl;
    rewrite ?delete_insert_eq, <- ?app_assoc,
      (delete_id _ _ (fresh_state_free w)),
      (delete_id _ _ (fresh_model_free w));
    cbn [app]; auto 10.
Qed.

(** Model and context are there: the handle is the address of a session
    that holds both. *)
Lemma init_succeeds env model_path path mv realised mem w :
  GetStringUTFChars env model_path = Some path ->
  rt_model_load path init_model_params = Some mv ->
  rt_context_create mv init_context_params = Some (realised, mem) ->
  exists w' p m c,
    let st := {| model := Some m; ctx := Some c;
                 n_embd := rt_model_n_embd mv; n_ctx := realised |} in
    let cv := {| ctx_model := m;
                 ctx_params := set_embeddings true init_context_params;
                 ctx_n_ctx := realised; ctx_memory := mem;
                 ctx_embd_seq := None |} in
    nativeInit env model_path w = Ok (Z.pos p, w') /\
    trace w' = trace w ++ backend_events w ++
               [EvNew p; EvModelLoad path (Some m);
                EvContextInit m (Some c)] /\
    states w !! p = None /\ models w !! m = None /\ contexts w !! c = None /\
    states w' = <[p := st]> (states w) /\
    models w' = <[m := mv]> (models w) /\
    contexts w' = <[c := cv]> (contexts w) /\
    live_batches w' = live_batches w.
Proof.
  intros Hp Hl Hc. unfold nativeInit, backend_events. rewrite Hp. unfold_prims.
  rewrite Hl.
  destruct (g_backend_ready w) eqn:E; wrun; rewrite Hc; wrun;
    (do 4 eexists; split; [reflexivity|]); wsimpl;
    rewrite ?insert_insert_eq, <- ?app_assoc; cbn [app];
    pose proof (fresh_state_free w); pose proof (fresh_model_free w);
    pose proof (fresh_context_free w); auto 10.
Qed.

End InitProperties.

(** C6. [nativeInit] always returns. It returns either the handle of a new
    session whose model and context are both live, or 0 with the sessions,
    models and contexts of the process as they were before the call. When
    the model loads and the context cannot be built, the model is freed and
    the session object deleted before the return of 0. *)
Theorem init_atomic `{rt : Runtime} env model_path w :
  exists handle w',
    nativeInit env model_path w = Ok (handle, w') /\
    ((handle = 0 /\ states w' = states w /\ models w' = models w /\
      contexts w' = contexts w /\ live_batches w' = live_batches w) \/
     (exists p st m c,
        handle = Z.pos p /\ states w !! p = None /\
        states w' = <[p := st]> (states w) /\
        model st = Some m /\ ctx st = Some c /\ live_session w' p st)) /\
    (forall path mv,
       GetStringUTFChars env model_path = Some path ->
       rt_model_load path init_model_params = Some mv ->
       rt_context_create mv init_context_params = None ->
       handle = 0 /\
       exists p m,
         trace w' = trace w ++ backend_events w ++
                    [EvNew p; EvModelLoad path (Some m); EvContextInit m None;
                     EvLog "Failed to init context"; EvModelFree m;
                     EvDelete p]).
Proof.
  destruct (GetStringUTFChars env model_path) as [path|] eqn:Hp.
  2:{ destruct (init_null_path env model_path w Hp)
        as (w' & Hrun & _ & Hs & Hm & Hc & Hb).
      exists 0, w'. split; [exact Hrun|]. split; [left; auto|].
      intros ? ? [=]. }
  destruct (rt_model_load path init_model_params) as [mv|] eqn:Hl.
  2:{ destruct (init_load_fails env model_path path w Hp Hl)
        as (w' & p & Hrun & _ & Hs & Hm & Hc & Hb).
      exists 0, w'. split; [exact Hrun|]. split; [left; auto|].
      intros ? ? [= <-]. congruence. }
  destruct (rt_context_create mv init_context_params) as [[realised mem]|]
    eqn:Hc.
  - destruct (init_succeeds env model_path path mv realised mem w Hp Hl Hc)
      as (w' & p & m & c & Hrun & _ & Hfp & Hfm & Hfc & Hs & Hm & Hcs & Hb).
    exists (Z.pos p), w'. split; [exact Hrun|]. split.
    + right. eexists p, _, m, c.
      split; [reflexivity|]. split; [exact Hfp|]. split; [exact Hs|].
      split; [reflexivity|]. split; [reflexivity|].
      unfold live_session. rewrite Hs, Hm, Hcs. cbn [model ctx].
      split; [apply lookup_insert_eq|]. split.
      * intros ? [= <-]. rewrite lookup_insert_eq. eauto.
      * intros ? [= <-]. eexists. split; [apply lookup_insert_eq|].
        cbn [ctx_model]. rewrite lookup_insert_eq. eauto.
    + intros ? ? [= <-]. rewrite Hl. intros [= <-]. congruence.
  - destruct (init_context_fails env model_path path mv w Hp Hl Hc)
      as (w' & p & m & Hrun & Htr & Hs & Hm & Hcs & Hb).
    exists 0, w'. split; [exact Hrun|]. split; [left; auto|].
    intros ? ? [= <-] _ _. split; [reflexivity|]. eauto.
Qed.

(** ** Inference on a session *)

Section EmbedProperties.
Context `{rt : Runtime}.

(** [nativeEmbed] and its direct-style reading agree on every input. *)
Lemma nativeEmbed_run env handle text w :
  nativeEmbed env handle text w = embed_run env handle text w.
Proof.
  unfold nativeEmbed, embed_run.
  destruct handle as [|p|q]; cbn [Z.eqb]; unfold_prims.
  1,3: reflexivity.
  unfold embed_run_session.
  destruct (states w !! (p : ptr)) as [st|]; [|reflexivity].
  destruct (ctx st) as [c|]; [|reflexivity].
  destruct (model st) as [m|]; [|reflexivity].
  destruct (GetStringUTFChars env text) as [text_str|]; [|reflexivity].
  destruct (models w !! m) as [mv|]; [|reflexivity].
  destruct (tokenize _ _ _) as [tokens0| |]; [|reflexivity|reflexivity].
  destruct (bool_decide (tokens0 = [])); [reflexivity|].
  unfold embed_run_tokens.
  destruct (exceeds_context tokens0 (n_ctx st)).
  - destruct (Vec.resize _ _ _) as [tokens| |]; [|reflexivity|reflexivity].
    run_from_clear c cv w.
  - run_from_clear c cv w.
Qed.

Lemma early_exit_log w message : early_exit w (upd_trace (EvLog message) w).
Proof. unfold early_exit. wsimpl. eauto 10. Qed.

Lemma embed_null_handle env text w :
  exists w', nativeEmbed env 0 text w = Ok (None, w') /\ early_exit w w'.
Proof.
  rewrite nativeEmbed_run. eexists. split; [reflexivity|].
  apply early_exit_log.
Qed.

(** No tokens: a null result, before the context is touched. *)
Lemma embed_no_tokens env p st text text_str w :
  live_session w p st ->
  GetStringUTFChars env text = Some text_str ->
  (forall m mv,
     model st = Some m -> models w !! m = Some mv ->
     tokenize (rt_model_get_vocab mv) text_str (to_int32 (n_ctx st)) = Ok []) ->
  exists w', nativeEmbed env (Z.pos p) text w = Ok (None, w') /\
             early_exit w w'.
Proof.
  intros (Hst & Hm & _) Htext Htok.
  rewrite nativeEmbed_run. unfold embed_run, embed_run_session.
  rewrite Hst, Htext.
  destruct (ctx st) as [c|].
  2:{ eexists. split; [reflexivity|]. apply early_exit_log. }
  destruct (model st) as [m|] eqn:Em.
  2:{ eexists. split; [reflexivity|]. apply early_exit_log. }
  destruct (Hm m eq_refl) as (mv & Hmv). rewrite Hmv.
  rewrite (Htok m mv eq_refl Hmv). cbn.
  eexists. split; [reflexivity|]. apply early_exit_log.
Qed.

End EmbedProperties.

(** C3. A text that yields no token, the empty string in particular, gives a
    null result: [nativeEmbed] returns before the context is cleared, a batch
    built or a vector made. *)
Theorem embed_zero_tokens_null `{rt : Runtime} env handle text text_str w :
  GetStringUTFChars env text = Some text_str ->
  handle = 0 \/ (exists p st, handle = Z.pos p /\ live_session w p st) ->
  text_str = "" \/
    (forall p st m mv,
       handle = Z.pos p -> states w !! p = Some st ->
       model st = Some m -> models w !! m = Some mv ->
       tokenize (rt_model_get_vocab mv) text_str (to_int32 (n_ctx st))
         = Ok []) ->
  exists w',
    nativeEmbed env handle text w = Ok (None, w') /\
    contexts w' = contexts w /\ live_batches w' = live_batches w /\
    exists message, trace w' = trace w ++ [EvLog message].
Proof.
  intros Htext Hhandle Hzero.
  assert (Hexit : exists w', nativeEmbed env handle text w = Ok (None, w') /\
                             early_exit w w').
  { destruct Hhandle as [->|(p & st & -> & Hlive)];
      [apply embed_null_handle|].
    apply (embed_no_tokens env p st text text_str w Hlive Htext).
    intros m mv Hm Hmv. destruct Hzero as [->|Hzero].
    - apply tokenize_empty.
    - apply (Hzero p st m mv eq_refl (proj1 Hlive) Hm Hmv). }
  destruct Hexit as (w' & Hrun & Hlog & _ & _ & Hc & Hb). eauto 10.
Qed.

(** ** The sequence batch builder *)

Section BatchBuilder.

Lemma store_next {A} (pre : list A) (d x : A) n i :
  length pre = i ->
  store (pre ++ repeat d (S n)) (Z.of_nat i) x = Ok ((pre ++ [x]) ++ repeat d n).
Proof.
  intros Hi. unfold store.
  rewrite length_app, repeat_length.
  destruct (_ && _) eqn:E.
  2:{ apply andb_false_iff in E as [E%Z.leb_gt|E%Z.ltb_ge]; lia. }
  f_equal. rewrite Nat2Z.id.
  rewrite insert_app_r_alt by lia.
  replace (i - length pre)%nat with 0%nat by lia.
  cbn. now rewrite <- app_assoc.
Qed.

Lemma load_next {A} (pre : list A) (d : A) n i :
  length pre = i ->
  load (pre ++ repeat d (S n)) (Z.of_nat i) = Ok d.
Proof.
  intros Hi. unfold load.
  rewrite length_app, repeat_length.
  destruct (_ && _) eqn:E.
  2:{ apply andb_false_iff in E as [E%Z.leb_gt|E%Z.ltb_ge]; lia. }
  rewrite Nat2Z.id, lookup_app_r by lia.
  replace (i - length pre)%nat with 0%nat by lia. reflexivity.
Qed.

Lemma batch_fill_filled tokens k : forall i,
  (i + k = length tokens)%nat ->
  Z.of_nat (length tokens) < 2 ^ 64 ->
  batch_fill k (Z.of_nat i) tokens (filled tokens i k)
    = Ok (filled tokens (length tokens) 0).
Proof.
  induction k as [|k IH]; intros i Hik Hlen; cbn [batch_fill].
  - replace i with (length tokens) by lia. reflexivity.
  - unfold batch_set.
    assert (Ht : exists t, tokens !! i = Some t)
      by (apply lookup_lt_is_Some; lia).
    destruct Ht as [t Ht].
    assert (Hload : load tokens (to_size_t (Z.of_nat i)) = Ok t).
    { rewrite to_size_t_small by lia. unfold load.
      destruct (_ && _) eqn:E.
      2:{ apply andb_false_iff in E as [E%Z.leb_gt|E%Z.ltb_ge]; lia. }
      now rewrite Nat2Z.id, Ht. }
    rewrite Hload. cbn [mbind result_bind filled token pos n_seq_id seq_id logits n_tokens].
    rewrite !store_next by (rewrite ?length_take, ?length_fmap, ?length_seq, ?repeat_length; lia).
    cbn [mbind result_bind].
    rewrite load_next by (rewrite repeat_length; lia).
    cbn [mbind result_bind]. 
    change (store [0] 0 0) with (Ok [0] : result (list Z)).
    cbn [mbind result_bind].
    rewrite !store_next by (rewrite ?length_take, ?length_fmap, ?length_seq, ?repeat_length; lia).
    cbn [mbind result_bind].
    replace (Z.of_nat i + 1) with (Z.of_nat (S i)) by lia.
    rewrite <- (IH (S i)) by lia. f_equal.
    unfold filled. f_equal.
    + f_equal. symmetry. apply take_S_r, Ht.
    + f_equal. rewrite seq_S, fmap_app. reflexivity.
    + f_equal. rewrite <- repeat_cons. reflexivity.
    + f_equal. rewrite <- repeat_cons. reflexivity.
    + f_equal. rewrite <- repeat_cons. reflexivity.
Qed.

(** The batch that [nativeEmbed] builds from a sequence of fewer than
    [2^31] tokens: the tokens at the positions [0 .. L-1], one sequence id,
    [0], per token, and every output flag set. No access of the loop leaves
    the arrays. *)
Lemma embed_batch_built tokens :
  Vec.size tokens < 2 ^ 31 ->
  embed_batch tokens =
    Ok {| n_tokens := Vec.size tokens;
          token := tokens;
          pos := Z.of_nat <$> seq 0 (length tokens);
          n_seq_id := repeat 1 (length tokens);
          seq_id := repeat [0] (length tokens);
          logits := repeat 1 (length tokens) |}.
Proof.
  unfold Vec.size. intros Hlen. unfold embed_batch, Vec.size.
  rewrite to_int32_small by lia. rewrite Nat2Z.id.
  pose proof (batch_fill_filled tokens (length tokens) 0%nat eq_refl
                ltac:(lia)) as Hfill.
  transitivity (Ok (filled tokens (length tokens) 0)); [exact Hfill|].
  unfold filled. cbn [repeat].
  rewrite firstn_all, !app_nil_r. reflexivity.
Qed.

End BatchBuilder.

(** ** The decode batch *)

Section BatchProperties.
Context `{rt : Runtime}.

Lemma embed_run_batch env handle text w r w' :
  embed_run env handle text w = Ok (r, w') ->
  exists evs,
    trace w' = trace w ++ evs /\
    live_batches w' = live_batches w /\
    (batch_events evs = [] \/
     exists n c rc,
       batch_events evs = [EvBatchInit n; EvDecode c rc; EvBatchFree] /\
       (rc <> 0 ->
        r = None /\
        exists before,
          evs = before ++ [EvDecode c rc; EvBatchFree;
                           EvLog "llama_decode failed"])).
Proof.
  unfold embed_run, embed_run_session, embed_run_tokens, embed_run_decode.
  destruct handle as [|p|q]; [leaf; auto| |discriminate].
  destruct (states w !! (p : ptr)) as [st|]; [|discriminate].
  destruct (ctx st) as [c|]; [|leaf; auto].
  destruct (model st) as [m|]; [|leaf; auto].
  destruct (GetStringUTFChars env text) as [text_str|]; [|leaf; auto].
  destruct (models w !! m) as [mv|]; [|discriminate].
  destruct (tokenize _ _ _) as [tokens0| |]; [|discriminate|discriminate].
  destruct (bool_decide (tokens0 = [])); [leaf; auto|].
  destruct (if exceeds_context tokens0 (n_ctx st) then _ else _)
    as [tokens| |]; [|discriminate|discriminate].
  destruct (contexts w !! c) as [cv|]; [|discriminate].
  destruct (embed_batch tokens) as [batch| |]; [|discriminate|discriminate].
  destruct (models w !! ctx_model cv) as [cmv|]; [|discriminate].
  destruct (rt_decode _ _ _ _) as [[rc mem] out].
  destruct (rc =? 0) eqn:Erc; cbn [negb].
  2:{ leaf. right. do 3 eexists. split; [reflexivity|].
      intros _. split; [reflexivity|].
      eexists [_; _]. reflexivity. }
  apply Z.eqb_eq in Erc. subst rc.
  destruct out as [embd|];
    [|leaf; right; do 3 eexists; (split; [reflexivity|]); congruence].
  destruct (embed_output _ _) as [output| |]; [|discriminate|discriminate].
  destruct (NewFloatArray _ _); leaf; right; do 3 eexists;
    (split; [reflexivity|]); congruence.
Qed.

End BatchProperties.

(** C7. In every run of [nativeEmbed] that returns, either no batch is
    built, or the batch is built once, decoded once and freed once, in this
    order, and no batch is left allocated; when the decode returns a
    non-zero code the batch is freed, the failure is logged and the result is
    null. *)
Theorem embed_batch_released `{rt : Runtime} env handle text w r w' :
  nativeEmbed env handle text w = Ok (r, w') ->
  exists evs,
    trace w' = trace w ++ evs /\
    live_batches w' = live_batches w /\
    (batch_events evs = [] \/
     exists n c rc,
       batch_events evs = [EvBatchInit n; EvDecode c rc; EvBatchFree] /\
       (rc <> 0 ->
        r = None /\
        exists before,
          evs = before ++ [EvDecode c rc; EvBatchFree;
                           EvLog "llama_decode failed"])).
Proof. rewrite nativeEmbed_run. apply embed_run_batch. Qed.

(** ** The returned vector *)

Section OutputProperties.

Lemma load_Ok {A} (a : list A) i x :
  load a i = Ok x -> 0 <= i /\ a !! Z.to_nat i = Some x.
Proof.
  unfold load. destruct (_ && _) eqn:E; [|discriminate].
  apply andb_true_iff in E as [E1 E2].
  destruct (a !! Z.to_nat i); [|discriminate].
  intros [= <-]. split; [lia | reflexivity].
Qed.

Lemma store_Ok {A} (a : list A) i x a' :
  store a i x = Ok a' ->
  0 <= i /\ (Z.to_nat i < length a)%nat /\ a' = <[Z.to_nat i := x]> a.
Proof.
  unfold store. destruct (_ && _) eqn:E; [|discriminate].
  apply andb_true_iff in E as [E1 E2].
  intros [= <-]. repeat split; lia.
Qed.

(** The copy loop writes [embd[j]] to [output[j]] for the indices it visits
    and nothing else; it reads and writes inside both arrays. *)
Lemma copy_embd_lookup embd k : forall i output output',
  0 <= i -> i + Z.of_nat k <= 2 ^ 64 ->
  copy_embd k i embd output = Ok output' ->
  length output' = length output /\
  forall j : nat,
    ((Z.to_nat i <= j < Z.to_nat i + k)%nat ->
       (j < length embd)%nat /\ (j < length output)%nat /\
       output' !! j = embd !! j) /\
    (~ (Z.to_nat i <= j < Z.to_nat i + k)%nat -> output' !! j = output !! j).
Proof.
  induction k as [|k IH]; intros i output output' Hi Hk; cbn [copy_embd].
  - intros [= <-]. split; [reflexivity|]. intros j. split; [lia | reflexivity].
  - destruct (load embd i) as [x| |] eqn:El; cbn; try discriminate.
    apply load_Ok in El as [_ Hx].
    destruct (store output (to_size_t i) x) as [output1| |] eqn:Es; cbn;
      try discriminate.
    rewrite to_size_t_small in Es by lia.
    apply store_Ok in Es as (_ & Hlt & ->).
    intros Hrun. apply IH in Hrun as [Hlen Hj]; [|lia|lia].
    rewrite length_insert in Hlen. split; [exact Hlen|].
    intros j. destruct (Hj j) as [Hin Hout].
    replace (Z.to_nat (i + 1)) with (S (Z.to_nat i)) in * by lia.
    split.
    + intros Hr. destruct (decide (j = Z.to_nat i)) as [->|Hne].
      * split; [apply (lookup_lt_Some _ _ _ Hx)|]. split; [exact Hlt|].
        rewrite Hout by lia. rewrite list_lookup_insert_eq by exact Hlt.
        now rewrite Hx.
      * destruct Hin as (H1 & H2 & H3); [lia|].
        rewrite length_insert in H2. auto.
    + intros Hr. rewrite Hout by lia.
      apply list_lookup_insert_ne. lia.
Qed.

Lemma normalize_l2_length values :
  length (normalize_l2 values) = length values.
Proof.
  unfold normalize_l2. destruct (F32.leb _ _); [reflexivity|].
  apply length_map.
Qed.

(** What [nativeEmbed] makes of the pooled buffer [embd], for a width that
    is an [int32_t]. *)
Lemma embed_output_Ok n embd arr :
  INT32_MIN <= n <= INT32_MAX ->
  embed_output n embd = Ok arr ->
  0 <= n /\ (Z.to_nat n <= length embd)%nat /\
  arr = normalize_l2 (firstn (Z.to_nat n) embd).
Proof.
  unfold INT32_MIN, INT32_MAX, embed_output. intros Hn.
  destruct (Vec.make F32.zero (to_size_t n)) as [out0| |] eqn:Em; cbn;
    try discriminate.
  apply make_Ok in Em as [Hfit ->].
  assert (H0 : 0 <= n).
  { destruct (Z.lt_ge_cases n 0) as [Hneg|]; [|assumption].
    rewrite to_size_t_negative in Hfit by lia.
    unfold Vec.max_size in Hfit. lia. }
  rewrite to_size_t_small by lia.
  destruct (copy_embd _ _ _ _) as [out1| |] eqn:Ec; cbn; try discriminate.
  apply copy_embd_lookup in Ec as [Hlen Hj]; [|lia|lia].
  rewrite repeat_length in Hlen. cbn in Hj.
  intros [= <-]. split; [exact H0|].
  assert (Hle : (Z.to_nat n <= length embd)%nat).
  { destruct (Z.to_nat n) as [|k] eqn:Ek; [lia|].
    destruct (Hj k) as [Hin _]. destruct Hin as (H1 & _); lia. }
  split; [exact Hle|]. f_equal.
  apply list_eq. intros j.
  destruct (decide (j < Z.to_nat n)%nat) as [Hlt|Hge].
  - destruct (Hj j) as [Hin _]. destruct Hin as (_ & _ & ->); [lia|].
    symmetry. apply lookup_take_lt, Hlt.
  - rewrite lookup_take_ge by lia. apply lookup_ge_None_2. lia.
Qed.

End OutputProperties.

(** ** Repeating a call *)

Section Determinism.
Context `{rt : Runtime}.

Lemma embed_run_decode_again env st c cv cv' cmv batch w2 w2' r w' :
  ctx_params cv = ctx_params cv' ->
  ctx_memory cv = ctx_memory cv' ->
  embed_run_decode env st c cv cmv batch w2 = Ok (r, w') ->
  (exists w'', embed_run_decode env st c cv' cmv batch w2' = Ok (r, w'')) /\
  states w' = states w2 /\ models w' = models w2 /\
  exists mem out, contexts w' = <[c := decoded cv mem out]> (contexts w2).
Proof.
  intros Hp Hm. unfold embed_run_decode. rewrite <- Hp, <- Hm.
  destruct (rt_decode _ _ _ _) as [[rc mem] out].
  destruct (negb (rc =? 0)).
  { intros [= <- <-]. wrun. eauto 10. }
  destruct out as [embd|]; [|intros [= <- <-]; wrun; eauto 10].
  destruct (embed_output _ _) as [output| |]; [|discriminate|discriminate].
  destruct (NewFloatArray _ _); intros [= <- <-]; wrun; eauto 10.
Qed.

(** A call leaves the view of its session as it found it. *)
Lemma embed_run_view env p text w r w1 :
  embed_run_session env p text w = Ok (r, w1) ->
  session_view w1 p = session_view w p.
Proof.
  unfold embed_run_session.
  destruct (states w !! p) as [st|] eqn:Est; [|discriminate].
  destruct (ctx st) as [c|] eqn:Ec; [|intros [= <- <-]; reflexivity].
  destruct (model st) as [m|] eqn:Em; [|intros [= <- <-]; reflexivity].
  destruct (GetStringUTFChars env text) as [text_str|];
    [|intros [= <- <-]; reflexivity].
  destruct (models w !! m) as [mv|] eqn:Emv; [|discriminate].
  destruct (tokenize _ _ _) as [tokens0| |]; [|discriminate|discriminate].
  destruct (bool_decide (tokens0 = [])); [intros [= <- <-]; reflexivity|].
  unfold embed_run_tokens.
  destruct (if exceeds_context tokens0 (n_ctx st) then _ else _)
    as [tokens| |]; [|discriminate|discriminate].
  destruct (contexts w !! c) as [cv|] eqn:Ecv; [|discriminate].
  destruct (embed_batch tokens) as [batch| |]; [|discriminate|discriminate].
  destruct (models w !! ctx_model cv) as [cmv|] eqn:Ecmv; [|discriminate].
  intros Hrun.
  destruct (embed_run_decode_again _ _ _ _ (cleared cv) _ _ _ w _ _
              eq_refl eq_refl Hrun) as (_ & Hs & Hm & mem & out & Hc).
  revert Hs Hm Hc. wsimpl. intros Hs Hm Hc.
  unfold session_view, context_view.
  rewrite Hs, Hm, Hc, Est, Ec, Em, lookup_insert_eq, Ecv.
  reflexivity.
Qed.

(** The result of a call is a function of the view of its session. *)
Lemma embed_run_by_view env p text w w' r w1 :
  memory_clear_erases ->
  session_view w p = session_view w' p ->
  embed_run_session env p text w = Ok (r, w1) ->
  exists w1', embed_run_session env p text w' = Ok (r, w1').
Proof.
  intros Herase Hview. unfold embed_run_session.
  unfold session_view in Hview.
  destruct (states w !! p) as [st|] eqn:Est; [|discriminate].
  destruct (states w' !! p) as [st'|] eqn:Est'; [|discriminate].
  injection Hview as <- Hm Hc.
  destruct (ctx st) as [c|] eqn:Ec; [|intros [= <- <-]; eauto].
  destruct (model st) as [m|] eqn:Em; [|intros [= <- <-]; eauto].
  destruct (GetStringUTFChars env text) as [text_str|];
    [|intros [= <- <-]; eauto].
  rewrite <- Hm.
  destruct (models w !! m) as [mv|] eqn:Emv; [|discriminate].
  destruct (tokenize _ _ _) as [tokens0| |]; [|discriminate|discriminate].
  destruct (bool_decide (tokens0 = [])); [intros [= <- <-]; eauto|].
  unfold embed_run_tokens.
  destruct (if exceeds_context tokens0 (n_ctx st) then _ else _)
    as [tokens| |]; [|discriminate|discriminate].
  unfold context_view in Hc.
  destruct (contexts w !! c) as [cv|] eqn:Ecv; [|discriminate].
  destruct (contexts w' !! c) as [cv'|] eqn:Ecv'; [|discriminate].
  injection Hc as Hp Hcm. rewrite <- Hcm.
  destruct (embed_batch tokens) as [batch| |]; [|discriminate|discriminate].
  destruct (models w !! ctx_model cv) as [cmv|] eqn:Ecmv; [|discriminate].
  intros Hrun.
  eapply embed_run_decode_again in Hrun as (Hagain & _); [exact Hagain| |].
  - exact Hp.
  - cbn [ctx_memory cleared]. apply Herase.
Qed.

End Determinism.

(** C2. Under a memory clear that erases what earlier sequences stored, a
    call of [nativeEmbed] that returned returns the same result when it is
    repeated on the same session with the same text, directly or after any
    other call on that session. *)
Theorem embed_deterministic `{rt : Runtime} env handle text w r w1 :
  memory_clear_erases ->
  nativeEmbed env handle text w = Ok (r, w1) ->
  (exists w2, nativeEmbed env handle text w1 = Ok (r, w2)) /\
  (forall env' text' r' w2,
     nativeEmbed env' handle text' w1 = Ok (r', w2) ->
     exists w3, nativeEmbed env handle text w2 = Ok (r, w3)).
Proof.
  intros Herase. rewrite nativeEmbed_run.
  assert (Hsame : forall env' text' w' r' w'',
            embed_run env' handle text' w' = Ok (r', w'') ->
            match handle with
            | Z.pos p => session_view w'' p = session_view w' p
            | _ => True
            end).
  { intros env' text' w' r' w''. unfold embed_run.
    destruct handle; [trivial|apply embed_run_view|trivial]. }
  assert (Hfun : forall w',
            match handle with
            | Z.pos p => session_view w p = session_view w' p
            | _ => True
            end ->
            embed_run env handle text w = Ok (r, w1) ->
            exists w2, embed_run env handle text w' = Ok (r, w2)).
  { intros w'. unfold embed_run.
    destruct handle as [|p|q].
    - intros _ [= <- <-]. eauto.
    - intros Hv. apply (embed_run_by_view _ _ _ _ _ _ _ Herase Hv).
    - discriminate. }
  intros Hrun. pose proof (Hsame _ _ _ _ _ Hrun) as H1. split.
  - rewrite nativeEmbed_run. apply Hfun; [|exact Hrun].
    destruct handle; auto.
  - intros env' text' r' w2. rewrite !nativeEmbed_run. intros Hrun'.
    pose proof (Hsame _ _ _ _ _ Hrun') as H2.
    apply Hfun; [|exact Hrun].
    destruct handle; auto. congruence.
Qed.

(** ** binary32 arithmetic against exact arithmetic *)

Section Digits.

Lemma digits2_pos_bounds p :
  2 ^ (Z.pos (digits2_pos p) - 1) <= Z.pos p < 2 ^ Z.pos (digits2_pos p).
Proof.
  induction p as [p IH|p IH|]; cbn [digits2_pos].
  - rewrite Pos2Z.inj_succ.
    replace (Z.succ (Z.pos (digits2_pos p)) - 1)
      with (Z.succ (Z.pos (digits2_pos p) - 1)) by lia.
    rewrite !Z.pow_succ_r by lia. lia.
  - rewrite Pos2Z.inj_succ.
    replace (Z.succ (Z.pos (digits2_pos p)) - 1)
      with (Z.succ (Z.pos (digits2_pos p) - 1)) by lia.
    rewrite !Z.pow_succ_r by lia. lia.
  - cbn. lia.
Qed.

Lemma Zdigits2_bounds m :
  0 < m -> 2 ^ (Zdigits2 m - 1) <= m < 2 ^ Zdigits2 m.
Proof.
  destruct m as [|p|p]; try lia. intros _. apply digits2_pos_bounds.
Qed.

Lemma Zdigits2_pos m : 0 < m -> 0 < Zdigits2 m.
Proof. destruct m; cbn; lia. Qed.

Lemma Zdigits2_le m k : 0 < m -> m < 2 ^ k -> Zdigits2 m <= k.
Proof.
  intros Hm Hk. pose proof (Zdigits2_bounds m Hm) as [Hlo _].
  destruct (Z.le_gt_cases (Zdigits2 m) k) as [|Hgt]; [assumption|].
  assert (2 ^ k <= 2 ^ (Zdigits2 m - 1))
    by (apply Z.pow_le_mono_r; lia).
  lia.
Qed.

Lemma Zdigits2_ge m k : 0 <= k -> 2 ^ k <= m -> k + 1 <= Zdigits2 m.
Proof.
  intros Hk Hm.
  assert (0 < m) by (pose proof (Z.pow_pos_nonneg 2 k); lia).
  pose proof (Zdigits2_bounds m H) as [_ Hhi].
  destruct (Z.le_gt_cases (k + 1) (Zdigits2 m)) as [|Hlt]; [assumption|].
  assert (2 ^ Zdigits2 m <= 2 ^ k)
    by (apply Z.pow_le_mono_r; lia).
  lia.
Qed.

End Digits.

Section Shift.

Lemma pow2_pos e : (0 < 2 ^ e)%Q.
Proof. apply Qpower_0_lt. reflexivity. Qed.

Lemma pow2_add a b : (2 ^ (a + b) == 2 ^ a * 2 ^ b)%Q.
Proof. apply Qpower_plus. discriminate. Qed.

Lemma pow2_le a b : a <= b -> (2 ^ a <= 2 ^ b)%Q.
Proof. intros H. apply Qpower_le_compat_l; [exact H|]. discriminate. Qed.

Lemma pow2_lt a b : a < b -> (2 ^ a < 2 ^ b)%Q.
Proof. intros H. apply Qpower_lt_compat_l; [exact H|]. reflexivity. Qed.

Lemma pow2_Z n : 0 <= n -> (inject_Z (2 ^ n) == 2 ^ n)%Q.
Proof. intros H. apply (Zpower_Qpower 2 n H). Qed.

Lemma pow2_succ a : (2 ^ (a + 1) == 2 * 2 ^ a)%Q.
Proof. rewrite pow2_add. change (2 ^ 1)%Q with 2%Q. ring. Qed.

Lemma located_ext mrs p q :
  (p == q)%Q -> Rnd.located mrs p -> Rnd.located mrs q.
Proof.
  intros E. unfold Rnd.located.
  destruct (shr_r mrs), (shr_s mrs); rewrite E; auto.
Qed.

Lemma inject_xO q : (inject_Z (Z.pos q~0) == 2 * inject_Z (Z.pos q))%Q.
Proof.
  change (Z.pos q~0) with (2 * Z.pos q). rewrite inject_Z_mult. reflexivity.
Qed.

Lemma inject_xI q : (inject_Z (Z.pos q~1) == 2 * inject_Z (Z.pos q) + 1)%Q.
Proof.
  change (Z.pos q~1) with (2 * Z.pos q + 1).
  rewrite inject_Z_plus, inject_Z_mult. reflexivity.
Qed.

Lemma shr_1_located mrs p :
  0 <= shr_m mrs -> Rnd.located mrs p ->
  shr_m (shr_1 mrs) = shr_m mrs / 2 /\
  Rnd.located (shr_1 mrs) (p * (1 # 2))%Q.
Proof.
  destruct mrs as [m r s]. cbn [shr_m]. intros Hm.
  destruct m as [|[q|q|]|]; [| | | |lia].
  - change (inject_Z 0) with 0%Q.
    unfold Rnd.located; destruct r, s; cbn [shr_1 shr_m shr_r shr_s orb];
      change (inject_Z 0) with 0%Q;
      intros H; (split; [reflexivity|]); lra.
  - assert (Hdiv : Z.pos q~1 / 2 = Z.pos q).
    { symmetry. apply (Z.div_unique _ 2 _ 1); lia. }
    pose proof (inject_xI q) as Hq.
    unfold Rnd.located; destruct r, s; cbn [shr_1 shr_m shr_r shr_s orb];
      intros H; (split; [symmetry; exact Hdiv|]); lra.
  - assert (Hdiv : Z.pos q~0 / 2 = Z.pos q).
    { symmetry. apply (Z.div_unique _ 2 _ 0); lia. }
    pose proof (inject_xO q) as Hq.
    unfold Rnd.located; destruct r, s; cbn [shr_1 shr_m shr_r shr_s orb];
      intros H; (split; [symmetry; exact Hdiv|]); lra.
  - unfold Rnd.located; destruct r, s; cbn [shr_1 shr_m shr_r shr_s orb];
      change (inject_Z 0) with 0%Q; change (inject_Z 1) with 1%Q;
      intros H; (split; [reflexivity|]); lra.
Qed.

Lemma iter_shr_1_located n : forall mrs p,
  0 <= shr_m mrs -> Rnd.located mrs p ->
  shr_m (SpecFloat.iter_pos shr_1 n mrs) = shr_m mrs / 2 ^ Z.pos n /\
  Rnd.located (SpecFloat.iter_pos shr_1 n mrs) (p / 2 ^ Z.pos n)%Q.
Proof.
  induction n as [n IH|n IH|]; intros mrs p Hm Hp; cbn [SpecFloat.iter_pos].
  - destruct (shr_1_located mrs p Hm Hp) as [E1 L1].
    assert (H1 : 0 <= shr_m (shr_1 mrs))
      by (rewrite E1; apply Z.div_pos; lia).
    destruct (IH _ _ H1 L1) as [E2 L2].
    assert (H2 : 0 <= shr_m (SpecFloat.iter_pos shr_1 n (shr_1 mrs))).
    { rewrite E2. apply Z.div_pos; [lia|]. apply Z.pow_pos_nonneg; lia. }
    destruct (IH _ _ H2 L2) as [E3 L3].
    split.
    + rewrite E3, E2, E1.
      rewrite !Z.div_div by (try apply Z.pow_pos_nonneg; lia).
      f_equal. replace (Z.pos n~1) with (1 + (Z.pos n + Z.pos n)) by lia.
      rewrite !Z.pow_add_r by lia. reflexivity.
    + eapply located_ext; [|exact L3].
      replace (Z.pos n~1) with (1 + (Z.pos n + Z.pos n)) by lia.
      rewrite !pow2_add. change (2 ^ 1)%Q with 2%Q.
      pose proof (pow2_pos (Z.pos n)). field. lra.
  - destruct (IH _ _ Hm Hp) as [E2 L2].
    assert (H2 : 0 <= shr_m (SpecFloat.iter_pos shr_1 n mrs)).
    { rewrite E2. apply Z.div_pos; [lia|]. apply Z.pow_pos_nonneg; lia. }
    destruct (IH _ _ H2 L2) as [E3 L3].
    split.
    + rewrite E3, E2.
      rewrite !Z.div_div by (try apply Z.pow_pos_nonneg; lia).
      f_equal. replace (Z.pos n~0) with (Z.pos n + Z.pos n) by lia.
      rewrite !Z.pow_add_r by lia. reflexivity.
    + eapply located_ext; [|exact L3].
      replace (Z.pos n~0) with (Z.pos n + Z.pos n) by lia.
      rewrite !pow2_add.
      pose proof (pow2_pos (Z.pos n)). field. lra.
  - destruct (shr_1_located mrs p Hm Hp) as [E1 L1].
    split; [exact E1|]. exact L1.
Qed.

(** [shr] by [n] places: the mantissa is divided, the point keeps its
    value. *)
Lemma shr_located mrs e n p :
  0 <= shr_m mrs -> Rnd.located mrs p ->
  let '(mrs', e') := shr mrs e n in
  e' = e + Z.max 0 n /\
  shr_m mrs' = shr_m mrs / 2 ^ Z.max 0 n /\
  (exists p', Rnd.located mrs' p' /\ (p' * 2 ^ e' == p * 2 ^ e)%Q) /\
  (n <= 0 -> mrs' = mrs).
Proof.
  intros Hm Hp. unfold shr. destruct n as [|n|n].
  - rewrite Z.max_l by lia. split; [lia|]. split; [now rewrite Z.div_1_r|].
    split; [|reflexivity].
    exists p. split; [exact Hp|]. reflexivity.
  - destruct (iter_shr_1_located n mrs p Hm Hp) as [E L].
    rewrite Z.max_r by lia. split; [reflexivity|]. split; [exact E|].
    split; [|lia].
    exists (p / 2 ^ Z.pos n)%Q. split; [exact L|].
    rewrite pow2_add. pose proof (pow2_pos (Z.pos n)). field. lra.
  - rewrite Z.max_l by lia. split; [lia|]. split; [now rewrite Z.div_1_r|].
    split; [|reflexivity].
    exists p. split; [exact Hp|]. reflexivity.
Qed.

End Shift.

Section Rounding.

Lemma fexp32_eq e : Rnd.fexp32 e = Z.max (e - 24) (-149).
Proof. reflexivity. Qed.

Lemma shr_m_of_loc m l : shr_m (shr_record_of_loc m l) = m.
Proof. destruct l as [|[]]; reflexivity. Qed.

(** Rounding to nearest moves the point by at most half a unit. *)
Lemma round_nearest_even_located mrs p :
  Rnd.located mrs p ->
  let m' := round_nearest_even (shr_m mrs) (loc_of_shr_record mrs) in
  shr_m mrs <= m' <= shr_m mrs + 1 /\
  (inject_Z m' - p <= 1 # 2)%Q /\ (p - inject_Z m' <= 1 # 2)%Q.
Proof.
  destruct mrs as [m r s]. unfold Rnd.located. cbn [shr_m shr_r shr_s].
  destruct r, s; cbn [loc_of_shr_record round_nearest_even]; intros H.
  - rewrite inject_Z_plus. change (inject_Z 1) with 1%Q.
    split; [lia|]. split; lra.
  - destruct (Z.even m).
    + split; [lia|]. split; lra.
    + rewrite inject_Z_plus. change (inject_Z 1) with 1%Q.
      split; [lia|]. split; lra.
  - split; [lia|]. split; lra.
  - split; [lia|]. split; lra.
Qed.

Lemma shr_nonpos mrs e n : n <= 0 -> shr mrs e n = (mrs, e).
Proof. destruct n; [reflexivity|lia|reflexivity]. Qed.

(** The second shift of [binary_round_aux] only repairs a mantissa that
    rounding carried to [2^24]. *)
Lemma second_shift m e :
  0 <= m <= 2 ^ 24 -> -149 <= e ->
  let '(mrs, e') := shr_fexp F32.prec F32.emax m e loc_Exact in
  (m < 2 ^ 24 /\ shr_m mrs = m /\ e' = e) \/
  (m = 2 ^ 24 /\ shr_m mrs = 2 ^ 23 /\ e' = e + 1).
Proof.
  intros Hm He. unfold shr_fexp. fold (Rnd.fexp32 (Zdigits2 m + e)).
  destruct (Z.eq_dec m (2 ^ 24)) as [->|Hne].
  - change (Zdigits2 (2 ^ 24)) with 25. rewrite fexp32_eq.
    replace (Z.max (25 + e - 24) (-149) - e) with 1 by lia.
    cbn. right. auto.
  - assert (Hn : Rnd.fexp32 (Zdigits2 m + e) - e <= 0).
    { rewrite fexp32_eq. destruct (Z.eq_dec m 0) as [->|Hm0].
      - cbn [Zdigits2]. lia.
      - pose proof (Zdigits2_le m 24 ltac:(lia) ltac:(lia)). lia. }
    rewrite (shr_nonpos _ _ _ Hn). cbn [shr_record_of_loc shr_m].
    left. lia.
Qed.

Lemma first_shift mx ex lx p :
  0 < mx -> Rnd.located (shr_record_of_loc mx lx) p ->
  let k := Z.max 0 (Rnd.fexp32 (Zdigits2 mx + ex) - ex) in
  let '(mrs, e) := shr_fexp F32.prec F32.emax mx ex lx in
  e = ex + k /\ shr_m mrs = mx / 2 ^ k /\
  0 <= shr_m mrs < 2 ^ 24 /\ -149 <= e /\
  (exists p', Rnd.located mrs p' /\ (p' * 2 ^ e == p * 2 ^ ex)%Q) /\
  (Rnd.fexp32 (Zdigits2 mx + ex) - ex <= 0 -> mrs = shr_record_of_loc mx lx).
Proof.
  intros Hmx Hp k. unfold shr_fexp.
  fold (Rnd.fexp32 (Zdigits2 mx + ex)).
  pose proof (shr_located (shr_record_of_loc mx lx) ex
                (Rnd.fexp32 (Zdigits2 mx + ex) - ex) p) as H.
  rewrite shr_m_of_loc in H. specialize (H ltac:(lia) Hp).
  destruct (shr _ _ _) as [mrs e].
  destruct H as (He & Hm & Hloc & Hsame). fold k in He, Hm.
  pose proof (Zdigits2_bounds mx Hmx) as [Hlo Hhi].
  assert (Hk : 0 <= k) by lia.
  assert (Hd : Zdigits2 mx <= k + 24)
    by (unfold k; rewrite fexp32_eq; lia).
  assert (Hpow : 0 < 2 ^ k) by (apply Z.pow_pos_nonneg; lia).
  split; [exact He|]. split; [exact Hm|]. split.
  - rewrite Hm. split; [apply Z.div_pos; lia|].
    apply Z.div_lt_upper_bound; [exact Hpow|].
    rewrite <- Z.pow_add_r by lia.
    assert (2 ^ Zdigits2 mx <= 2 ^ (k + 24))
      by (apply Z.pow_le_mono_r; lia).
    lia.
  - split; [unfold k in He; rewrite fexp32_eq in He; lia|].
    split; [exact Hloc|exact Hsame].
Qed.

End Rounding.

Section RoundAux.

Lemma located_of_loc_bounds mx lx p :
  Rnd.located (shr_record_of_loc mx lx) p ->
  (inject_Z mx <= p /\ p < inject_Z mx + 1)%Q /\
  (lx = loc_Exact -> (p == inject_Z mx)%Q).
Proof.
  destruct lx as [|[]]; unfold Rnd.located; cbn; intros H;
    (split; [lra|]); try discriminate; auto.
Qed.

Lemma pow2_half e : ((1 # 2) * 2 ^ e == 2 ^ (e - 1))%Q.
Proof.
  replace e with ((e - 1) + 1) at 1 by lia. rewrite pow2_succ. field.
Qed.

Lemma u_pow2 e : (Rnd.u * 2 ^ (e + 23) == 2 ^ (e - 1))%Q.
Proof.
  unfold Rnd.u. rewrite <- pow2_add. replace (-24 + (e + 23)) with (e - 1) by lia.
  reflexivity.
Qed.

Lemma binary_round_aux_spec sx mx ex lx p :
  0 < mx -> Rnd.located (shr_record_of_loc mx lx) p ->
  (ex <= Rnd.fexp32 (Zdigits2 mx + ex) \/ lx = loc_Exact) ->
  let X := (p * 2 ^ ex)%Q in
  match binary_round_aux F32.prec F32.emax sx mx ex lx with
  | S754_zero s => s = sx /\ (X <= Rnd.eta)%Q
  | S754_finite s m e =>
      s = sx /\ Z.pos m < 2 ^ 24 /\ -149 <= e <= 104 /\
      Rnd.near (Rnd.u * X + Rnd.eta) X (Rnd.val (Z.pos m) e) /\
      (ex <= Rnd.fexp32 (Zdigits2 mx + ex) -> (2 ^ (-126) <= X)%Q ->
       2 ^ 23 <= Z.pos m /\ Rnd.near (Rnd.u * X) X (Rnd.val (Z.pos m) e))
  | S754_infinity s =>
      s = sx /\ (ex <= Rnd.fexp32 (Zdigits2 mx + ex) -> (2 ^ 127 <= X)%Q)
  | S754_nan => False
  end.
Proof.
  intros Hmx Hp Hreg X. unfold binary_round_aux.
  pose proof (first_shift mx ex lx p Hmx Hp) as H1. cbv zeta in H1.
  destruct (shr_fexp F32.prec F32.emax mx ex lx) as [mrs1 e1].
  destruct H1 as (He1 & Hm1 & Hr1 & Hlow & (p1 & Hp1 & HX) & Hsame).
  pose proof (round_nearest_even_located mrs1 p1 Hp1) as H2. cbv zeta in H2.
  set (m2 := round_nearest_even (shr_m mrs1) (loc_of_shr_record mrs1)) in *.
  destruct H2 as (Hm2 & Hup & Hdown).
  pose proof (second_shift m2 e1 ltac:(lia) Hlow) as H3.
  destruct (shr_fexp F32.prec F32.emax m2 e1 loc_Exact) as [mrs3 e3].
  pose proof (Zdigits2_bounds mx Hmx) as [Hdlo Hdhi].
  pose proof (Zdigits2_pos mx Hmx) as Hdpos.
  pose proof (located_of_loc_bounds mx lx p Hp) as [[Hple Hplt] Hpex].
  set (d := Zdigits2 mx) in *.
  set (k := Z.max 0 (Rnd.fexp32 (d + ex) - ex)) in *.
  pose proof (fexp32_eq (d + ex)) as Hf.
  pose proof (pow2_pos e1) as Hpe1.
  pose proof (pow2_pos ex) as Hpex'.
  assert (HX0 : (0 <= X)%Q).
  { unfold X. apply Qmult_le_0_compat; [|lra].
    apply Qle_trans with (inject_Z mx); [|exact Hple].
    change 0%Q with (inject_Z 0). rewrite <- Zle_Qle. lia. }
  (* the value of the rounded mantissa at the first exponent *)
  assert (HY : Rnd.near ((1 # 2) * 2 ^ e1) X (Rnd.val m2 e1)).
  { unfold Rnd.near, Rnd.val, X. rewrite <- HX. split; nra. }
  (* the error in terms of the value *)
  assert (Hnormal : ex <= Rnd.fexp32 (d + ex) -> -149 <= d + ex - 24 ->
            e1 = d + ex - 24 /\ (2 ^ (e1 + 23) <= X)%Q /\
            2 ^ 23 <= shr_m mrs1).
  { intros Hn Hd. assert (Ee1 : e1 = d + ex - 24) by lia.
    split; [exact Ee1|]. split.
    - unfold X. replace (e1 + 23) with ((d - 1) + ex) by lia.
      rewrite pow2_add. rewrite <- pow2_Z by lia.
      apply Qmult_le_compat_r; [|lra].
      apply Qle_trans with (inject_Z mx); [|exact Hple].
      rewrite <- Zle_Qle. exact Hdlo.
    - rewrite Hm1. apply Z.div_le_lower_bound; [apply Z.pow_pos_nonneg; lia|].
      replace k with (d - 24) by lia.
      rewrite <- Z.pow_add_r by lia.
      replace (d - 24 + 23) with (d - 1) by lia. exact Hdlo. }
  assert (Herr : Rnd.near (Rnd.u * X + Rnd.eta) X (Rnd.val m2 e1)).
  { destruct Hreg as [Hn|Hex].
    - destruct (Z_le_gt_dec (-149) (d + ex - 24)) as [Hd|Hd].
      + destruct (Hnormal Hn Hd) as (Ee1 & Hbig & _).
        pose proof (u_pow2 e1) as Hu. pose proof (pow2_half e1) as Hh.
        assert (0 < Rnd.eta)%Q by apply pow2_pos.
        assert (0 < Rnd.u)%Q by apply pow2_pos.
        unfold Rnd.near in *. split; nra.
      + assert (Ee1 : e1 = -149) by lia.
        pose proof (pow2_half e1) as Hh. rewrite Ee1 in Hh.
        change (2 ^ (-149 - 1))%Q with Rnd.eta in Hh. rewrite Ee1 in HY.
        assert (0 < Rnd.u)%Q by apply pow2_pos.
        rewrite Ee1. unfold Rnd.near in *. split; nra.
    - subst lx.
      destruct (Z_le_gt_dec ex (Rnd.fexp32 (d + ex))) as [Hn|Hn].
      + (* same as above *)
        destruct (Z_le_gt_dec (-149) (d + ex - 24)) as [Hd|Hd].
        * destruct (Hnormal Hn Hd) as (Ee1 & Hbig & _).
          pose proof (u_pow2 e1) as Hu. pose proof (pow2_half e1) as Hh.
          assert (0 < Rnd.eta)%Q by apply pow2_pos.
          assert (0 < Rnd.u)%Q by apply pow2_pos.
          unfold Rnd.near in *. split; nra.
        * assert (Ee1 : e1 = -149) by lia.
          pose proof (pow2_half e1) as Hh. rewrite Ee1 in Hh.
          change (2 ^ (-149 - 1))%Q with Rnd.eta in Hh. rewrite Ee1 in HY.
          assert (0 < Rnd.u)%Q by apply pow2_pos.
          rewrite Ee1. unfold Rnd.near in *. split; nra.
      + assert (Em1 : mrs1 = shr_record_of_loc mx loc_Exact)
          by (apply Hsame; lia).
        assert (Em2 : m2 = mx) by (unfold m2; rewrite Em1; reflexivity).
        assert (Ee1 : e1 = ex) by lia.
        assert (0 < Rnd.eta)%Q by apply pow2_pos.
        assert (0 < Rnd.u)%Q by apply pow2_pos.
        pose proof (Hpex eq_refl) as Hpeq.
        unfold Rnd.near, Rnd.val. rewrite Em2, Ee1.
        unfold X in *. rewrite Hpeq in *.
        assert (0 <= Rnd.u * (inject_Z mx * 2 ^ ex))%Q
          by (apply Qmult_le_0_compat; lra).
        split; lra. }
  (* the three outcomes *)
  assert (Hval3 : (Rnd.val (shr_m mrs3) e3 == Rnd.val m2 e1)%Q).
  { destruct H3 as [(_ & -> & ->)|(-> & -> & ->)]; [reflexivity|].
    unfold Rnd.val. rewrite pow2_succ.
    change (inject_Z (2 ^ 23)) with (8388608%Q).
    change (inject_Z (2 ^ 24)) with (16777216%Q). ring. }
  destruct (shr_m mrs3) as [|m3|m3] eqn:Em3.
  - (* zero *)
    split; [reflexivity|].
    assert (m2 = 0) by (destruct H3 as [(_ & ? & _)|(_ & ? & _)]; lia).
    assert (Em1 : shr_m mrs1 = 0) by lia.
    assert (Ee1 : e1 = -149).
    { rewrite Hm1 in Em1.
      apply Z.div_small_iff in Em1; [|apply Z.pow_nonzero; lia].
      destruct Em1 as [[_ Hlt]|[_ Hneg]]; [|lia].
      assert (d - 1 < k).
      { apply (Z.pow_lt_mono_r_iff 2); lia. }
      lia. }
    pose proof (pow2_half e1) as Hh. rewrite Ee1 in Hh.
    change (2 ^ (-149 - 1))%Q with Rnd.eta in Hh.
    unfold Rnd.near, Rnd.val in HY. rewrite H, Ee1 in HY.
    change (inject_Z 0) with 0%Q in HY. lra.
  - (* finite or overflow *)
    assert (Hm3 : Z.pos m3 < 2 ^ 24 /\ (2 ^ 23 <= shr_m mrs1 -> 2 ^ 23 <= Z.pos m3))
      by (destruct H3 as [(? & ? & _)|(_ & ? & _)]; lia).
    assert (He3 : e1 <= e3 <= e1 + 1)
      by (destruct H3 as [(_ & _ & ?)|(_ & _ & ?)]; lia).
    change (F32.emax - F32.prec) with 104.
    destruct (e3 <=? 104) eqn:Ele.
    + apply Z.leb_le in Ele.
      split; [reflexivity|]. split; [lia|]. split; [lia|]. split.
      * unfold Rnd.near in *. rewrite Hval3. exact Herr.
      * intros Hn Hbig.
        assert (Hd : -149 <= d + ex - 24).
        { assert (Hlt : (2 ^ (-126) < 2 ^ (d + ex))%Q).
          { apply Qle_lt_trans with X; [exact Hbig|]. unfold X.
            rewrite pow2_add. rewrite <- (pow2_Z d) by lia.
            apply Qmult_lt_compat_r; [lra|].
            apply Qlt_le_trans with (inject_Z mx + 1)%Q; [exact Hplt|].
            change 1%Q with (inject_Z 1). rewrite <- inject_Z_plus.
            rewrite <- Zle_Qle. lia. }
          apply Qpower_lt_compat_l_inv in Hlt; [lia|reflexivity]. }
        destruct (Hnormal Hn Hd) as (Ee1 & Hbig' & Hm1big).
        split; [lia|].
        pose proof (u_pow2 e1) as Hu. pose proof (pow2_half e1) as Hh.
        assert (0 < Rnd.u)%Q by apply pow2_pos.
        unfold Rnd.near in *. rewrite Hval3. split; nra.
    + apply Z.leb_gt in Ele. split; [reflexivity|]. intros Hn.
      assert (Hd : -149 <= d + ex - 24) by lia.
      destruct (Hnormal Hn Hd) as (Ee1 & Hbig & _).
      apply Qle_trans with (2 ^ (e1 + 23))%Q; [|exact Hbig].
      apply pow2_le. lia.
  - destruct H3 as [(_ & ? & _)|(_ & ? & _)]; lia.
Qed.

End RoundAux.

Section Operations.

Lemma val_nonneg m e : 0 <= m -> (0 <= Rnd.val m e)%Q.
Proof.
  intros Hm. unfold Rnd.val. apply Qmult_le_0_compat.
  - change 0%Q with (inject_Z 0). rewrite <- Zle_Qle. exact Hm.
  - apply Qlt_le_weak, pow2_pos.
Qed.

Lemma val_pos m e : 0 < m -> (0 < Rnd.val m e)%Q.
Proof.
  intros Hm. unfold Rnd.val. apply Qmult_lt_0_compat.
  - change 0%Q with (inject_Z 0). rewrite <- Zlt_Qlt. exact Hm.
  - apply pow2_pos.
Qed.

Lemma mag_nonneg x : (0 <= Rnd.mag x)%Q.
Proof.
  destruct x; cbn; try lra. apply val_nonneg. lia.
Qed.

Lemma located_exact m :
  Rnd.located (shr_record_of_loc m loc_Exact) (inject_Z m).
Proof. unfold Rnd.located. cbn. reflexivity. Qed.

Lemma eta_pos : (0 < Rnd.eta)%Q.
Proof. apply pow2_pos. Qed.

Lemma u_pos : (0 < Rnd.u)%Q.
Proof. apply pow2_pos. Qed.

Lemma near_zero x : (0 <= x)%Q -> (x <= Rnd.eta)%Q ->
  Rnd.near (Rnd.u * x + Rnd.eta) x 0.
Proof.
  intros H0 H1. pose proof u_pos. unfold Rnd.near. split; nra.
Qed.

(** *** Multiplication *)

Lemma mul_finite_inv x y :
  is_finite_f32 (F32.mul x y) = true ->
  is_finite_f32 x = true /\ is_finite_f32 y = true.
Proof.
  destruct x as [sx|sx| |sx mx ex], y as [sy|sy| |sy my ey]; cbn;
    try discriminate; auto.
Qed.

Lemma mul_near x y :
  is_finite_f32 (F32.mul x y) = true ->
  Rnd.near (Rnd.u * (Rnd.mag x * Rnd.mag y) + Rnd.eta)
    (Rnd.mag x * Rnd.mag y) (Rnd.mag (F32.mul x y)).
Proof.
  pose proof eta_pos as Heta. pose proof u_pos as Hu.
  destruct x as [sx|sx| |sx mx ex], y as [sy|sy| |sy my ey];
    try discriminate;
    try (intros _; cbn [F32.mul SFmul Rnd.mag]; unfold Rnd.near;
         split; lra).
  unfold F32.mul. cbn [SFmul Rnd.mag].
  pose proof (binary_round_aux_spec (xorb sx sy) (Z.pos (mx * my)) (ex + ey)
                loc_Exact (inject_Z (Z.pos (mx * my))) ltac:(lia)
                (located_exact _) (or_intror eq_refl)) as H.
  cbv zeta in H.
  assert (EX : (inject_Z (Z.pos (mx * my)) * 2 ^ (ex + ey)
                == Rnd.val (Z.pos mx) ex * Rnd.val (Z.pos my) ey)%Q).
  { unfold Rnd.val. rewrite Pos2Z.inj_mul, inject_Z_mult, pow2_add. ring. }
  destruct (binary_round_aux _ _ _ _ _ _) as [s|s| |s m e];
    try discriminate; intros _.
  - destruct H as [_ H]. rewrite EX in H. cbn [Rnd.mag].
    apply near_zero; [|exact H].
    apply Qmult_le_0_compat; apply val_nonneg; lia.
  - destruct H as (_ & _ & _ & H & _). cbn [Rnd.mag].
    unfold Rnd.near in *. rewrite EX in H. exact H.
Qed.

Lemma mul_self_nonneg x :
  is_finite_f32 (F32.mul x x) = true -> Rnd.is_nonneg (F32.mul x x) = true.
Proof.
  destruct x as [sx|sx| |sx mx ex]; try discriminate.
  - intros _. cbn. now destruct sx.
  - unfold F32.mul. cbn [SFmul].
    pose proof (binary_round_aux_spec (xorb sx sx) (Z.pos (mx * mx)) (ex + ex)
                  loc_Exact (inject_Z (Z.pos (mx * mx))) ltac:(lia)
                  (located_exact _) (or_intror eq_refl)) as H.
    cbv zeta in H.
    destruct (binary_round_aux _ _ _ _ _ _) as [s|s| |s m e];
      try discriminate; intros _.
    + destruct H as [-> _]. now destruct sx.
    + destruct H as [-> _]. now destruct sx.
Qed.

(** A product with a normal number overflows only when its exact value is
    large. *)
Lemma mul_normal_finite x y :
  is_finite_f32 x = true -> Rnd.normal_pos y ->
  (Rnd.mag x * Rnd.mag y < 2 ^ 127)%Q ->
  is_finite_f32 (F32.mul x y) = true.
Proof.
  intros Hx (my & ey & -> & Hmy) Hsmall.
  destruct x as [sx|sx| |sx mx ex]; try discriminate; [reflexivity|].
  unfold F32.mul. cbn [SFmul]. cbn [Rnd.mag] in Hsmall.
  assert (Hreg : ex + ey <= Rnd.fexp32 (Zdigits2 (Z.pos (mx * my)) + (ex + ey))).
  { rewrite fexp32_eq.
    pose proof (Zdigits2_ge (Z.pos (mx * my)) 23 ltac:(lia)) as Hd.
    assert (2 ^ 23 <= Z.pos (mx * my)) by nia.
    specialize (Hd H). lia. }
  pose proof (binary_round_aux_spec (xorb sx false) (Z.pos (mx * my)) (ex + ey)
                loc_Exact (inject_Z (Z.pos (mx * my))) ltac:(lia)
                (located_exact _) (or_introl Hreg)) as H.
  cbv zeta in H.
  assert (EX : (inject_Z (Z.pos (mx * my)) * 2 ^ (ex + ey)
                == Rnd.val (Z.pos mx) ex * Rnd.val (Z.pos my) ey)%Q).
  { unfold Rnd.val. rewrite Pos2Z.inj_mul, inject_Z_mult, pow2_add. ring. }
  destruct (binary_round_aux _ _ _ _ _ _) as [s|s| |s m e];
    try reflexivity; [|contradiction].
  destruct H as [_ H]. specialize (H Hreg). rewrite EX in H. lra.
Qed.

End Operations.

Section Addition.

Lemma shl_align_spec mx ex ex' :
  let '(m', e') := shl_align mx ex ex' in
  e' = Z.min ex ex' /\ Z.pos m' = Z.pos mx * 2 ^ (ex - e').
Proof.
  unfold shl_align. destruct (ex' - ex) as [|d|d] eqn:E.
  - split; [lia|]. rewrite Z.sub_diag. cbn. lia.
  - split; [lia|]. rewrite Z.sub_diag. cbn. lia.
  - split; [lia|]. replace (ex - ex') with (Z.pos d) by lia.
    pose proof (shift_pos_correct d mx) as H. unfold shift_pos in H.
    rewrite H. change (Z.pow_pos 2 d) with (2 ^ Z.pos d). lia.
Qed.

Lemma shl_align_val mx ex ex' :
  let '(m', e') := shl_align mx ex ex' in
  (Rnd.val (Z.pos m') e' == Rnd.val (Z.pos mx) ex)%Q.
Proof.
  pose proof (shl_align_spec mx ex ex') as H.
  destruct (shl_align mx ex ex') as [m' e']. destruct H as [He Hm].
  unfold Rnd.val. rewrite Hm, inject_Z_mult, pow2_Z by lia.
  rewrite <- Qmult_assoc, <- pow2_add.
  replace (ex - e' + e') with ex by lia. reflexivity.
Qed.

Lemma add_finite_inv x y :
  is_finite_f32 (F32.add x y) = true ->
  is_finite_f32 x = true /\ is_finite_f32 y = true.
Proof.
  destruct x as [sx|sx| |sx mx ex], y as [sy|sy| |sy my ey]; cbn;
    try discriminate; auto; destruct sx, sy; cbn; try discriminate; auto.
Qed.

Lemma binary_round_exact sx m e :
  match binary_round F32.prec F32.emax sx m e with
  | S754_zero s => s = sx /\ (Rnd.val (Z.pos m) e <= Rnd.eta)%Q
  | S754_finite s m' e' =>
      s = sx /\
      Rnd.near (Rnd.u * Rnd.val (Z.pos m) e + Rnd.eta)
        (Rnd.val (Z.pos m) e) (Rnd.val (Z.pos m') e')
  | S754_infinity s => s = sx
  | S754_nan => False
  end.
Proof.
  unfold binary_round.
  pose proof (shl_align_val m e
                (fexp F32.prec F32.emax (Z.pos (digits2_pos m) + e))) as Hv.
  destruct (shl_align _ _ _) as [mz ez].
  pose proof (binary_round_aux_spec sx (Z.pos mz) ez loc_Exact
                (inject_Z (Z.pos mz)) ltac:(lia) (located_exact _)
                (or_intror eq_refl)) as H.
  cbv zeta in H. fold (Rnd.val (Z.pos mz) ez) in H.
  destruct (binary_round_aux _ _ _ _ _ _) as [s|s| |s m' e'].
  - destruct H as [-> H]. rewrite Hv in H. auto.
  - destruct H as [-> _]. reflexivity.
  - exact H.
  - destruct H as (-> & _ & _ & H & _). split; [reflexivity|].
    unfold Rnd.near in *. rewrite Hv in H. exact H.
Qed.

Lemma add_near x y :
  Rnd.is_nonneg x = true -> Rnd.is_nonneg y = true ->
  is_finite_f32 (F32.add x y) = true ->
  Rnd.is_nonneg (F32.add x y) = true /\
  Rnd.near (Rnd.u * (Rnd.mag x + Rnd.mag y) + Rnd.eta)
    (Rnd.mag x + Rnd.mag y) (Rnd.mag (F32.add x y)).
Proof.
  pose proof eta_pos as Heta. pose proof u_pos as Hu.
  destruct x as [[]|[]| |[] mx ex]; try discriminate;
    destruct y as [[]|[]| |[] my ey]; try discriminate; intros _ _.
  - intros _. cbn [F32.add SFadd Rnd.mag Rnd.is_nonneg].
    split; [reflexivity|]. unfold Rnd.near. split; lra.
  - intros _. cbn [F32.add SFadd Rnd.mag Rnd.is_nonneg].
    split; [reflexivity|].
    pose proof (val_nonneg (Z.pos my) ey ltac:(lia)).
    unfold Rnd.near. split; nra.
  - intros _. cbn [F32.add SFadd Rnd.mag Rnd.is_nonneg].
    split; [reflexivity|].
    pose proof (val_nonneg (Z.pos mx) ex ltac:(lia)).
    unfold Rnd.near. split; nra.
  - unfold F32.add. cbn [SFadd Rnd.mag cond_Zopp].
    pose proof (shl_align_spec mx ex (Z.min ex ey)) as Hx.
    pose proof (shl_align_spec my ey (Z.min ex ey)) as Hy.
    destruct (shl_align mx ex _) as [mx' ex'].
    destruct (shl_align my ey _) as [my' ey'].
    destruct Hx as [Hex Hmx], Hy as [Hey Hmy]. cbn [fst].
    change (Z.pos mx' + Z.pos my') with (Z.pos (mx' + my')).
    cbn [binary_normalize].
    assert (EX : (Rnd.val (Z.pos (mx' + my')) (Z.min ex ey)
                  == Rnd.val (Z.pos mx) ex + Rnd.val (Z.pos my) ey)%Q).
    { unfold Rnd.val. rewrite Pos2Z.inj_add, inject_Z_plus, Hmx, Hmy.
      rewrite !inject_Z_mult, !pow2_Z by lia.
      replace ex' with (Z.min ex ey) by lia.
      replace ey' with (Z.min ex ey) by lia.
      set (ez := Z.min ex ey).
      assert (E1 : (2 ^ ex == 2 ^ (ex - ez) * 2 ^ ez)%Q).
      { rewrite <- pow2_add. replace (ex - ez + ez) with ex by lia.
        reflexivity. }
      assert (E2 : (2 ^ ey == 2 ^ (ey - ez) * 2 ^ ez)%Q).
      { rewrite <- pow2_add. replace (ey - ez + ez) with ey by lia.
        reflexivity. }
      rewrite E1, E2. ring. }
    pose proof (binary_round_exact false (mx' + my') (Z.min ex ey)) as H.
    destruct (binary_round _ _ _ _ _) as [s|s| |s m e]; try discriminate;
      intros _.
    + destruct H as [-> H]. split; [reflexivity|]. cbn [Rnd.mag].
      rewrite EX in H. apply near_zero; [|exact H].
      pose proof (val_nonneg (Z.pos mx) ex ltac:(lia)).
      pose proof (val_nonneg (Z.pos my) ey ltac:(lia)). lra.
    + destruct H as [-> H]. split; [reflexivity|]. cbn [Rnd.mag].
      unfold Rnd.near in *. rewrite EX in H. exact H.
Qed.

End Addition.

Section SumOfSquares.

Lemma u_eq : (Rnd.u == 1 # 16777216)%Q.
Proof. reflexivity. Qed.

(** One turn of [sum += v * v]: the error grows by three units. *)
Lemma sum_step (k A a v2 q s : Q) :
  (0 <= k)%Q -> (k <= 1048576)%Q -> (0 <= A)%Q -> (0 <= v2)%Q ->
  Rnd.near (3 * k * Rnd.u * A + 3 * k * Rnd.eta) A a ->
  Rnd.near (Rnd.u * v2 + Rnd.eta) v2 q ->
  Rnd.near (Rnd.u * (a + q) + Rnd.eta) (a + q) s ->
  Rnd.near (3 * (k + 1) * Rnd.u * (A + v2) + 3 * (k + 1) * Rnd.eta)
    (A + v2) s.
Proof.
  intros Hk0 Hk1 HA Hv Ha Hq Hs. pose proof eta_pos as Heta.
  unfold Rnd.near in *. rewrite u_eq in *.
  set (eta := Rnd.eta) in *.
  assert (P0 : (0 <= k * A)%Q) by nra.
  assert (P1 : (k * A <= 1048576 * A)%Q) by nra.
  assert (V0 : (0 <= k * v2)%Q) by nra.
  assert (E0 : (0 <= k * eta)%Q) by nra.
  assert (E1 : (k * eta <= 1048576 * eta)%Q) by nra.
  split; nra.
Qed.

Lemma fold_squares_finite values : forall acc,
  is_finite_f32
    (fold_left (fun sum v => F32.add sum (F32.mul v v)) values acc) = true ->
  is_finite_f32 acc = true /\ forallb is_finite_f32 values = true.
Proof.
  induction values as [|v rest IH]; intros acc; cbn [fold_left forallb].
  - auto.
  - intros H. destruct (IH _ H) as [Hacc Hrest].
    destruct (add_finite_inv _ _ Hacc) as [Ha Hsq].
    destruct (mul_finite_inv _ _ Hsq) as [Hv _].
    rewrite Hv, Hrest. auto.
Qed.

Lemma inject_nat_succ k :
  (inject_Z (Z.of_nat (S k)) == inject_Z (Z.of_nat k) + 1)%Q.
Proof.
  rewrite Nat2Z.inj_succ. unfold Z.succ. rewrite inject_Z_plus. reflexivity.
Qed.

Lemma near_ext e e' x x' y :
  (e == e')%Q -> (x == x')%Q -> Rnd.near e x y -> Rnd.near e' x' y.
Proof. unfold Rnd.near. intros -> ->. auto. Qed.

Lemma fold_squares_near values : forall acc A k,
  Rnd.is_nonneg acc = true -> (0 <= A)%Q ->
  Rnd.near (3 * inject_Z (Z.of_nat k) * Rnd.u * A
            + 3 * inject_Z (Z.of_nat k) * Rnd.eta) A (Rnd.mag acc) ->
  Z.of_nat (k + length values) <= 1048576 ->
  is_finite_f32
    (fold_left (fun sum v => F32.add sum (F32.mul v v)) values acc) = true ->
  Rnd.is_nonneg
    (fold_left (fun sum v => F32.add sum (F32.mul v v)) values acc) = true /\
  Rnd.near
    (3 * inject_Z (Z.of_nat (k + length values)) * Rnd.u
       * (A + Rnd.sumsq values)
     + 3 * inject_Z (Z.of_nat (k + length values)) * Rnd.eta)
    (A + Rnd.sumsq values)
    (Rnd.mag (fold_left (fun sum v => F32.add sum (F32.mul v v)) values acc)).
Proof.
  induction values as [|v rest IH]; intros acc A k Hacc HA Hnear Hlen Hfin;
    cbn [fold_left length Rnd.sumsq] in *.
  - split; [exact Hacc|]. rewrite Nat.add_0_r.
    eapply near_ext; [| |exact Hnear]; ring.
  - destruct (fold_squares_finite _ _ Hfin) as [Hstep _].
    destruct (add_finite_inv _ _ Hstep) as [_ Hsq].
    pose proof (mul_near v v Hsq) as Hq.
    pose proof (mul_self_nonneg v Hsq) as Hqn.
    destruct (add_near acc (F32.mul v v) Hacc Hqn Hstep) as [Hsn Hs].
    assert (Hv2 : (0 <= Rnd.mag v * Rnd.mag v)%Q)
      by (pose proof (mag_nonneg v); nra).
    assert (Hk0 : (0 <= inject_Z (Z.of_nat k))%Q).
    { change 0%Q with (inject_Z 0). rewrite <- Zle_Qle. lia. }
    assert (Hk1 : (inject_Z (Z.of_nat k) <= 1048576)%Q).
    { change 1048576%Q with (inject_Z 1048576). rewrite <- Zle_Qle. lia. }
    pose proof (sum_step _ _ _ _ _ _ Hk0 Hk1 HA Hv2 Hnear Hq Hs) as Hnext.
    destruct (IH (F32.add acc (F32.mul v v))
                (A + Rnd.mag v * Rnd.mag v)%Q (S k) Hsn ltac:(lra))
      as [Hn' Hnear']; [| lia | exact Hfin |].
    + eapply near_ext; [| |exact Hnext];
        rewrite ?inject_nat_succ; ring.
    + split; [exact Hn'|].
      replace (k + S (length rest))%nat with (S k + length rest)%nat by lia.
      eapply near_ext; [| |exact Hnear']; ring.
Qed.

(** The computed sum of squares against the exact one. *)
Lemma sum_squares_near values :
  Z.of_nat (length values) <= 1048576 ->
  is_finite_f32 (sum_squares values) = true ->
  forallb is_finite_f32 values = true /\
  Rnd.is_nonneg (sum_squares values) = true /\
  Rnd.near
    (3 * inject_Z (Z.of_nat (length values)) * Rnd.u * Rnd.sumsq values
     + 3 * inject_Z (Z.of_nat (length values)) * Rnd.eta)
    (Rnd.sumsq values) (Rnd.mag (sum_squares values)).
Proof.
  intros Hlen Hfin. unfold sum_squares in *.
  destruct (fold_squares_finite _ _ Hfin) as [_ Hall].
  split; [exact Hall|].
  destruct (fold_squares_near values F32.zero 0%Q 0%nat eq_refl
              ltac:(lra)) as [Hn Hnear]; [| lia | exact Hfin |].
  - unfold Rnd.near, F32.zero. cbn [Rnd.mag].
    change (inject_Z (Z.of_nat 0)) with 0%Q. split; lra.
  - split; [exact Hn|]. cbn [Nat.add] in Hnear.
    eapply near_ext; [| |exact Hnear]; ring.
Qed.

End SumOfSquares.

Section SquareRoot.

Lemma fexp32_mono a b : a <= b -> Rnd.fexp32 a <= Rnd.fexp32 b.
Proof. rewrite !fexp32_eq. lia. Qed.

Lemma pow2_double e : (2 ^ (2 * e) == 2 ^ e * 2 ^ e)%Q.
Proof. replace (2 * e) with (e + e) by lia. apply pow2_add. Qed.

(** What [SFsqrt_core_binary] hands to the rounding: the integer square
    root [q] of the mantissa scaled to an even exponent [2 e'], and where
    the exact root lies between [q] and [q + 1]. *)
Lemma sqrt_core_spec mx ex :
  let '(q, e', l) := SFsqrt_core_binary F32.prec F32.emax (Z.pos mx) ex in
  exists rem,
    0 < q /\ 0 <= rem <= 2 * q /\
    ((inject_Z q * inject_Z q + inject_Z rem) * (2 ^ e' * 2 ^ e')
     == Rnd.val (Z.pos mx) ex)%Q /\
    l = (if rem =? 0 then loc_Exact
         else loc_Inexact (if rem <=? q then Lt else Gt)) /\
    e' <= Rnd.fexp32 (Zdigits2 q + e').
Proof.
  unfold SFsqrt_core_binary.
  set (d := Zdigits2 (Z.pos mx)).
  fold (Rnd.fexp32 (Z.div2 (d + ex + 1))).
  set (e' := Z.min (Rnd.fexp32 (Z.div2 (d + ex + 1))) (Z.div2 ex)).
  set (s := ex - 2 * e').
  pose proof (Zdigits2_bounds (Z.pos mx) ltac:(lia)) as [Hdlo Hdhi].
  pose proof (Zdigits2_pos (Z.pos mx) ltac:(lia)) as Hdpos.
  fold d in Hdlo, Hdhi, Hdpos.
  assert (Hs : 0 <= s).
  { unfold s, e'. rewrite !Z.div2_div. Z.div_mod_to_equations. lia. }
  set (m' := match s with
             | 0 => Z.pos mx
             | Z.pos _ => Z.shiftl (Z.pos mx) s
             | Z.neg _ => 0
             end).
  assert (Em' : m' = Z.pos mx * 2 ^ s).
  { unfold m'. destruct s as [|p|p] eqn:Es; [cbn; lia| |lia].
    apply Z.shiftl_mul_pow2. lia. }
  assert (Hpows : 0 < 2 ^ s) by (apply Z.pow_pos_nonneg; lia).
  assert (Hm' : 0 < m') by nia.
  pose proof (Z.sqrtrem_spec m' ltac:(lia)) as Hsq.
  destruct (Z.sqrtrem m') as [q rem]. destruct Hsq as [Eq Hrem].
  exists rem.
  assert (Hq : 0 < q) by nia.
  split; [exact Hq|]. split; [exact Hrem|]. split; [|split; [reflexivity|]].
  - unfold Rnd.val. rewrite <- pow2_double.
    rewrite <- !inject_Z_mult, <- inject_Z_plus, <- Eq, Em'.
    rewrite inject_Z_mult, pow2_Z by lia.
    rewrite <- Qmult_assoc, <- pow2_add.
    replace (s + 2 * e') with ex by (unfold s; lia). reflexivity.
  - (* the root has enough digits *)
    set (j := Z.div2 (d + s + 1) - 1).
    assert (Hj : 0 <= j)
      by (unfold j; rewrite Z.div2_div; Z.div_mod_to_equations; lia).
    assert (Hj2 : 2 * j <= d + s - 1)
      by (unfold j; rewrite Z.div2_div; Z.div_mod_to_equations; lia).
    assert (Hlow : 2 ^ (2 * j) <= m').
    { rewrite Em'. apply Z.le_trans with (2 ^ (d + s - 1)).
      - apply Z.pow_le_mono_r; lia.
      - replace (d + s - 1) with ((d - 1) + s) by lia.
        rewrite Z.pow_add_r by lia. nia. }
    assert (Hqj : 2 ^ j <= q).
    { destruct (Z.le_gt_cases (2 ^ j) q) as [|Hlt]; [assumption|].
      replace (2 * j) with (j + j) in Hlow by lia.
      rewrite Z.pow_add_r in Hlow by lia.
      pose proof (Z.pow_pos_nonneg 2 j ltac:(lia) Hj). nia. }
    pose proof (Zdigits2_ge q j Hj Hqj) as Hdq.
    apply Z.le_trans with (Rnd.fexp32 (Z.div2 (d + ex + 1))); [unfold e'; lia|].
    apply fexp32_mono. unfold j, s in Hdq. rewrite !Z.div2_div in *.
    Z.div_mod_to_equations. lia.
Qed.

Lemma sq_le_inv a b : (0 <= a)%Q -> (0 <= b)%Q -> (a * a <= b * b)%Q ->
  (a <= b)%Q.
Proof.
  intros Ha Hb H. destruct (Qlt_le_dec b a) as [Hlt|]; [|assumption]. nra.
Qed.

(** A bound that holds at every point of an open interval holds at its
    ends. *)
Lemma closure_upper a b c y :
  (a < b)%Q -> (0 <= c)%Q ->
  (forall p, (a < p)%Q -> (p < b)%Q -> (y <= c * p)%Q) -> (y <= c * a)%Q.
Proof.
  intros Hab Hc H. destruct (Qlt_le_dec (c * a) y) as [Hlt|]; [|assumption].
  exfalso.
  assert (Hcpos : (0 < c)%Q).
  { destruct (Qlt_le_dec 0 c) as [|Hc0]; [assumption|].
    assert (E : (c == 0)%Q) by lra.
    specialize (H ((a + b) * (1 # 2))%Q ltac:(lra) ltac:(lra)).
    rewrite E in *. lra. }
  destruct (Qlt_le_dec (c * b) y) as [Hb|Hb].
  - specialize (H ((a + b) * (1 # 2))%Q ltac:(lra) ltac:(lra)). nra.
  - set (p := ((a + y / c) * (1 # 2))%Q).
    assert (Ey : (c * (y / c) == y)%Q) by (field; lra).
    assert (Hyc1 : (a < y / c)%Q).
    { apply Qmult_lt_l with c; [exact Hcpos|]. rewrite Ey. exact Hlt. }
    assert (Hyc2 : (y / c <= b)%Q).
    { apply Qmult_le_l with c; [exact Hcpos|]. rewrite Ey. exact Hb. }
    specialize (H p ltac:(unfold p; lra) ltac:(unfold p; lra)).
    unfold p in H. nra.
Qed.

Lemma closure_lower a b c y :
  (a < b)%Q -> (0 <= c)%Q ->
  (forall p, (a < p)%Q -> (p < b)%Q -> (c * p <= y)%Q) -> (c * b <= y)%Q.
Proof.
  intros Hab Hc H. destruct (Qlt_le_dec y (c * b)) as [Hlt|]; [|assumption].
  exfalso.
  assert (Hcpos : (0 < c)%Q).
  { destruct (Qlt_le_dec 0 c) as [|Hc0]; [assumption|].
    assert (E : (c == 0)%Q) by lra.
    specialize (H ((a + b) * (1 # 2))%Q ltac:(lra) ltac:(lra)).
    rewrite E in *. lra. }
  destruct (Qlt_le_dec y (c * a)) as [Ha|Ha].
  - specialize (H ((a + b) * (1 # 2))%Q ltac:(lra) ltac:(lra)). nra.
  - set (p := ((b + y / c) * (1 # 2))%Q).
    assert (Ey : (c * (y / c) == y)%Q) by (field; lra).
    assert (Hyc1 : (y / c < b)%Q).
    { apply Qmult_lt_l with c; [exact Hcpos|]. rewrite Ey. exact Hlt. }
    assert (Hyc2 : (a <= y / c)%Q).
    { apply Qmult_le_l with c; [exact Hcpos|]. rewrite Ey. exact Ha. }
    specialize (H p ltac:(unfold p; lra) ltac:(unfold p; lra)).
    unfold p in H. nra.
Qed.

Lemma sq_le_mono a b : (0 <= a)%Q -> (a <= b)%Q -> (a * a <= b * b)%Q.
Proof. intros. nra. Qed.

(** Where [SFsqrt_core_binary] places the root: between [lo] and [hi]. *)
Lemma sqrt_location q rem :
  0 < q -> 0 <= rem <= 2 * q ->
  let l := if rem =? 0 then loc_Exact
           else loc_Inexact (if rem <=? q then Lt else Gt) in
  exists lo hi : Q,
    (inject_Z q <= lo)%Q /\ (lo <= hi)%Q /\ (hi <= inject_Z q + 1)%Q /\
    (lo * lo <= inject_Z q * inject_Z q + inject_Z rem)%Q /\
    (inject_Z q * inject_Z q + inject_Z rem <= hi * hi)%Q /\
    ((lo == hi)%Q /\ Rnd.located (shr_record_of_loc q l) lo \/
     (lo < hi)%Q /\
     forall p, (lo < p)%Q -> (p < hi)%Q ->
               Rnd.located (shr_record_of_loc q l) p).
Proof.
  intros Hq Hrem l. unfold l.
  assert (Hq0 : (0 < inject_Z q)%Q).
  { change 0%Q with (inject_Z 0). rewrite <- Zlt_Qlt. exact Hq. }
  destruct (rem =? 0) eqn:E0.
  - apply Z.eqb_eq in E0. subst rem. change (inject_Z 0) with 0%Q.
    exists (inject_Z q), (inject_Z q).
    repeat (split; try lra).
    left. split; [reflexivity|]. apply located_exact.
  - apply Z.eqb_neq in E0.
    assert (Hr1 : (1 <= inject_Z rem)%Q).
    { change 1%Q with (inject_Z 1). rewrite <- Zle_Qle. lia. }
    assert (Hr2 : (inject_Z rem <= 2 * inject_Z q)%Q).
    { change 2%Q with (inject_Z 2). rewrite <- inject_Z_mult, <- Zle_Qle.
      lia. }
    destruct (rem <=? q) eqn:E1.
    + apply Z.leb_le in E1.
      assert (Hr3 : (inject_Z rem <= inject_Z q)%Q)
        by (rewrite <- Zle_Qle; exact E1).
      exists (inject_Z q), (inject_Z q + (1 # 2))%Q.
      repeat (split; try nra).
      right. split; [lra|]. intros p Hlo Hhi.
      unfold Rnd.located; cbn [shr_record_of_loc shr_m shr_r shr_s]. split; lra.
    + apply Z.leb_gt in E1.
      assert (Hr3 : (inject_Z q + 1 <= inject_Z rem)%Q).
      { change 1%Q with (inject_Z 1). rewrite <- inject_Z_plus, <- Zle_Qle.
        lia. }
      exists (inject_Z q + (1 # 2))%Q, (inject_Z q + 1)%Q.
      repeat (split; try nra).
      right. split; [lra|]. intros p Hlo Hhi.
      unfold Rnd.located; cbn [shr_record_of_loc shr_m shr_r shr_s]. split; lra.
Qed.

(** The square root of a number of moderate size is a normal number whose
    square is the argument up to two roundings. *)
Lemma sqrt_near mx ex :
  (2 ^ (-100) <= Rnd.val (Z.pos mx) ex)%Q ->
  (Rnd.val (Z.pos mx) ex <= 2 ^ 100)%Q ->
  exists mr er,
    F32.sqrt (S754_finite false mx ex) = S754_finite false mr er /\
    2 ^ 23 <= Z.pos mr < 2 ^ 24 /\
    ((1 - Rnd.u) * (1 - Rnd.u) * Rnd.val (Z.pos mx) ex
     <= Rnd.val (Z.pos mr) er * Rnd.val (Z.pos mr) er)%Q /\
    (Rnd.val (Z.pos mr) er * Rnd.val (Z.pos mr) er
     <= (1 + Rnd.u) * (1 + Rnd.u) * Rnd.val (Z.pos mx) ex)%Q.
Proof.
  intros Hlow Hhigh. unfold F32.sqrt. cbn [SFsqrt].
  pose proof (sqrt_core_spec mx ex) as Hcore.
  destruct (SFsqrt_core_binary _ _ _ _) as [[q e'] l].
  destruct Hcore as (rem & Hq & Hrem & EV & -> & Hreg).
  set (V := Rnd.val (Z.pos mx) ex) in *.
  destruct (sqrt_location q rem Hq Hrem)
    as (lo & hi & Hlo & Hlh & Hhi & Hsq1 & Hsq2 & Hloc).
  cbv zeta in Hloc.
  set (l := if rem =? 0 then loc_Exact
            else loc_Inexact (if rem <=? q then Lt else Gt)) in *.
  pose proof (pow2_pos e') as Hw. set (w := (2 ^ e')%Q) in *.
  assert (Hq1 : (1 <= inject_Z q)%Q).
  { change 1%Q with (inject_Z 1). rewrite <- Zle_Qle. lia. }
  assert (Hr0 : (0 <= inject_Z rem)%Q).
  { change 0%Q with (inject_Z 0). rewrite <- Zle_Qle. lia. }
  assert (Hr2 : (inject_Z rem <= 2 * inject_Z q)%Q).
  { change 2%Q with (inject_Z 2). rewrite <- inject_Z_mult, <- Zle_Qle.
    lia. }
  set (t := (inject_Z q * w)%Q).
  assert (Ht0 : (0 < t)%Q) by (unfold t; nra).
  assert (Ett : (t * t == inject_Z q * inject_Z q * (w * w))%Q)
    by (unfold t; ring).
  assert (Hww : (0 < w * w)%Q) by nra.
  (* the root is of moderate size *)
  assert (Ht1 : (2 ^ (-51) <= t)%Q).
  { apply sq_le_inv; [apply Qlt_le_weak, pow2_pos|lra|].
    rewrite <- pow2_add. change (-51 + -51) with (-102).
    assert (E : (2 ^ (-100) == 4 * 2 ^ (-102))%Q) by reflexivity.
    assert (Hrq : (inject_Z rem <= 2 * (inject_Z q * inject_Z q))%Q) by nra.
    pose proof (Qmult_le_compat_r _ _ (w * w) Hrq ltac:(lra)) as Hrw.
    lra. }
  assert (Ht2 : (t <= 2 ^ 50)%Q).
  { apply sq_le_inv; [lra|apply Qlt_le_weak, pow2_pos|].
    rewrite <- pow2_add. change (50 + 50) with 100.
    pose proof (Qmult_le_0_compat _ _ Hr0 (Qlt_le_weak _ _ Hww)) as Hrw.
    lra. }
  (* a point at which the rounding can be read *)
  assert (Hpt : exists p0, Rnd.located (shr_record_of_loc q l) p0 /\
                           (lo <= p0)%Q /\ (p0 <= hi)%Q).
  { destruct Hloc as [[E L]|[Hlt L]].
    - exists lo. split; [exact L|]. lra.
    - exists ((lo + hi) * (1 # 2))%Q. split; [apply L; lra|]. lra. }
  destruct Hpt as (p0 & Lp0 & Hp0lo & Hp0hi).
  pose proof (fun p Hp =>
                binary_round_aux_spec false q e' l p Hq Hp (or_introl Hreg))
    as Hspec. cbv zeta in Hspec. fold w in Hspec.
  assert (Hsmall : (2 ^ (-126) <= 2 ^ (-51))%Q) by (apply pow2_le; lia).
  assert (Heta : (Rnd.eta < 2 ^ (-51))%Q) by (apply pow2_lt; lia).
  assert (Hbig : (2 ^ 51 < 2 ^ 127)%Q) by (apply pow2_lt; lia).
  assert (H51 : (2 ^ 51 == 2 * 2 ^ 50)%Q) by reflexivity.
  destruct (binary_round_aux F32.prec F32.emax false q e' l)
    as [s|s| |s mr er].
  - (* not zero *)
    exfalso. destruct (Hspec p0 Lp0) as [_ H].
    assert (t <= p0 * w)%Q by (unfold t; nra). lra.
  - (* not an infinity *)
    exfalso. destruct (Hspec p0 Lp0) as [_ H]. specialize (H Hreg).
    assert (p0 * w <= 2 * t)%Q by (unfold t; nra). lra.
  - destruct (Hspec p0 Lp0).
  - exists mr, er.
    assert (Hs : s = false) by (destruct (Hspec p0 Lp0) as [-> _]; reflexivity).
    subst s. split; [reflexivity|].
    assert (Hnormal : forall p, Rnd.located (shr_record_of_loc q l) p ->
              (inject_Z q <= p)%Q ->
              2 ^ 23 <= Z.pos mr /\
              Rnd.near (Rnd.u * (p * w)) (p * w) (Rnd.val (Z.pos mr) er)).
    { intros p Lp Hqp. destruct (Hspec p Lp) as (_ & _ & _ & _ & H).
      apply H; [exact Hreg|].
      assert (t <= p * w)%Q by (unfold t; nra). lra. }
    destruct (Hspec p0 Lp0) as (_ & Hmr & _).
    destruct (Hnormal p0 Lp0 ltac:(lra)) as [Hmr' _].
    split; [lia|].
    set (y := Rnd.val (Z.pos mr) er) in *.
    assert (Hy0 : (0 <= y)%Q) by (apply val_nonneg; lia).
    pose proof u_eq as Hu.
    (* the bounds at the ends of the interval *)
    assert (Hends : (y <= (1 + Rnd.u) * w * lo)%Q /\
                    ((1 - Rnd.u) * w * hi <= y)%Q).
    { destruct Hloc as [[E L]|[Hlt L]].
      - destruct (Hnormal lo L Hlo) as [_ [H1 H2]].
        rewrite <- E. split; lra.
      - split.
        + apply (closure_upper lo hi); [exact Hlt|rewrite Hu; nra|].
          intros p Hp1 Hp2.
          destruct (Hnormal p (L p Hp1 Hp2) ltac:(lra)) as [_ [H1 H2]].
          lra.
        + apply (closure_lower lo hi); [exact Hlt|rewrite Hu; nra|].
          intros p Hp1 Hp2.
          destruct (Hnormal p (L p Hp1 Hp2) ltac:(lra)) as [_ [H1 H2]].
          lra. }
    destruct Hends as [Hup Hdown].
    assert (Hlo0 : (0 <= lo)%Q) by lra.
    assert (Hhi0 : (0 <= hi)%Q) by lra.
    assert (HVlo : (w * lo * (w * lo) <= V)%Q).
    { rewrite <- EV.
      assert (E : (w * lo * (w * lo) == lo * lo * (w * w))%Q) by ring.
      rewrite E.
      apply Qmult_le_compat_r; lra. }
    assert (HVhi : (V <= w * hi * (w * hi))%Q).
    { rewrite <- EV.
      assert (E : (w * hi * (w * hi) == hi * hi * (w * w))%Q) by ring.
      rewrite E.
      apply Qmult_le_compat_r; lra. }
    rewrite Hu in *.
    assert (Hwlo : (0 <= w * lo)%Q) by nra.
    assert (Hwhi : (0 <= w * hi)%Q) by nra.
    split.
    + pose proof (sq_le_mono ((1 - (1 # 16777216)) * w * hi) y
                    ltac:(nra) Hdown) as Hsq.
      nra.
    + pose proof (sq_le_mono y ((1 + (1 # 16777216)) * w * lo) Hy0 Hup)
        as Hsq.
      nra.
Qed.

End SquareRoot.

Section Reciprocal.

(** Where [new_location] places a quotient with remainder [r]. *)
Lemma new_location_located m q r :
  0 < m -> 0 <= r < m ->
  Rnd.located (shr_record_of_loc q (new_location m r))
    (inject_Z q + inject_Z r / inject_Z m)%Q.
Proof.
  intros Hm Hr.
  assert (Hm0 : (0 < inject_Z m)%Q).
  { change 0%Q with (inject_Z 0). rewrite <- Zlt_Qlt. exact Hm. }
  set (rho := (inject_Z r / inject_Z m)%Q).
  assert (Erho : (rho * inject_Z m == inject_Z r)%Q)
    by (unfold rho; field; lra).
  assert (Hcmp : forall a b : Z, a < b -> (inject_Z a < inject_Z b)%Q)
    by (intros; rewrite <- Zlt_Qlt; assumption).
  assert (H2r : (inject_Z (2 * r) == 2 * inject_Z r)%Q)
    by (rewrite inject_Z_mult; reflexivity).
  unfold new_location, new_location_even, new_location_odd.
  destruct (Z.eq_dec r 0) as [E0|E0].
  { assert (E : (rho == 0)%Q) by (unfold rho; rewrite E0; field; lra).
    rewrite E0.
    destruct (Z.even m); cbv beta; change (0 =? 0) with true; cbv iota;
      unfold Rnd.located; cbn [shr_record_of_loc shr_m shr_r shr_s];
      rewrite E; lra. }
  assert (Hr0 : (0 < inject_Z r)%Q) by (apply (Hcmp 0 r); lia).
  assert (Hrm : (inject_Z r < inject_Z m)%Q) by (apply Hcmp; lia).
  assert (Hrho0 : (0 < rho)%Q) by nra.
  assert (Hrho1 : (rho < 1)%Q) by nra.
  destruct (Z.even m) eqn:Ev; cbv beta;
    rewrite (proj2 (Z.eqb_neq r 0) E0).
  - destruct (Z.compare_spec (2 * r) m) as [E|E|E].
    + assert (Eh : (rho == 1 # 2)%Q).
      { rewrite <- E, H2r in Erho. nra. }
      unfold Rnd.located; cbn [shr_record_of_loc shr_m shr_r shr_s]. rewrite Eh. lra.
    + apply Hcmp in E. rewrite H2r in E.
      unfold Rnd.located; cbn [shr_record_of_loc shr_m shr_r shr_s]. split; nra.
    + apply Hcmp in E. rewrite H2r in E.
      unfold Rnd.located; cbn [shr_record_of_loc shr_m shr_r shr_s]. split; nra.
  - assert (Hne : 2 * r <> m).
    { intros E. rewrite <- E, Z.even_mul in Ev. discriminate. }
    destruct (Z.compare_spec (2 * r + 1) m) as [E|E|E].
    + assert (E' : 2 * r < m) by lia.
      apply Hcmp in E'. rewrite H2r in E'.
      unfold Rnd.located; cbn [shr_record_of_loc shr_m shr_r shr_s]. split; nra.
    + assert (E' : 2 * r < m) by lia.
      apply Hcmp in E'. rewrite H2r in E'.
      unfold Rnd.located; cbn [shr_record_of_loc shr_m shr_r shr_s]. split; nra.
    + assert (E' : m < 2 * r) by lia.
      apply Hcmp in E'. rewrite H2r in E'.
      unfold Rnd.located; cbn [shr_record_of_loc shr_m shr_r shr_s]. split; nra.
Qed.

Lemma Zdigits2_eq m k : 0 < k -> 2 ^ (k - 1) <= m < 2 ^ k -> Zdigits2 m = k.
Proof.
  intros Hk [Hlo Hhi].
  assert (Hm : 0 < m) by (pose proof (Z.pow_pos_nonneg 2 (k - 1)); lia).
  pose proof (Zdigits2_le m k Hm Hhi).
  pose proof (Zdigits2_ge m (k - 1) ltac:(lia) Hlo). lia.
Qed.

(** The reciprocal of a normal number of moderate size. *)
Lemma inv_near mr er :
  2 ^ 23 <= Z.pos mr < 2 ^ 24 ->
  (2 ^ (-52) <= Rnd.val (Z.pos mr) er)%Q ->
  (Rnd.val (Z.pos mr) er <= 2 ^ 52)%Q ->
  exists mi ei,
    F32.div F32.one (S754_finite false mr er) = S754_finite false mi ei /\
    2 ^ 23 <= Z.pos mi < 2 ^ 24 /\
    (1 - Rnd.u <= Rnd.val (Z.pos mi) ei * Rnd.val (Z.pos mr) er)%Q /\
    (Rnd.val (Z.pos mi) ei * Rnd.val (Z.pos mr) er <= 1 + Rnd.u)%Q.
Proof.
  intros Hmr Hlow Hhigh.
  set (y := Rnd.val (Z.pos mr) er) in *.
  assert (Hmq : (8388608 <= inject_Z (Z.pos mr))%Q /\
                (inject_Z (Z.pos mr) < 16777216)%Q).
  { change 8388608%Q with (inject_Z (2 ^ 23)).
    change 16777216%Q with (inject_Z (2 ^ 24)).
    rewrite <- Zle_Qle, <- Zlt_Qlt. exact Hmr. }
  pose proof (pow2_pos er) as Hwer.
  (* the exponent is moderate *)
  assert (Her : -76 <= er <= 29).
  { split.
    - assert (H : (2 ^ (-52) < 2 ^ (24 + er))%Q).
      { apply Qle_lt_trans with y; [exact Hlow|].
        unfold y, Rnd.val. rewrite pow2_add.
        change (2 ^ 24)%Q with 16777216%Q. nra. }
      apply Qpower_lt_compat_l_inv in H; [lia|reflexivity].
    - assert (H : (2 ^ (23 + er) <= 2 ^ 52)%Q).
      { apply Qle_trans with y; [|exact Hhigh].
        unfold y, Rnd.val. rewrite pow2_add.
        change (2 ^ 23)%Q with 8388608%Q. nra. }
      apply Qpower_le_compat_l_inv in H; [lia|reflexivity]. }
  unfold F32.div, F32.one. cbn [SFdiv xorb]. unfold SFdiv_core_binary.
  rewrite (Zdigits2_eq (Z.pos mr) 24 ltac:(lia) Hmr).
  change (Zdigits2 8388608) with 24.
  fold (Rnd.fexp32 (24 + -23 - (24 + er))). rewrite fexp32_eq.
  replace (Z.min (Z.max (24 + -23 - (24 + er) - 24) (-149)) (-23 - er))
    with (-47 - er) by lia.
  replace (-23 - er - (-47 - er)) with 24 by lia.
  change (Z.shiftl 8388608 24) with (2 ^ 47).
  pose proof (Z_div_mod (2 ^ 47) (Z.pos mr) ltac:(lia)) as Hdiv.
  destruct (Z.div_eucl (2 ^ 47) (Z.pos mr)) as [q r].
  destruct Hdiv as [Eq Hr].
  assert (Hq : 2 ^ 23 <= q <= 2 ^ 24) by nia.
  pose proof (new_location_located (Z.pos mr) q r ltac:(lia) Hr) as Hloc.
  set (p := (inject_Z q + inject_Z r / inject_Z (Z.pos mr))%Q) in *.
  assert (Hreg : -47 - er <= Rnd.fexp32 (Zdigits2 q + (-47 - er))).
  { rewrite fexp32_eq.
    pose proof (Zdigits2_ge q 23 ltac:(lia) ltac:(lia)). lia. }
  pose proof (binary_round_aux_spec false q (-47 - er)
                (new_location (Z.pos mr) r) p ltac:(lia) Hloc
                (or_introl Hreg)) as Hspec.
  cbv zeta in Hspec.
  (* the exact quotient *)
  assert (EX : (p * 2 ^ (-47 - er) * y == 1)%Q).
  { unfold p, y, Rnd.val.
    assert (E47 : (inject_Z (2 ^ 47)
                   == inject_Z (Z.pos mr) * inject_Z q + inject_Z r)%Q).
    { rewrite Eq, inject_Z_plus, inject_Z_mult. reflexivity. }
    assert (Ew : (2 ^ (-47 - er) * 2 ^ er == / inject_Z (2 ^ 47))%Q).
    { rewrite <- pow2_add. replace (-47 - er + er) with (-47) by lia.
      reflexivity. }
    transitivity ((inject_Z (Z.pos mr) * inject_Z q + inject_Z r)
                  * (2 ^ (-47 - er) * 2 ^ er))%Q; [field; lra|].
    rewrite Ew, <- E47. field. discriminate. }
  set (X := (p * 2 ^ (-47 - er))%Q) in *.
  assert (Hy0 : (0 < y)%Q) by (apply val_pos; lia).
  assert (E52 : (2 ^ (-52) * 2 ^ 52 == 1)%Q) by reflexivity.
  assert (H52 : (0 < 2 ^ 52)%Q) by apply pow2_pos.
  assert (H52' : (0 < 2 ^ (-52))%Q) by apply pow2_pos.
  assert (HX1 : (2 ^ (-52) <= X)%Q).
  { destruct (Qlt_le_dec X (2 ^ (-52))) as [Hlt|]; [|assumption]. nra. }
  assert (HX2 : (X <= 2 ^ 52)%Q).
  { destruct (Qlt_le_dec (2 ^ 52) X) as [Hlt|]; [|assumption]. nra. }
  assert (Hsmall : (2 ^ (-126) <= 2 ^ (-52))%Q) by (apply pow2_le; lia).
  assert (Heta : (Rnd.eta < 2 ^ (-52))%Q) by (apply pow2_lt; lia).
  assert (Hbig : (2 ^ 52 < 2 ^ 127)%Q) by (apply pow2_lt; lia).
  destruct (binary_round_aux F32.prec F32.emax false q (-47 - er) _)
    as [s|s| |s mi ei].
  - exfalso. destruct Hspec as [_ H]. lra.
  - exfalso. destruct Hspec as [_ H]. specialize (H Hreg). lra.
  - destruct Hspec.
  - destruct Hspec as (-> & Hmi & _ & _ & H).
    destruct (H Hreg ltac:(lra)) as [Hmi' [H1 H2]].
    exists mi, ei. split; [reflexivity|]. split; [lia|].
    set (w := Rnd.val (Z.pos mi) ei) in *.
    pose proof u_eq as Hu. rewrite Hu in *. split; nra.
Qed.

End Reciprocal.

Section UnitNorm.

Lemma eta_eq :
  (Rnd.eta == 1 # 1427247692705959881058285969449495136382746624)%Q.
Proof. reflexivity. Qed.

Lemma pow2_m100 : (2 ^ (-100) == 1 # 1267650600228229401496703205376)%Q.
Proof. reflexivity. Qed.

(** The exact norm of the scaled vector, before its elements are rounded:
    [T = w^2 S] where [w] is the computed reciprocal root of the computed
    sum [V] of the squares, and [S] their exact sum. *)
Lemma scaled_norm_bounds (n S V y w : Q) :
  (0 <= n)%Q -> (n <= 65536)%Q -> (0 <= S)%Q ->
  Rnd.near (3 * n * Rnd.u * S + 3 * n * Rnd.eta) S V ->
  (2 ^ (-100) <= V)%Q ->
  ((1 - Rnd.u) * (1 - Rnd.u) * V <= y * y)%Q ->
  (y * y <= (1 + Rnd.u) * (1 + Rnd.u) * V)%Q ->
  (0 <= y)%Q -> (0 <= w)%Q ->
  (1 - Rnd.u <= w * y)%Q -> (w * y <= 1 + Rnd.u)%Q ->
  (1 - (4 * n + 6) * Rnd.u <= w * w * S)%Q /\
  (w * w * S <= 1 + (4 * n + 6) * Rnd.u)%Q.
Proof.
  intros Hn0 Hn1 HS [HV1 HV2] HV Hy1 Hy2 Hy Hw Hwy1 Hwy2.
  rewrite u_eq, eta_eq in *. rewrite pow2_m100 in HV.
  set (W := (w * w)%Q).
  assert (HW : (0 <= W)%Q) by (unfold W; nra).
  (* (w y)^2 *)
  assert (Hsq1 : ((1 - (1 # 16777216)) * (1 - (1 # 16777216))
                  <= W * (y * y))%Q).
  { pose proof (sq_le_mono (1 - (1 # 16777216)) (w * y) ltac:(lra) Hwy1).
    unfold W. nra. }
  assert (Hsq2 : (W * (y * y)
                  <= (1 + (1 # 16777216)) * (1 + (1 # 16777216)))%Q).
  { pose proof (sq_le_mono (w * y) (1 + (1 # 16777216)) ltac:(nra) Hwy2).
    unfold W. nra. }
  (* P = w^2 V *)
  set (P := (W * V)%Q).
  assert (HP1 : (1 - 5 * (1 # 16777216) <= P)%Q).
  { pose proof (Qmult_le_compat_r _ _ W Hy2 HW) as H. unfold P. nra. }
  assert (HP2 : (P <= 1 + 5 * (1 # 16777216))%Q).
  { pose proof (Qmult_le_compat_r _ _ W Hy1 HW) as H. unfold P. nra. }
  (* w^2 is moderate *)
  assert (HW2 : (W <= 2535301200456458802993406410752)%Q).
  { unfold P in HP2. nra. }
  (* T = w^2 S against P *)
  set (T := (W * S)%Q).
  assert (HT0 : (0 <= T)%Q) by (unfold T; nra).
  assert (HnW : (n * W <= 65536 * 2535301200456458802993406410752)%Q) by nra.
  assert (HnW0 : (0 <= n * W)%Q) by nra.
  assert (HT1 : (P - T <= 3 * (1 # 16777216) * (n * T)
                          + 3 * (1 # 1427247692705959881058285969449495136382746624) * (n * W))%Q).
  { pose proof (Qmult_le_compat_r _ _ W HV1 HW) as H. unfold P, T. nra. }
  assert (HT2 : (T - P <= 3 * (1 # 16777216) * (n * T)
                          + 3 * (1 # 1427247692705959881058285969449495136382746624) * (n * W))%Q).
  { pose proof (Qmult_le_compat_r _ _ W HV2 HW) as H. unfold P, T. nra. }
  assert (HnT0 : (0 <= n * T)%Q) by nra.
  assert (HnT1 : (n * T <= 65536 * T)%Q) by nra.
  assert (HTle : (T <= 51 # 50)%Q) by lra.
  assert (HnT2 : (n * T <= (51 # 50) * n)%Q) by nra.
  fold W. fold T. split; lra.
Qed.

End UnitNorm.

Section Normalised.

(** The square of a rounded product against the square of the exact one. *)
Lemma elem_sq_bounds a o :
  (0 <= a)%Q -> (0 <= o)%Q -> Rnd.near (Rnd.u * a + Rnd.eta) a o ->
  (a * a * ((1 - Rnd.u) * (1 - Rnd.u)) - (1 + a * a) * Rnd.eta <= o * o)%Q /\
  (o * o <= a * a * ((1 + Rnd.u) * (1 + Rnd.u))
            + (1 + Rnd.u) * (1 + a * a) * Rnd.eta + Rnd.eta * Rnd.eta)%Q.
Proof.
  intros Ha Ho [H1 H2]. rewrite u_eq in *.
  pose proof eta_pos as Heta. set (eta := Rnd.eta) in *.
  assert (Hsq : (0 <= (a - 1) * (a - 1))%Q)
    by (destruct (Qlt_le_dec a 1); nra).
  assert (H2a : (2 * a <= 1 + a * a)%Q) by nra.
  split.
  - destruct (Qlt_le_dec (a * (1 - (1 # 16777216))) eta) as [Hlt|Hge].
    + assert (0 <= o * o)%Q by nra. nra.
    + pose proof (sq_le_mono (a * (1 - (1 # 16777216)) - eta) o
                    ltac:(lra) ltac:(lra)).
      nra.
  - pose proof (sq_le_mono o (a * (1 + (1 # 16777216)) + eta) Ho
                  ltac:(lra)).
    nra.
Qed.

Lemma sumsq_nonneg values : (0 <= Rnd.sumsq values)%Q.
Proof.
  induction values as [|v rest IH]; cbn [Rnd.sumsq]; [lra|].
  pose proof (mag_nonneg v). nra.
Qed.

Lemma sumsq_elem v values :
  In v values -> (Rnd.mag v * Rnd.mag v <= Rnd.sumsq values)%Q.
Proof.
  induction values as [|v' rest IH]; cbn [In Rnd.sumsq]; [contradiction|].
  pose proof (sumsq_nonneg rest). pose proof (mag_nonneg v').
  intros [->|Hin]; [nra|]. specialize (IH Hin). nra.
Qed.

(** The elements after the scaling loop, against the exactly scaled
    ones. *)
Lemma scaled_sumsq inv values :
  Rnd.normal_pos inv ->
  (forall v, In v values ->
     is_finite_f32 v = true /\
     (Rnd.mag v * Rnd.mag inv * (Rnd.mag v * Rnd.mag inv) <= 2)%Q) ->
  let w := Rnd.mag inv in
  let n := inject_Z (Z.of_nat (length values)) in
  let T := (w * w * Rnd.sumsq values)%Q in
  let out := map (fun v => F32.mul v inv) values in
  forallb is_finite_f32 out = true /\
  (T * ((1 - Rnd.u) * (1 - Rnd.u)) - (n + T) * Rnd.eta <= Rnd.sumsq out)%Q /\
  (Rnd.sumsq out <= T * ((1 + Rnd.u) * (1 + Rnd.u))
                    + (1 + Rnd.u) * (n + T) * Rnd.eta
                    + n * (Rnd.eta * Rnd.eta))%Q.
Proof.
  intros Hinv Hall. cbv zeta.
  set (w := Rnd.mag inv).
  assert (Hw : (0 <= w)%Q) by apply mag_nonneg.
  induction values as [|v rest IH].
  - cbn [map forallb length Rnd.sumsq]. change (inject_Z (Z.of_nat 0)) with 0%Q.
    split; [reflexivity|]. split; lra.
  - destruct (Hall v (or_introl eq_refl)) as [Hv Hsq].
    destruct IH as (Hfin & Hlo & Hhi);
      [intros v' Hin; apply Hall; right; exact Hin|].
    fold w in Hsq. set (a := (Rnd.mag v * w)%Q) in *.
    assert (Ha : (0 <= a)%Q) by (pose proof (mag_nonneg v); unfold a; nra).
    assert (Ha2 : (a <= 2)%Q) by (apply sq_le_inv; lra).
    assert (Hbig : (2 < 2 ^ 127)%Q) by (apply (pow2_lt 1 127); lia).
    assert (Ho : is_finite_f32 (F32.mul v inv) = true)
      by (apply mul_normal_finite; [exact Hv|exact Hinv|fold w; fold a; lra]).
    pose proof (mul_near v inv Ho) as Hnear. fold w in Hnear. fold a in Hnear.
    pose proof (elem_sq_bounds a _ Ha (mag_nonneg _) Hnear) as [Hl Hh].
    cbn [map forallb length Rnd.sumsq]. rewrite Ho, Hfin.
    split; [reflexivity|].
    rewrite inject_nat_succ.
    set (o := Rnd.mag (F32.mul v inv)) in *.
    set (O := Rnd.sumsq (map (fun v0 => F32.mul v0 inv) rest)) in *.
    set (S := Rnd.sumsq rest) in *.
    set (k := inject_Z (Z.of_nat (length rest))) in *.
    assert (E : (w * w * (Rnd.mag v * Rnd.mag v + S) == a * a + w * w * S)%Q)
      by (unfold a; ring).
    rewrite E. split; lra.
Qed.

Lemma to_Q_square x q :
  F32.to_Q x = Some q -> (q * q == Rnd.mag x * Rnd.mag x)%Q.
Proof.
  destruct x as [s|s| |s m e]; cbn [F32.to_Q Rnd.mag]; try discriminate.
  - intros [= <-]. reflexivity.
  - intros [= <-]. unfold Rnd.val. destruct s; ring.
Qed.

Lemma norm2_exact_sumsq values :
  forallb is_finite_f32 values = true ->
  exists q, F32.norm2_exact values = Some q /\ (q == Rnd.sumsq values)%Q.
Proof.
  induction values as [|v rest IH]; cbn [forallb F32.norm2_exact Rnd.sumsq].
  - intros _. exists 0%Q. split; reflexivity.
  - intros [Hv Hrest]%andb_true_iff.
    destruct (IH Hrest) as (r & -> & Er).
    destruct (F32.to_Q v) as [q|] eqn:Eq;
      [|destruct v; discriminate].
    exists (q * q + r)%Q. split; [reflexivity|].
    rewrite (to_Q_square v q Eq), Er. reflexivity.
Qed.

(** [normalize_l2] gives a vector of norm 1, up to rounding, when the
    computed sum of squares is a number of moderate size. *)
Lemma normalize_l2_unit values q :
  Z.of_nat (length values) <= 65536 ->
  F32.to_Q (sum_squares values) = Some q ->
  (2 ^ (-100) <= q)%Q -> (q <= 2 ^ 100)%Q ->
  F32.unit_norm_within (Rnd.norm_tolerance (length values))
    (normalize_l2 values).
Proof.
  intros Hlen Hq Hlow Hhigh.
  pose proof (pow2_pos (-100)) as H100.
  (* the sum is a positive number *)
  destruct (sum_squares values) as [s|s| |s m e] eqn:Esum;
    cbn [F32.to_Q] in Hq; try discriminate.
  { injection Hq as <-. lra. }
  assert (Hs : s = false).
  { destruct s; [|reflexivity]. injection Hq as <-.
    pose proof (val_pos (Z.pos m) e ltac:(lia)) as Hp.
    unfold Rnd.val in Hp. lra. }
  subst s. injection Hq as <-. fold (Rnd.val (Z.pos m) e) in *.
  set (V := Rnd.val (Z.pos m) e) in *.
  assert (Hfin : is_finite_f32 (sum_squares values) = true)
    by (rewrite Esum; reflexivity).
  destruct (sum_squares_near values ltac:(lia) Hfin) as (Hall & _ & Hnear).
  rewrite Esum in Hnear. cbn [Rnd.mag] in Hnear. fold V in Hnear.
  (* the root and its reciprocal *)
  destruct (sqrt_near m e Hlow Hhigh) as (mr & er & Esqrt & Hmr & Hy1 & Hy2).
  fold V in Hy1, Hy2. set (y := Rnd.val (Z.pos mr) er) in *.
  assert (Hy0 : (0 <= y)%Q) by (apply val_nonneg; lia).
  pose proof u_eq as Hu.
  assert (Hylow : (2 ^ (-52) <= y)%Q).
  { apply sq_le_inv; [apply Qlt_le_weak, pow2_pos|exact Hy0|].
    rewrite <- pow2_add. change (-52 + -52) with (-104).
    assert (E : (2 ^ (-100) == 16 * 2 ^ (-104))%Q) by reflexivity.
    pose proof (pow2_pos (-104)). rewrite Hu in Hy1. nra. }
  assert (Hyhigh : (y <= 2 ^ 52)%Q).
  { apply sq_le_inv; [exact Hy0|apply Qlt_le_weak, pow2_pos|].
    rewrite <- pow2_add. change (52 + 52) with 104.
    assert (E : (2 ^ 104 == 16 * 2 ^ 100)%Q) by reflexivity.
    pose proof (pow2_pos 100). rewrite Hu in Hy2. nra. }
  destruct (inv_near mr er Hmr Hylow Hyhigh)
    as (mi & ei & Einv & Hmi & Hw1 & Hw2).
  fold y in Hw1, Hw2.
  set (inv := S754_finite false mi ei).
  assert (Hinv : Rnd.normal_pos inv) by (exists mi, ei; auto).
  assert (Einv' : inv_norm (S754_finite false m e) = inv).
  { unfold inv_norm. rewrite Esqrt. exact Einv. }
  set (w := Rnd.val (Z.pos mi) ei) in *.
  assert (Hw0 : (0 <= w)%Q) by (apply val_nonneg; lia).
  (* the exactly scaled vector *)
  set (n := inject_Z (Z.of_nat (length values))).
  assert (Hn0 : (0 <= n)%Q).
  { unfold n. change 0%Q with (inject_Z 0). rewrite <- Zle_Qle. lia. }
  assert (Hn1 : (n <= 65536)%Q).
  { unfold n. change 65536%Q with (inject_Z 65536). rewrite <- Zle_Qle.
    exact Hlen. }
  destruct (scaled_norm_bounds n (Rnd.sumsq values) V y w Hn0 Hn1
              (sumsq_nonneg values) Hnear Hlow Hy1 Hy2 Hy0 Hw0 Hw1 Hw2)
    as [HT1 HT2].
  set (T := (w * w * Rnd.sumsq values)%Q) in *.
  (* the rounded elements *)
  assert (Helem : forall v, In v values ->
            is_finite_f32 v = true /\
            (Rnd.mag v * Rnd.mag inv * (Rnd.mag v * Rnd.mag inv) <= 2)%Q).
  { intros v Hin. split.
    - rewrite forallb_forall in Hall. apply Hall, Hin.
    - cbn [Rnd.mag inv]. fold w.
      pose proof (sumsq_elem v values Hin) as Hle.
      assert (Hww : (0 <= w * w)%Q) by nra.
      pose proof (Qmult_le_compat_r _ _ (w * w) Hle Hww) as Hle'.
      rewrite Hu in HT2. unfold T in HT2. nra. }
  pose proof (scaled_sumsq inv values Hinv Helem) as Hout.
  cbv zeta in Hout. cbn [Rnd.mag inv] in Hout. fold w n T in Hout.
  destruct Hout as (Hofin & Holo & Hohi).
  (* the result *)
  unfold normalize_l2. rewrite Esum.
  change (F32.leb (S754_finite false m e) F32.zero) with false.
  cbv iota zeta. rewrite Einv'.
  destruct (norm2_exact_sumsq _ Hofin) as (q & Eq & Eqq).
  exists q. split; [exact Eq|].
  apply Qabs_Qle_condition. rewrite Eqq.
  unfold Rnd.norm_tolerance. fold n.
  pose proof eta_eq as Heta. rewrite Hu, Heta in *.
  set (O := Rnd.sumsq (map (fun v => F32.mul v inv) values)) in *.
  assert (HnT : (0 <= T)%Q) by lra.
  split; lra.
Qed.

End Normalised.

(** ** The result of a successful call *)

(** C1 (as the code has it). A non-null result of [nativeEmbed] has exactly
    [n_embd] elements and is [normalize_l2] of the first [n_embd] values of
    the pooled buffer of the context.  When the binary32 sum of the squares
    of this copy is [<= 0], which holds for an all-zero copy, the result is
    the copy itself; otherwise it is the copy scaled by [1/sqrt(sum)].  When
    the sum lies between [2^-100] and [2^100] and [n_embd] is at most 65536,
    the squared Euclidean norm of the result is within
    [(n_embd + 4) * 2^-22] of 1. *)
Theorem embed_result_normalized `{rt : Runtime} env handle text w arr w' :
  (forall p st,
     states w !! p = Some st -> INT32_MIN <= n_embd st <= INT32_MAX) ->
  nativeEmbed env handle text w = Ok (Some arr, w') ->
  exists p st c cv embd,
    handle = Z.pos p /\ states w !! p = Some st /\ ctx st = Some c /\
    contexts w' !! c = Some cv /\ ctx_embd_seq cv = Some embd /\
    let raw := firstn (Z.to_nat (n_embd st)) embd in
    Vec.size arr = n_embd st /\
    Vec.size raw = n_embd st /\
    arr = normalize_l2 raw /\
    (F32.leb (sum_squares raw) F32.zero = true -> arr = raw) /\
    (F32.leb (sum_squares raw) F32.zero = false ->
     arr = map (fun v => F32.mul v (inv_norm (sum_squares raw))) raw) /\
    (forallb F32.is_zero raw = true -> arr = raw) /\
    (forall q,
       n_embd st <= 65536 ->
       F32.to_Q (sum_squares raw) = Some q ->
       (2 ^ (-100) <= q)%Q -> (q <= 2 ^ 100)%Q ->
       F32.unit_norm_within (Rnd.norm_tolerance (Z.to_nat (n_embd st))) arr).
Proof.
  intros Hrange. rewrite nativeEmbed_run.
  unfold embed_run, embed_run_session, embed_run_tokens, embed_run_decode.
  destruct handle as [|p|q]; [discriminate| |discriminate].
  destruct (states w !! (p : ptr)) as [st|] eqn:Est; [|discriminate].
  destruct (ctx st) as [c|] eqn:Ec; [|discriminate].
  destruct (model st) as [m|]; [|discriminate].
  destruct (GetStringUTFChars env text) as [text_str|]; [|discriminate].
  destruct (models w !! m) as [mv|]; [|discriminate].
  destruct (tokenize _ _ _) as [tokens0| |]; [|discriminate|discriminate].
  destruct (bool_decide (tokens0 = [])); [discriminate|].
  destruct (if exceeds_context tokens0 (n_ctx st) then _ else _)
    as [tokens| |]; [|discriminate|discriminate].
  destruct (contexts w !! c) as [cv|]; [|discriminate].
  destruct (embed_batch tokens) as [batch| |]; [|discriminate|discriminate].
  destruct (models w !! ctx_model cv) as [cmv|]; [|discriminate].
  destruct (rt_decode _ _ _ _) as [[rc mem] out].
  destruct (negb (rc =? 0)); [discriminate|].
  destruct out as [embd|]; [|discriminate].
  destruct (embed_output _ _) as [output| |] eqn:Eout;
    [|discriminate|discriminate].
  destruct (NewFloatArray _ _); [|discriminate].
  intros [= <- <-].
  apply embed_output_Ok in Eout as (H0 & Hle & ->);
    [|apply (Hrange p st Est)].
  exists p, st, c, (decoded (cleared cv) mem (Some embd)), embd.
  split; [reflexivity|]. split; [exact Est|]. split; [exact Ec|].
  split; [wsimpl; apply lookup_insert_eq|]. split; [reflexivity|].
  cbn zeta. unfold Vec.size.
  rewrite normalize_l2_length, length_take.
  split; [lia|]. split; [lia|]. split; [reflexivity|].
  split; [unfold normalize_l2; intros ->; reflexivity|].
  split; [unfold normalize_l2, inv_norm; intros ->; reflexivity|].
  split; [apply normalize_l2_zeros|].
  intros q Hn Hq Hlow Hhigh.
  replace (Z.to_nat (n_embd st))
    with (length (take (Z.to_nat (n_embd st)) embd)) at 1
    by (rewrite length_take; lia).
  apply (normalize_l2_unit _ q); [rewrite length_take; lia|assumption..].
Qed.

(** ** Construction on the empty path *)

(** C8 (as the code has it). The empty path is not turned away at the
    boundary: [nativeInit] allocates the session object and calls the model
    loader on it. When the loader rejects the empty path, 0 is returned after
    the failure to load is logged and the session object deleted, and the
    sessions, models and contexts of the process are as before. *)
Theorem init_empty_path `{rt : Runtime} env model_path w :
  GetStringUTFChars env model_path = Some "" ->
  exists handle w' p loaded rest,
    nativeInit env model_path w = Ok (handle, w') /\
    trace w' = trace w ++ backend_events w ++
               [EvNew p; EvModelLoad "" loaded] ++ rest /\
    (rt_model_load "" init_model_params = None ->
     handle = 0 /\ loaded = None /\
     rest = [EvLog "Failed to load model"; EvDelete p] /\
     states w' = states w /\ models w' = models w /\
     contexts w' = contexts w).
Proof.
  intros Hp.
  destruct (rt_model_load "" init_model_params) as [mv|] eqn:Hl.
  2:{ destruct (init_load_fails env model_path "" w Hp Hl)
        as (w' & p & Hrun & Htr & Hs & Hm & Hc & _).
      exists 0, w', p, None, [EvLog "Failed to load model"; EvDelete p].
      split; [exact Hrun|]. split; [exact Htr|]. auto 10. }
  destruct (rt_context_create mv init_context_params) as [[realised mem]|]
    eqn:Hc.
  - destruct (init_succeeds env model_path "" mv realised mem w Hp Hl Hc)
      as (w' & p & m & c & Hrun & Htr & _).
    exists (Z.pos p), w', p, (Some m), [EvContextInit m (Some c)].
    split; [exact Hrun|]. split; [exact Htr|]. discriminate.
  - destruct (init_context_fails env model_path "" mv w Hp Hl Hc)
      as (w' & p & m & Hrun & Htr & _).
    exists 0, w', p, (Some m),
      [EvContextInit m None; EvLog "Failed to init context"; EvModelFree m;
       EvDelete p].
    split; [exact Hrun|]. split; [exact Htr|]. discriminate.
Qed.

(** * The entry points on the small runtime *)

Lemma toy_memory_clear_erases : memory_clear_erases (rt := Toy.runtime).
Proof. intros mem mem'. reflexivity. Qed.

Lemma toy_states :
  states (Toy.world_with "model.gguf") = {[ 1%positive := Toy.session ]}.
Proof. vm_compute. reflexivity. Qed.

Lemma toy_range p st :
  states (Toy.world_with "model.gguf") !! p = Some st ->
  INT32_MIN <= n_embd st <= INT32_MAX.
Proof.
  rewrite toy_states. intros [<- <-]%lookup_singleton_Some.
  vm_compute. split; discriminate.
Qed.

Lemma toy_models :
  models (Toy.world_with "model.gguf") !! 1%positive
    = Some Toy.session_weights.
Proof. vm_compute. reflexivity. Qed.

Lemma toy_contexts :
  match contexts (Toy.world_with "model.gguf") !! 1%positive with
  | Some cv => bool_decide (ctx_model cv = 1%positive)
  | None => false
  end = true.
Proof. vm_compute. reflexivity. Qed.

Lemma toy_live :
  live_session (Toy.world_with "model.gguf") 1%positive Toy.session.
Proof.
  split; [rewrite toy_states; apply lookup_singleton_eq|]. split.
  - intros m [= <-]. exists Toy.session_weights. exact toy_models.
  - intros c [= <-]. pose proof toy_contexts as Hc.
    destruct (contexts (Toy.world_with "model.gguf") !! 1%positive)
      as [cv|] eqn:Ecv; [|discriminate].
    apply bool_decide_eq_true in Hc.
    exists cv. split; [first [exact Ecv | reflexivity]|]. rewrite Hc.
    exists Toy.session_weights. exact toy_models.
Qed.

(** A run is its value and the world after it. *)
Lemma toy_run {A} (r : result (A * World)) a :
  Toy.value r = Some a -> r = Ok (a, Toy.after r).
Proof. destruct r as [[a' w']| |]; cbn; [intros [= ->]|..]; easy. Qed.

Lemma embed_result_normalized_witness :
  let w := Toy.world_with "model.gguf" in
  let r := nativeEmbed Toy.env 1 "ab" w in
  (forall p st,
     states w !! p = Some st -> INT32_MIN <= n_embd st <= INT32_MAX) /\
  r = Ok (Some Toy.ab_embedding, Toy.after r) /\
  (exists st embd,
     states w !! 1%positive = Some st /\
     Vec.size Toy.ab_embedding = n_embd st /\
     Toy.ab_embedding = normalize_l2 (firstn (Z.to_nat (n_embd st)) embd)) /\
  F32.unit_norm_within (Rnd.norm_tolerance 2) Toy.ab_embedding.
Proof.
  intros w r.
  assert (Hrun : r = Ok (Some Toy.ab_embedding, Toy.after r))
    by (apply toy_run; vm_compute; reflexivity).
  split; [exact toy_range|]. split; [exact Hrun|].
  destruct (embed_result_normalized Toy.env 1 "ab" w Toy.ab_embedding
              (Toy.after r) toy_range Hrun)
    as (p & st & c & cv & embd & Hh & Hst & Hc & Hcv & Hembd & Hsize & _
        & Harr & _ & _ & _ & Hunit).
  injection Hh as <-. split; [exists st, embd; auto|].
  assert (Est : st = Toy.session).
  { unfold w in Hst. rewrite toy_states in Hst.
    apply lookup_singleton_Some in Hst as [_ <-]. reflexivity. }
  subst st. injection Hc as <-.
  assert (Hpooled : match contexts (Toy.after r) !! 1%positive with
                    | Some cv => ctx_embd_seq cv
                    | None => None
                    end = Some [F32.of_Z 195; F32.of_Z 2])
    by (vm_compute; reflexivity).
  replace (contexts (Toy.after r) !! 1%positive) with (Some cv) in Hpooled
    by (symmetry; exact Hcv).
  rewrite Hembd in Hpooled. injection Hpooled as ->.
  eapply Hunit.
  2: vm_compute; reflexivity.
  all: vm_compute; discriminate.
Defined.

(** C1 fails as stated: the pooled vector [195, 2] scaled by [2^-100] is not
    all-zero, every square underflows to zero in binary32, and the vector is
    returned as it is, with a norm far from 1. *)
Lemma embed_underflow_not_unit_norm :
  exists w',
    nativeEmbed Toy.env 1 "ab" (Toy.world_with "tiny.gguf")
      = Ok (Some Toy.ab_tiny, w') /\
    (exists cv, contexts w' !! 1%positive = Some cv /\
                ctx_embd_seq cv = Some Toy.ab_tiny) /\
    forallb F32.is_zero Toy.ab_tiny = false /\
    ~ F32.unit_norm_within (1 # 2) Toy.ab_tiny.
Proof.
  exists (Toy.after (nativeEmbed Toy.env 1 "ab" (Toy.world_with "tiny.gguf"))).
  split; [apply toy_run; vm_compute; reflexivity|]. split.
  { assert (Hc : match contexts
                         (Toy.after
                            (nativeEmbed Toy.env 1 "ab"
                               (Toy.world_with "tiny.gguf"))) !! 1%positive
                 with
                 | Some cv => ctx_embd_seq cv
                 | None => None
                 end = Some Toy.ab_tiny) by (vm_compute; reflexivity).
    destruct (contexts _ !! 1%positive) as [cv|] eqn:Ecv; [|discriminate].
    exists cv. split; [first [exact Ecv | reflexivity] | exact Hc]. }
  split; [reflexivity|].
  intros (q & Hq & Hle). vm_compute in Hq. injection Hq as <-.
  vm_compute in Hle. apply Hle. reflexivity.
Qed.

(** Nor does a positive sum suffice: the square of [3 * 2^-76] is rounded
    to the least subnormal number, and the vector is scaled to a norm whose
    square is 9/8. *)
Lemma normalize_l2_small_sum_not_unit :
  F32.leb (sum_squares [F32.of_Z_pow2 3 (-76)]) F32.zero = false /\
  ~ F32.unit_norm_within (1 # 10) (normalize_l2 [F32.of_Z_pow2 3 (-76)]).
Proof.
  split; [reflexivity|].
  intros (q & Hq & Hle). vm_compute in Hq. injection Hq as <-.
  vm_compute in Hle. apply Hle. reflexivity.
Qed.

Lemma embed_deterministic_witness :
  let w := Toy.world_with "model.gguf" in
  let r := nativeEmbed Toy.env 1 "ab" w in
  memory_clear_erases (rt := Toy.runtime) /\
  r = Ok (Some Toy.ab_embedding, Toy.after r) /\
  exists w2,
    nativeEmbed Toy.env 1 "ab" (Toy.after r) = Ok (Some Toy.ab_embedding, w2).
Proof.
  intros w r.
  assert (Hrun : r = Ok (Some Toy.ab_embedding, Toy.after r))
    by (apply toy_run; vm_compute; reflexivity).
  split; [exact toy_memory_clear_erases|]. split; [exact Hrun|].
  exact (proj1 (embed_deterministic Toy.env 1 "ab" w _ _
                  toy_memory_clear_erases Hrun)).
Defined.

Lemma embed_zero_tokens_null_witness :
  let w := Toy.world_with "model.gguf" in
  GetStringUTFChars Toy.env "" = Some "" /\
  live_session w 1%positive Toy.session /\
  exists w',
    nativeEmbed Toy.env 1 "" w = Ok (None, w') /\
    contexts w' = contexts w /\ live_batches w' = live_batches w /\
    exists message, trace w' = trace w ++ [EvLog message].
Proof.
  intros w. split; [reflexivity|]. split; [exact toy_live|].
  apply (embed_zero_tokens_null Toy.env 1 "" "" w).
  - reflexivity.
  - right. exists 1%positive, Toy.session. split; [reflexivity|exact toy_live].
  - left. reflexivity.
Defined.

Lemma init_atomic_witness :
  exists w' p m,
    nativeInit Toy.env "nocontext.gguf" Toy.world0 = Ok (0, w') /\
    states w' = states Toy.world0 /\ models w' = models Toy.world0 /\
    contexts w' = contexts Toy.world0 /\
    trace w' = [EvBackendInit; EvNew p;
                EvModelLoad "nocontext.gguf" (Some m);
                EvContextInit m None; EvLog "Failed to init context";
                EvModelFree m; EvDelete p].
Proof.
  destruct (init_atomic Toy.env "nocontext.gguf" Toy.world0)
    as (handle & w' & Hrun & Hcases & Hfail).
  destruct (Hfail "nocontext.gguf"
              {| Toy.scale := F32.one; Toy.builds_context := false |}
              eq_refl eq_refl eq_refl) as (-> & p & m & Htr).
  exists w', p, m. split; [exact Hrun|].
  destruct Hcases as [(_ & Hs & Hm & Hc & _)|(q & st & _ & _ & Hh & _)];
    [|discriminate Hh].
  auto.
Defined.

Lemma embed_batch_released_witness :
  let w := Toy.world_with "model.gguf" in
  let r := nativeEmbed Toy.env 1 "a!" w in
  r = Ok (None, Toy.after r) /\
  exists evs,
    trace (Toy.after r) = trace w ++ evs /\
    live_batches (Toy.after r) = live_batches w /\
    (batch_events evs = [] \/
     exists n c rc,
       batch_events evs = [EvBatchInit n; EvDecode c rc; EvBatchFree] /\
       (rc <> 0 ->
        None = (None : option (list f32)) /\
        exists before,
          evs = before ++ [EvDecode c rc; EvBatchFree;
                           EvLog "llama_decode failed"])).
Proof.
  intros w r.
  assert (Hrun : r = Ok (None, Toy.after r))
    by (apply toy_run; vm_compute; reflexivity).
  split; [exact Hrun|].
  exact (embed_batch_released Toy.env 1 "a!" w None (Toy.after r) Hrun).
Defined.

Lemma init_empty_path_witness :
  GetStringUTFChars Toy.env "" = Some "" /\
  exists handle w' p loaded rest,
    nativeInit Toy.env "" Toy.world0 = Ok (handle, w') /\
    trace w' = trace Toy.world0 ++ backend_events Toy.world0 ++
               [EvNew p; EvModelLoad "" loaded] ++ rest /\
    (rt_model_load "" init_model_params = None ->
     handle = 0 /\ loaded = None /\
     rest = [EvLog "Failed to load model"; EvDelete p] /\
     states w' = states Toy.world0 /\ models w' = models Toy.world0 /\
     contexts w' = contexts Toy.world0).
Proof.
  split; [reflexivity|].
  apply (init_empty_path Toy.env "" Toy.world0). reflexivity.
Defined.

(** C8 fails as stated: on the empty path [nativeInit] does not stop at the
    boundary; the model loader is called with it. *)
Lemma init_empty_path_reaches_loader :
  ~ (exists w',
       nativeInit Toy.env "" Toy.world0 = Ok (0, w') /\
       forall r, ~ In (EvModelLoad "" r) (trace w')).
Proof.
  intros (w' & Hrun & Hno). apply (Hno None).
  replace w' with (Toy.after (nativeInit Toy.env "" Toy.world0))
    by (rewrite Hrun; reflexivity).
  vm_compute. auto.
Qed.

Lemma release_contract_witness :
  let w := Toy.world_with "model.gguf" in
  live_session w 1%positive Toy.session /\
  exists w',
    nativeRelease 1 w = Ok (tt, w') /\
    trace w' = trace w ++ [EvContextFree 1%positive; EvModelFree 1%positive;
                           EvDelete 1%positive] /\
    states w' = delete 1%positive (states w).
Proof.
  intros w. split; [exact toy_live|].
  destruct (proj2 release_contract w 1%positive Toy.session toy_live)
    as (w' & Hrun & Htr & Hs & _).
  exists w'. auto.
Defined.

(** * Further properties of the engine *)

(** ** Construction and destruction together *)

Section Lifecycle.
Context `{rt : Runtime}.

(** Whatever way [nativeInit] takes, the backend is ready afterwards. *)
Lemma init_ready env model_path w handle w' :
  nativeInit env model_path w = Ok (handle, w') -> g_backend_ready w' = true.
Proof.
  unfold nativeInit. unfold_prims.
  destruct (GetStringUTFChars env model_path) as [path|].
  2:{ destruct (g_backend_ready w) eqn:E; intros [= <- <-]; wsimpl; auto. }
  destruct (rt_model_load path init_model_params) as [mv|].
  2:{ destruct (g_backend_ready w) eqn:E; wrun; intros [= <- <-]; wsimpl;
        auto. }
  destruct (g_backend_ready w) eqn:E; wrun;
    (destruct (rt_context_create mv init_context_params) as [[realised mem]|];
     wrun; intros [= <- <-]; wsimpl; auto).
Qed.

(** [nativeInit] returns on every input. *)
Lemma init_returns env model_path w :
  exists handle w1, nativeInit env model_path w = Ok (handle, w1).
Proof.
  destruct (GetStringUTFChars env model_path) as [path|] eqn:Hp.
  2:{ destruct (init_null_path env model_path w Hp) as (w' & Hrun & _).
      eauto. }
  destruct (rt_model_load path init_model_params) as [mv|] eqn:Hl.
  2:{ destruct (init_load_fails env model_path path w Hp Hl)
        as (w' & p & Hrun & _). eauto. }
  destruct (rt_context_create mv init_context_params) as [[realised mem]|]
    eqn:Hc.
  - destruct (init_succeeds env model_path path mv realised mem w Hp Hl Hc)
      as (w' & p & m & c & Hrun & _). eauto.
  - destruct (init_context_fails env model_path path mv w Hp Hl Hc)
      as (w' & p & m & Hrun & _). eauto.
Qed.

(** [nativeInit] followed by [nativeRelease] on its handle, in terms of the
    heaps. *)
Lemma init_then_release env model_path w handle w1 :
  nativeInit env model_path w = Ok (handle, w1) ->
  exists w2,
    nativeRelease handle w1 = Ok (tt, w2) /\
    states w2 = states w /\ models w2 = models w /\
    contexts w2 = contexts w /\ live_batches w2 = live_batches w.
Proof.
  intros Hrun.
  destruct (GetStringUTFChars env model_path) as [path|] eqn:Hp.
  2:{ destruct (init_null_path env model_path w Hp)
        as (w' & Hrun' & _ & Hs & Hm & Hc & Hb).
      rewrite Hrun in Hrun'. injection Hrun' as -> ->.
      exists w'. split; [apply release_null|]. auto. }
  destruct (rt_model_load path init_model_params) as [mv|] eqn:Hl.
  2:{ destruct (init_load_fails env model_path path w Hp Hl)
        as (w' & p & Hrun' & _ & Hs & Hm & Hc & Hb).
      rewrite Hrun in Hrun'. injection Hrun' as -> ->.
      exists w'. split; [apply release_null|]. auto. }
  destruct (rt_context_create mv init_context_params) as [[realised mem]|]
    eqn:Hc.
  2:{ destruct (init_context_fails env model_path path mv w Hp Hl Hc)
        as (w' & p & m & Hrun' & _ & Hs & Hm & Hcs & Hb).
      rewrite Hrun in Hrun'. injection Hrun' as -> ->.
      exists w'. split; [apply release_null|]. auto. }
  destruct (init_succeeds env model_path path mv realised mem w Hp Hl Hc)
    as (w' & p & m & c & Hrun' & _ & Hfp & Hfm & Hfc & Hs & Hm & Hcs & Hb).
  rewrite Hrun in Hrun'. injection Hrun' as -> ->.
  set (st := {| model := Some m; ctx := Some c;
                n_embd := rt_model_n_embd mv; n_ctx := realised |}) in *.
  assert (Hlive : live_session w' p st).
  { unfold live_session. rewrite Hs, Hm, Hcs.
    split; [apply lookup_insert_eq|]. split.
    - intros ? [= <-]. rewrite lookup_insert_eq. eauto.
    - intros ? [= <-]. eexists. split; [apply lookup_insert_eq|].
      cbn [ctx_model]. rewrite lookup_insert_eq. eauto. }
  destruct (release_live w' p st Hlive)
    as (w2 & Hrel & _ & Hs2 & Hc2 & Hm2 & Hb2 & _).
  exists w2. split; [exact Hrel|].
  cbn [ctx model st] in Hc2, Hm2.
  rewrite Hs2, Hc2, Hm2, Hs, Hm, Hcs, Hb2, Hb.
  rewrite !delete_insert_id by assumption. auto.
Qed.

End Lifecycle.

(** X1. Every call of [nativeInit] leaves the backend ready, also when it
    fails, and calls [llama_backend_init] only through the guard; it writes
    exactly one line to the error log when it returns 0 and none when it
    returns a handle. *)
Theorem init_backend_and_log `{rt : Runtime} env model_path w :
  exists handle w' evs,
    nativeInit env model_path w = Ok (handle, w') /\
    g_backend_ready w' = true /\
    trace w' = trace w ++ backend_events w ++ evs /\
    backend_inits evs = [] /\
    length (log_events evs) = if handle =? 0 then 1%nat else 0%nat.
Proof.
  destruct (GetStringUTFChars env model_path) as [path|] eqn:Hp.
  2:{ destruct (init_null_path env model_path w Hp) as (w' & Hrun & Htr & _).
      exists 0, w', [EvLog "Model path is null"].
      pose proof (init_ready _ _ _ _ _ Hrun). auto. }
  destruct (rt_model_load path init_model_params) as [mv|] eqn:Hl.
  2:{ destruct (init_load_fails env model_path path w Hp Hl)
        as (w' & p & Hrun & Htr & _).
      exists 0, w', [EvNew p; EvModelLoad path None;
                     EvLog "Failed to load model"; EvDelete p].
      pose proof (init_ready _ _ _ _ _ Hrun). auto. }
  destruct (rt_context_create mv init_context_params) as [[realised mem]|]
    eqn:Hc.
  - destruct (init_succeeds env model_path path mv realised mem w Hp Hl Hc)
      as (w' & p & m & c & Hrun & Htr & _).
    exists (Z.pos p), w',
      [EvNew p; EvModelLoad path (Some m); EvContextInit m (Some c)].
    pose proof (init_ready _ _ _ _ _ Hrun). auto.
  - destruct (init_context_fails env model_path path mv w Hp Hl Hc)
      as (w' & p & m & Hrun & Htr & _).
    exists 0, w',
      [EvNew p; EvModelLoad path (Some m); EvContextInit m None;
       EvLog "Failed to init context"; EvModelFree m; EvDelete p].
    pose proof (init_ready _ _ _ _ _ Hrun). auto.
Qed.

(** X2. A successful [nativeInit] returns the address of a session object
    that was not live before and leaves every other session as it was. The
    session records the embedding width of the model and the context length
    that the runtime realised, not the 4096 that was asked for; its context
    is bound to its model and was created with embeddings on, last-token
    pooling, context, batch and micro-batch size 4096 and one sequence. *)
Theorem init_success_session `{rt : Runtime} env model_path path mv realised
    mem w :
  GetStringUTFChars env model_path = Some path ->
  rt_model_load path init_model_params = Some mv ->
  rt_context_create mv init_context_params = Some (realised, mem) ->
  exists w' p m c st cv,
    nativeInit env model_path w = Ok (Z.pos p, w') /\
    states w !! p = None /\
    states w' !! p = Some st /\
    (forall q, q <> p -> states w' !! q = states w !! q) /\
    model st = Some m /\ ctx st = Some c /\
    n_embd st = rt_model_n_embd mv /\ n_ctx st = realised /\
    models w' !! m = Some mv /\
    contexts w' !! c = Some cv /\
    ctx_model cv = m /\ ctx_n_ctx cv = realised /\ ctx_memory cv = mem /\
    embeddings (ctx_params cv) = true /\
    pooling_type (ctx_params cv) = LLAMA_POOLING_TYPE_LAST /\
    cp_n_ctx (ctx_params cv) = 4096 /\ n_batch (ctx_params cv) = 4096 /\
    n_ubatch (ctx_params cv) = 4096 /\ n_seq_max (ctx_params cv) = 1 /\
    n_threads (ctx_params cv) = Z.max 1 hardware_concurrency /\
    n_threads_batch (ctx_params cv) = Z.max 1 hardware_concurrency.
Proof.
  intros Hp Hl Hc.
  destruct (init_succeeds env model_path path mv realised mem w Hp Hl Hc)
    as (w' & p & m & c & Hrun & _ & Hfp & Hfm & Hfc & Hs & Hm & Hcs & Hb).
  do 6 eexists. split; [exact Hrun|]. split; [exact Hfp|].
  rewrite Hs, Hm, Hcs.
  split; [apply lookup_insert_eq|].
  split; [intros q Hq; apply lookup_insert_ne; congruence|].
  cbn [model ctx n_embd n_ctx].
  do 4 (split; [reflexivity|]).
  split; [apply lookup_insert_eq|].
  split; [apply lookup_insert_eq|].
  cbn. auto 20.
Qed.

Lemma init_success_session_witness :
  GetStringUTFChars Toy.env "model.gguf" = Some "model.gguf" /\
  rt_model_load (Runtime := Toy.runtime) "model.gguf" init_model_params
    = Some Toy.session_weights /\
  rt_context_create (Runtime := Toy.runtime) Toy.session_weights
    init_context_params = Some (4096, []) /\
  exists w' p st,
    nativeInit Toy.env "model.gguf" Toy.world0 = Ok (Z.pos p, w') /\
    states w' !! p = Some st /\ n_embd st = 2 /\ n_ctx st = 4096.
Proof.
  split; [reflexivity|]. split; [reflexivity|]. split; [reflexivity|].
  destruct (init_success_session (rt := Toy.runtime) Toy.env "model.gguf"
              "model.gguf"
              Toy.session_weights 4096 [] Toy.world0
              eq_refl eq_refl eq_refl)
    as (w' & p & m & c & st & cv & Hrun & _ & Hst & _ & _ & _ & He & Hn & _).
  exists w', p, st. auto.
Defined.

(** X3. Construction and destruction cancel: [nativeRelease] on whatever
    [nativeInit] returned, a handle or 0, returns and leaves the sessions,
    models, contexts and batches of the process as they were before
    [nativeInit]. *)
Theorem init_release_roundtrip `{rt : Runtime} env model_path w :
  exists handle w1 w2,
    nativeInit env model_path w = Ok (handle, w1) /\
    nativeRelease handle w1 = Ok (tt, w2) /\
    states w2 = states w /\ models w2 = models w /\
    contexts w2 = contexts w /\ live_batches w2 = live_batches w.
Proof.
  destruct (init_returns env model_path w) as (handle & w1 & Hrun).
  destruct (init_then_release env model_path w handle w1 Hrun)
    as (w2 & Hrel & Hheaps).
  exists handle, w1, w2. auto.
Qed.

(** ** What a call of [nativeEmbed] leaves behind *)

Section EmbedEffects.
Context `{rt : Runtime}.

(** A returning call changes at most one context, the one of its session,
    and of it only the sequence memory and the output buffer; it writes at
    most one line to the log, the last event of a call that returns null. *)
Lemma embed_run_world env handle text w r w' :
  embed_run env handle text w = Ok (r, w') ->
  states w' = states w /\ models w' = models w /\
  g_backend_ready w' = g_backend_ready w /\
  (contexts w' = contexts w \/
   exists c cv cv',
     contexts w !! c = Some cv /\
     contexts w' = <[c := cv']> (contexts w) /\
     ctx_model cv' = ctx_model cv /\ ctx_params cv' = ctx_params cv /\
     ctx_n_ctx cv' = ctx_n_ctx cv) /\
  exists evs,
    trace w' = trace w ++ evs /\
    match r with
    | Some _ => log_events evs = []
    | None => exists before message,
                evs = before ++ [EvLog message] /\ log_events before = []
    end.
Proof.
  unfold embed_run, embed_run_session, embed_run_tokens, embed_run_decode.
  assert (Hexit : forall message,
            Ok (None, upd_trace (EvLog message) w) = Ok (r, w') ->
            states w' = states w /\ models w' = models w /\
            g_backend_ready w' = g_backend_ready w /\
            (contexts w' = contexts w \/
             exists c cv cv',
               contexts w !! c = Some cv /\
               contexts w' = <[c := cv']> (contexts w) /\
               ctx_model cv' = ctx_model cv /\
               ctx_params cv' = ctx_params cv /\
               ctx_n_ctx cv' = ctx_n_ctx cv) /\
            exists evs,
              trace w' = trace w ++ evs /\
              match r with
              | Some _ => log_events evs = []
              | None => exists before message,
                          evs = before ++ [EvLog message] /\
                          log_events before = []
              end).
  { intros message [= <- <-]. wsimpl. do 3 (split; [reflexivity|]).
    split; [left; reflexivity|]. eexists. split; [reflexivity|].
    exists [], message. auto. }
  destruct handle as [|p|q]; [apply Hexit| |discriminate].
  destruct (states w !! (p : ptr)) as [st|]; [|discriminate].
  destruct (ctx st) as [c|]; [|apply Hexit].
  destruct (model st) as [m|]; [|apply Hexit].
  destruct (GetStringUTFChars env text) as [text_str|]; [|apply Hexit].
  destruct (models w !! m) as [mv|]; [|discriminate].
  destruct (tokenize _ _ _) as [tokens0| |]; [|discriminate|discriminate].
  destruct (bool_decide (tokens0 = [])); [apply Hexit|].
  clear Hexit.
  destruct (if exceeds_context tokens0 (n_ctx st) then _ else _)
    as [tokens| |]; [|discriminate|discriminate].
  destruct (contexts w !! c) as [cv|] eqn:Ecv; [|discriminate].
  destruct (embed_batch tokens) as [batch| |]; [|discriminate|discriminate].
  destruct (models w !! ctx_model cv) as [cmv|]; [|discriminate].
  destruct (rt_decode _ _ _ _) as [[rc mem] out].
  assert (Hctx : forall out',
            exists c0 cv0 cv',
              contexts w !! c0 = Some cv0 /\
              <[c := decoded (cleared cv) mem out']>
                (<[c := cleared cv]> (contexts w))
                = <[c0 := cv']> (contexts w) /\
              ctx_model cv' = ctx_model cv0 /\
              ctx_params cv' = ctx_params cv0 /\
              ctx_n_ctx cv' = ctx_n_ctx cv0).
  { intros out'. exists c, cv, (decoded (cleared cv) mem out').
    split; [exact Ecv|]. split; [apply insert_insert_eq|]. auto. }
  destruct (negb (rc =? 0)).
  { intros [= <- <-]. wsimpl. do 3 (split; [reflexivity|]).
    split; [right; apply Hctx|]. rewrite <- !app_assoc.
    eexists. split; [reflexivity|].
    eexists [_; _; _; _], _. split; reflexivity. }
  destruct out as [embd|].
  2:{ intros [= <- <-]. wsimpl. do 3 (split; [reflexivity|]).
      split; [right; apply Hctx|]. rewrite <- !app_assoc.
      eexists. split; [reflexivity|].
      eexists [_; _; _; _], _. split; reflexivity. }
  destruct (embed_output _ _) as [output| |]; [|discriminate|discriminate].
  destruct (NewFloatArray _ _); intros [= <- <-]; wsimpl;
    do 3 (split; [reflexivity|]); (split; [right; apply Hctx|]);
    rewrite <- !app_assoc; (eexists; split; [reflexivity|]).
  - reflexivity.
  - eexists [_; _; _; _], _. split; reflexivity.
Qed.

(** The view of every session survives a change of one context that keeps
    its model and its parameters. *)
Lemma session_view_kept w w' q :
  states w' = states w -> models w' = models w ->
  (contexts w' = contexts w \/
   exists c cv cv',
     contexts w !! c = Some cv /\
     contexts w' = <[c := cv']> (contexts w) /\
     ctx_model cv' = ctx_model cv /\ ctx_params cv' = ctx_params cv /\
     ctx_n_ctx cv' = ctx_n_ctx cv) ->
  session_view w' q = session_view w q.
Proof.
  intros Hs Hm Hc. unfold session_view, context_view. rewrite Hs, Hm.
  destruct (states w !! q) as [st|]; [|reflexivity].
  destruct Hc as [->|(c & cv & cv' & Hcv & -> & H1 & H2 & _)];
    [reflexivity|].
  destruct (ctx st) as [c0|]; [|reflexivity].
  destruct (decide (c = c0)) as [<-|Hne].
  - rewrite lookup_insert_eq, Hcv, H1, H2. reflexivity.
  - rewrite lookup_insert_ne by exact Hne. reflexivity.
Qed.

(** A live session stays live under such a change. *)
Lemma live_session_kept w w' q st :
  states w' = states w -> models w' = models w ->
  (contexts w' = contexts w \/
   exists c cv cv',
     contexts w !! c = Some cv /\
     contexts w' = <[c := cv']> (contexts w) /\
     ctx_model cv' = ctx_model cv /\ ctx_params cv' = ctx_params cv /\
     ctx_n_ctx cv' = ctx_n_ctx cv) ->
  live_session w q st -> live_session w' q st.
Proof.
  intros Hs Hm Hc (Hst & Hmod & Hctx). unfold live_session.
  rewrite Hs, Hm. split; [exact Hst|]. split; [exact Hmod|].
  intros c0 Hc0. destruct (Hctx c0 Hc0) as (cv0 & Hcv0 & Hlive).
  destruct Hc as [->|(c & cv & cv' & Hcv & -> & H1 & _)]; [eauto|].
  destruct (decide (c = c0)) as [<-|Hne].
  - exists cv'. split; [apply lookup_insert_eq|].
    rewrite H1. congruence.
  - exists cv0. split; [|exact Hlive].
    rewrite lookup_insert_ne by exact Hne. exact Hcv0.
Qed.

End EmbedEffects.

(** X4. A call of [nativeEmbed] that returns, with a vector or with null,
    leaves every session object and every model as it was and keeps every
    live session live: the session it ran on, and any other, can be used
    again. *)
Theorem embed_keeps_sessions `{rt : Runtime} env handle text w r w' q st :
  live_session w q st ->
  nativeEmbed env handle text w = Ok (r, w') ->
  live_session w' q st /\
  states w' = states w /\ models w' = models w /\
  g_backend_ready w' = g_backend_ready w /\
  dom (contexts w') = dom (contexts w).
Proof.
  intros Hlive. rewrite nativeEmbed_run. intros Hrun.
  destruct (embed_run_world _ _ _ _ _ _ Hrun) as (Hs & Hm & Hr & Hc & _).
  split; [apply (live_session_kept w w' q st Hs Hm Hc Hlive)|].
  do 3 (split; [assumption|]).
  destruct Hc as [->|(c & cv & cv' & Hcv & -> & _)]; [reflexivity|].
  rewrite dom_insert_L. apply subseteq_union_1_L, singleton_subseteq_l.
  apply elem_of_dom. eauto.
Qed.

(** X5. Sessions do not disturb one another: under a memory clear that
    erases what earlier sequences stored, a call of [nativeEmbed] that
    returns [r] in some state of the process returns [r] as well after any
    other returning call of [nativeEmbed], on the same session or on another
    one, with any text. *)
Theorem embed_unaffected_by_earlier_call `{rt : Runtime} env handle text
    env' handle' text' w r w2 r' w1 :
  memory_clear_erases ->
  nativeEmbed env handle text w = Ok (r, w2) ->
  nativeEmbed env' handle' text' w = Ok (r', w1) ->
  exists w3, nativeEmbed env handle text w1 = Ok (r, w3).
Proof.
  intros Herase. rewrite !nativeEmbed_run. intros Hrun Hother.
  destruct (embed_run_world _ _ _ _ _ _ Hother) as (Hs & Hm & _ & Hc & _).
  revert Hrun. unfold embed_run.
  destruct handle as [|p|n]; [intros [= <- <-]; eauto| |discriminate].
  apply embed_run_by_view; [exact Herase|].
  symmetry. apply (session_view_kept w w1 p Hs Hm Hc).
Qed.

(** X6. Every null result of [nativeEmbed] comes with exactly one line in
    the error log, written as the last event of the call; a call that
    returns a vector logs nothing. *)
Theorem embed_logs_each_failure `{rt : Runtime} env handle text w r w' :
  nativeEmbed env handle text w = Ok (r, w') ->
  exists evs,
    trace w' = trace w ++ evs /\
    match r with
    | Some _ => log_events evs = []
    | None => exists before message,
                evs = before ++ [EvLog message] /\ log_events before = []
    end.
Proof.
  rewrite nativeEmbed_run. intros Hrun.
  apply (embed_run_world _ _ _ _ _ _ Hrun).
Qed.

Lemma toy_run_ab :
  nativeEmbed Toy.env 1 "ab" (Toy.world_with "model.gguf")
    = Ok (Some Toy.ab_embedding,
          Toy.after (nativeEmbed Toy.env 1 "ab" (Toy.world_with "model.gguf"))).
Proof. apply toy_run. vm_compute. reflexivity. Qed.

Lemma toy_run_fail :
  nativeEmbed Toy.env 1 "a!" (Toy.world_with "model.gguf")
    = Ok (None,
          Toy.after (nativeEmbed Toy.env 1 "a!" (Toy.world_with "model.gguf"))).
Proof. apply toy_run. vm_compute. reflexivity. Qed.

Lemma embed_keeps_sessions_witness :
  let w := Toy.world_with "model.gguf" in
  let w' := Toy.after (nativeEmbed Toy.env 1 "a!" w) in
  live_session w 1%positive Toy.session /\
  nativeEmbed Toy.env 1 "a!" w = Ok (None, w') /\
  live_session w' 1%positive Toy.session /\ states w' = states w.
Proof.
  intros w w'. split; [exact toy_live|]. split; [exact toy_run_fail|].
  destruct (embed_keeps_sessions Toy.env 1 "a!" w None w' 1%positive
              Toy.session toy_live toy_run_fail) as (Hl & Hs & _).
  auto.
Defined.

Lemma embed_unaffected_by_earlier_call_witness :
  let w := Toy.world_with "model.gguf" in
  let w1 := Toy.after (nativeEmbed Toy.env 1 "a!" w) in
  memory_clear_erases (rt := Toy.runtime) /\
  nativeEmbed Toy.env 1 "ab" w
    = Ok (Some Toy.ab_embedding, Toy.after (nativeEmbed Toy.env 1 "ab" w)) /\
  nativeEmbed Toy.env 1 "a!" w = Ok (None, w1) /\
  exists w3, nativeEmbed Toy.env 1 "ab" w1 = Ok (Some Toy.ab_embedding, w3).
Proof.
  intros w w1. split; [exact toy_memory_clear_erases|].
  split; [exact toy_run_ab|]. split; [exact toy_run_fail|].
  exact (embed_unaffected_by_earlier_call Toy.env 1 "ab" Toy.env 1 "a!" w
           _ _ _ _ toy_memory_clear_erases toy_run_ab toy_run_fail).
Defined.

Lemma embed_logs_each_failure_witness :
  let w := Toy.world_with "model.gguf" in
  let w' := Toy.after (nativeEmbed Toy.env 1 "a!" w) in
  nativeEmbed Toy.env 1 "a!" w = Ok (None, w') /\
  exists evs before message,
    trace w' = trace w ++ evs /\
    evs = before ++ [EvLog message] /\ log_events before = [].
Proof.
  intros w w'. split; [exact toy_run_fail|].
  destruct (embed_logs_each_failure Toy.env 1 "a!" w None w' toy_run_fail)
    as (evs & Htr & before & message & Hevs & Hlog).
  exists evs, before, message. auto.
Defined.

(** ** After the release *)

(** X7. Nothing guards a released handle: after [nativeRelease] on a live
    session, a second [nativeRelease] and every [nativeEmbed] on the same
    handle read the deleted session object, which has no defined
    behaviour. *)
Theorem release_invalidates_handle `{rt : Runtime} w p st :
  live_session w p st ->
  exists w',
    nativeRelease (Z.pos p) w = Ok (tt, w') /\
    states w' !! p = None /\
    nativeRelease (Z.pos p) w' = UB /\
    forall env text, nativeEmbed env (Z.pos p) text w' = UB.
Proof.
  intros Hlive.
  destruct (release_live w p st Hlive) as (w' & Hrun & _ & Hs & _).
  assert (Hgone : states w' !! p = None)
    by (rewrite Hs; apply lookup_delete_eq).
  exists w'. split; [exact Hrun|]. split; [exact Hgone|]. split.
  - unfold nativeRelease. cbn [Z.eqb]. unfold_prims. rewrite Hgone.
    reflexivity.
  - intros env text. rewrite nativeEmbed_run.
    unfold embed_run, embed_run_session. rewrite Hgone. reflexivity.
Qed.

Lemma release_invalidates_handle_witness :
  let w := Toy.world_with "model.gguf" in
  live_session w 1%positive Toy.session /\
  exists w',
    nativeRelease 1 w = Ok (tt, w') /\
    nativeRelease 1 w' = UB /\
    nativeEmbed Toy.env 1 "ab" w' = UB.
Proof.
  intros w. split; [exact toy_live|].
  destruct (release_invalidates_handle w 1%positive Toy.session toy_live)
    as (w' & Hrun & _ & Hrel & Hembed).
  exists w'. split; [exact Hrun|]. split; [exact Hrel|].
  exact (Hembed Toy.env "ab").
Defined.

(** X8. [nativeRelease] frees the objects of its own session only: a second
    live session that shares neither model nor context with the released one
    is live afterwards, with the same session object. *)
Theorem release_spares_other_sessions `{rt : Runtime} w p st q st' :
  live_session w p st ->
  live_session w q st' ->
  q <> p ->
  (forall m, model st = Some m ->
     model st' <> Some m /\
     forall c cv, ctx st' = Some c -> contexts w !! c = Some cv ->
                  ctx_model cv <> m) ->
  (forall c, ctx st = Some c -> ctx st' <> Some c) ->
  exists w',
    nativeRelease (Z.pos p) w = Ok (tt, w') /\ live_session w' q st'.
Proof.
  intros Hlive (Hst' & Hm' & Hc') Hne Hmodels Hctxs.
  destruct (release_live w p st Hlive) as (w' & Hrun & _ & Hs & Hc & Hm & _).
  exists w'. split; [exact Hrun|]. unfold live_session.
  rewrite Hs, Hc, Hm.
  split; [rewrite lookup_delete_ne by congruence; exact Hst'|]. split.
  - intros m' Hmodel'. destruct (model st) as [m|] eqn:Em; [|auto].
    destruct (Hmodels m eq_refl) as [Hdiff _].
    rewrite lookup_delete_ne by congruence. auto.
  - intros c' Hctx'. destruct (Hc' c' Hctx') as (cv & Hcv & Hcm).
    exists cv. split.
    + destruct (ctx st) as [c|] eqn:Ec; [|exact Hcv].
      pose proof (Hctxs c eq_refl).
      rewrite lookup_delete_ne by congruence. exact Hcv.
    + destruct (model st) as [m|] eqn:Em; [|exact Hcm].
      destruct (Hmodels m eq_refl) as [_ Hdiff].
      rewrite lookup_delete_ne; [exact Hcm|].
      intros ->. apply (Hdiff c' cv Hctx' Hcv). reflexivity.
Qed.

Lemma release_spares_other_sessions_witness :
  live_session toy_world2 1%positive Toy.session /\
  live_session toy_world2 2%positive toy_session2 /\
  exists w',
    nativeRelease 1 toy_world2 = Ok (tt, w') /\
    live_session w' 2%positive toy_session2.
Proof.
  assert (H1 : live_session toy_world2 1%positive Toy.session).
  { split; [reflexivity|]. split.
    - intros m [= <-]. exists Toy.session_weights. reflexivity.
    - intros c [= <-]. exists toy_context. split; [reflexivity|].
      exists Toy.session_weights. reflexivity. }
  assert (H2 : live_session toy_world2 2%positive toy_session2).
  { split; [reflexivity|]. split.
    - intros m [= <-]. exists Toy.session_weights. reflexivity.
    - intros c [= <-]. exists toy_context2. split; [reflexivity|].
      exists Toy.session_weights. reflexivity. }
  split; [exact H1|]. split; [exact H2|].
  apply (release_spares_other_sessions toy_world2 1%positive Toy.session
           2%positive toy_session2 H1 H2).
  - discriminate.
  - intros m [= <-]. split; [discriminate|].
    intros c cv [= <-] Hcv.
    change (Some toy_context2 = Some cv) in Hcv.
    injection Hcv as <-. discriminate.
  - intros c [= <-]. discriminate.
Defined.

(** ** More on the tokenizer adapter *)

(** X9. When the text fits, that is when the tokenizer returns a count
    between 0 and [max_tokens] and leaves the buffer at its size, [tokenize]
    returns exactly the first [count] tokens that the tokenizer wrote. *)
Theorem tokenize_keeps_written_tokens `{rt : Runtime} vocab text max_tokens
    count buf :
  text <> "" ->
  0 <= max_tokens <= INT32_MAX ->
  llama_tokenize vocab text (to_int32 (Z.of_nat (String.length text)))
    (repeat 0 (Z.to_nat max_tokens)) max_tokens true false = (count, buf) ->
  0 <= count <= max_tokens ->
  length buf = Z.to_nat max_tokens ->
  tokenize vocab text max_tokens = Ok (take (Z.to_nat count) buf).
Proof.
  intros Htext Hmax Hcall Hcount Hlen. unfold tokenize.
  apply String.eqb_neq in Htext. rewrite Htext.
  unfold INT32_MAX in *.
  rewrite to_size_t_small by lia.
  unfold Vec.make. destruct (max_tokens >? Vec.max_size) eqn:E.
  { unfold Vec.max_size in E. lia. }
  cbn.
  match goal with
  | |- context [llama_tokenize ?a ?b ?c ?d ?e ?f ?g] =>
      replace (llama_tokenize a b c d e f g) with (count, buf)
        by (symmetry; exact Hcall)
  end.
  destruct (count <? 0) eqn:Eneg; [lia|]. cbn.
  rewrite to_size_t_small by lia.
  rewrite resize_fits by (unfold Vec.max_size; lia).
  replace (Z.to_nat count - length buf)%nat with 0%nat by lia.
  cbn [repeat]. now rewrite app_nil_r.
Qed.

Lemma tokenize_keeps_written_tokens_witness :
  "ab" <> "" /\ 0 <= 4 <= INT32_MAX /\
  llama_tokenize (Runtime := Toy.runtime) tt "ab"
    (to_int32 (Z.of_nat (String.length "ab"))) (repeat 0 (Z.to_nat 4)) 4
    true false = (2, [97; 98; 0; 0]) /\
  0 <= 2 <= 4 /\ length [97; 98; 0; 0] = Z.to_nat 4 /\
  tokenize (H := Toy.runtime) tt "ab" 4 = Ok [97; 98].
Proof.
  assert (H1 : "ab" <> "") by discriminate.
  assert (H2 : 0 <= 4 <= INT32_MAX) by (unfold INT32_MAX; lia).
  assert (H4 : 0 <= 2 <= 4) by lia.
  split; [exact H1|]. split; [exact H2|]. split; [reflexivity|].
  split; [exact H4|]. split; [reflexivity|].
  exact (tokenize_keeps_written_tokens (rt := Toy.runtime) tt "ab" 4 2
           [97; 98; 0; 0] H1 H2 eq_refl H4 eq_refl).
Defined.

Lemma take_repeat {A} (x : A) n : forall m,
  (n <= m)%nat -> take n (repeat x m) = repeat x n.
Proof.
  induction n as [|n IH]; intros m Hm; [reflexivity|].
  destruct m as [|m]; [lia|]. cbn. f_equal. apply IH. lia.
Qed.

(** X10. When the tokenizer reports a text that does not fit and has left
    the buffer as it got it, as [llama_vocab::tokenize] does, [tokenize]
    returns [min(-count, max_tokens)] tokens that are all 0, the content of
    the value-initialised buffer, and no token of the text. *)
Theorem tokenize_overflow_returns_zeros `{rt : Runtime} vocab text max_tokens
    count :
  text <> "" ->
  0 <= max_tokens <= INT32_MAX ->
  llama_tokenize vocab text (to_int32 (Z.of_nat (String.length text)))
    (repeat 0 (Z.to_nat max_tokens)) max_tokens true false
    = (count, repeat 0 (Z.to_nat max_tokens)) ->
  INT32_MIN < count < 0 ->
  tokenize vocab text max_tokens
    = Ok (repeat 0 (Z.to_nat (Z.min (- count) max_tokens))).
Proof.
  intros Htext Hmax Hcall Hcount.
  rewrite (tokenize_overflow _ _ _ _ _ Htext Hmax Hcall Hcount).
  cbn zeta. f_equal. rewrite repeat_length.
  replace (Z.to_nat (Z.min (- count) max_tokens) - Z.to_nat max_tokens)%nat
    with 0%nat by lia.
  cbn [repeat]. rewrite app_nil_r.
  apply take_repeat. lia.
Qed.

Lemma tokenize_overflow_returns_zeros_witness :
  "abc" <> "" /\ 0 <= 2 <= INT32_MAX /\
  llama_tokenize (Runtime := Toy.runtime) tt "abc"
    (to_int32 (Z.of_nat (String.length "abc"))) (repeat 0 (Z.to_nat 2)) 2
    true false = (-3, repeat 0 (Z.to_nat 2)) /\
  INT32_MIN < -3 < 0 /\
  tokenize (H := Toy.runtime) tt "abc" 2 = Ok [0; 0].
Proof.
  assert (H1 : "abc" <> "") by discriminate.
  assert (H2 : 0 <= 2 <= INT32_MAX) by (unfold INT32_MAX; lia).
  assert (H4 : INT32_MIN < -3 < 0) by (unfold INT32_MIN; lia).
  split; [exact H1|]. split; [exact H2|]. split; [reflexivity|].
  split; [exact H4|].
  exact (tokenize_overflow_returns_zeros (rt := Toy.runtime) tt "abc" 2 (-3)
           H1 H2 eq_refl H4).
Defined.

(** X11. A negative budget, which [nativeEmbed] passes when the context
    length does not fit an [int32_t], makes [tokenize] throw on every
    non-empty text: the vector of [max_tokens] elements cannot be built and
    the tokenizer is not reached. *)
Theorem tokenize_negative_budget_throws `{rt : Runtime} vocab text max_tokens :
  text <> "" ->
  INT32_MIN <= max_tokens < 0 ->
  tokenize vocab text max_tokens = Throws "std::length_error".
Proof.
  intros Htext Hmax. unfold tokenize.
  apply String.eqb_neq in Htext. rewrite Htext.
  unfold INT32_MIN in Hmax.
  rewrite to_size_t_negative by lia.
  unfold Vec.make. destruct (_ >? Vec.max_size) eqn:E; [reflexivity|].
  unfold Vec.max_size in E. lia.
Qed.

Lemma tokenize_negative_budget_throws_witness :
  "a" <> "" /\ INT32_MIN <= -1 < 0 /\
  tokenize (H := Toy.runtime) tt "a" (-1) = Throws "std::length_error".
Proof.
  assert (H1 : "a" <> "") by discriminate.
  assert (H2 : INT32_MIN <= -1 < 0) by (unfold INT32_MIN; lia).
  split; [exact H1|]. split; [exact H2|].
  exact (tokenize_negative_budget_throws (rt := Toy.runtime) tt "a" (-1)
           H1 H2).
Defined.

(** X12. When the tokenizer returns [INT32_MIN], [tokenize] negates it in
    [int32_t], which overflows: the call has no defined behaviour and
    returns no sequence. *)
Theorem tokenize_sentinel_undefined `{rt : Runtime} vocab text max_tokens :
  text <> "" ->
  0 <= max_tokens <= INT32_MAX ->
  fst (llama_tokenize vocab text (to_int32 (Z.of_nat (String.length text)))
         (repeat 0 (Z.to_nat max_tokens)) max_tokens true false)
    = INT32_MIN ->
  tokenize vocab text max_tokens = UB.
Proof.
  intros Htext Hmax Hcall. unfold tokenize.
  apply String.eqb_neq in Htext. rewrite Htext.
  unfold INT32_MAX in *.
  rewrite to_size_t_small by lia.
  unfold Vec.make. destruct (max_tokens >? Vec.max_size) eqn:E.
  { unfold Vec.max_size in E. lia. }
  cbn.
  match goal with
  | |- context [llama_tokenize ?a ?b ?c ?d ?e ?f ?g] =>
      assert (Hc : fst (llama_tokenize a b c d e f g) = INT32_MIN)
        by exact Hcall;
      destruct (llama_tokenize a b c d e f g) as [count buf]
  end.
  cbn in Hc. subst count. reflexivity.
Qed.

Lemma tokenize_sentinel_undefined_witness :
  "a" <> "" /\ 0 <= 8 <= INT32_MAX /\
  fst (llama_tokenize (Runtime := sentinel_runtime) tt "a"
         (to_int32 (Z.of_nat (String.length "a"))) (repeat 0 (Z.to_nat 8)) 8
         true false) = INT32_MIN /\
  tokenize (H := sentinel_runtime) tt "a" 8 = UB.
Proof.
  assert (H1 : "a" <> "") by discriminate.
  assert (H2 : 0 <= 8 <= INT32_MAX) by (unfold INT32_MAX; lia).
  split; [exact H1|]. split; [exact H2|]. split; [reflexivity|].
  exact (tokenize_sentinel_undefined (rt := sentinel_runtime) tt "a" 8
           H1 H2 eq_refl).
Defined.

(** ** More on the vector post-processor *)

Lemma fold_squares_nan values :
  fold_left (fun sum v => F32.add sum (F32.mul v v)) values S754_nan
    = S754_nan.
Proof. induction values as [|v rest IH]; [reflexivity | exact IH]. Qed.

Lemma sum_squares_nan values :
  In S754_nan values -> sum_squares values = S754_nan.
Proof.
  unfold sum_squares. generalize F32.zero as acc.
  induction values as [|v rest IH]; intros acc; cbn [In fold_left];
    [contradiction|].
  intros [->|Hin]; [|apply IH, Hin].
  replace (F32.add acc (F32.mul S754_nan S754_nan)) with S754_nan
    by (destruct acc; reflexivity).
  apply fold_squares_nan.
Qed.

(** X13. One NaN among the inputs of [normalize_l2] turns every element of
    the result into NaN: the sum of squares is NaN, it is not [<= 0], and
    every element is multiplied by NaN. *)
Theorem normalize_l2_nan_spreads values :
  In S754_nan values ->
  normalize_l2 values = repeat S754_nan (length values).
Proof.
  intros Hin. unfold normalize_l2. rewrite (sum_squares_nan _ Hin).
  cbn. clear Hin.
  induction values as [|v rest IH]; [reflexivity|].
  cbn. f_equal; [destruct v; reflexivity | exact IH].
Qed.

Lemma normalize_l2_nan_spreads_witness :
  In S754_nan [F32.of_Z 3; S754_nan; F32.of_Z 4] /\
  normalize_l2 [F32.of_Z 3; S754_nan; F32.of_Z 4]
    = [S754_nan; S754_nan; S754_nan].
Proof.
  assert (Hin : In S754_nan [F32.of_Z 3; S754_nan; F32.of_Z 4])
    by (right; left; reflexivity).
  split; [exact Hin|].
  exact (normalize_l2_nan_spreads [F32.of_Z 3; S754_nan; F32.of_Z 4] Hin).
Defined.

(** X14. When the sum of squares of a vector of finite values overflows to
    plus infinity, [normalize_l2] multiplies by [1/sqrt(inf) = 0]: the result
    has the length of the input and every element of it is a zero. *)
Theorem normalize_l2_overflow_gives_zeros values :
  sum_squares values = S754_infinity false ->
  forallb is_finite_f32 values = true ->
  length (normalize_l2 values) = length values /\
  forallb F32.is_zero (normalize_l2 values) = true.
Proof.
  intros Hsum Hfin. split; [apply normalize_l2_length|].
  unfold normalize_l2. rewrite Hsum. cbn.
  induction values as [|v rest IH] in Hfin |- *; [reflexivity|].
  cbn in Hfin |- *. apply andb_true_iff in Hfin as [Hv Hrest].
  rewrite (IH Hrest), andb_true_r.
  destruct v; try discriminate; reflexivity.
Qed.

Lemma normalize_l2_overflow_gives_zeros_witness :
  sum_squares [F32.of_Z_pow2 1 100; F32.of_Z 1] = S754_infinity false /\
  forallb is_finite_f32 [F32.of_Z_pow2 1 100; F32.of_Z 1] = true /\
  forallb F32.is_zero (normalize_l2 [F32.of_Z_pow2 1 100; F32.of_Z 1]) = true.
Proof.
  split; [reflexivity|]. split; [reflexivity|].
  exact (proj2 (normalize_l2_overflow_gives_zeros
                  [F32.of_Z_pow2 1 100; F32.of_Z 1] eq_refl eq_refl)).
Defined.

(** ** The copy of the pooled embedding *)

Section CopyProperties.

(** The loop runs to its end when both arrays reach as far as it goes. *)
Lemma copy_embd_runs embd k : forall i output,
  0 <= i -> i + Z.of_nat k < 2 ^ 64 ->
  (Z.to_nat i + k <= length embd)%nat ->
  (Z.to_nat i + k <= length output)%nat ->
  exists output', copy_embd k i embd output = Ok output'.
Proof.
  induction k as [|k IH]; intros i output Hi Hk He Ho; cbn [copy_embd];
    [eauto|].
  destruct (lookup_lt_is_Some_2 embd (Z.to_nat i) ltac:(lia)) as [x Hx].
  assert (Hload : load embd i = Ok x).
  { unfold load. destruct (_ && _) eqn:E.
    - now rewrite Hx.
    - apply andb_false_iff in E as [E%Z.leb_gt|E%Z.ltb_ge]; lia. }
  rewrite Hload. cbn [mbind result_bind].
  rewrite to_size_t_small by lia.
  assert (Hstore : store output i x = Ok (<[Z.to_nat i := x]> output)).
  { unfold store. destruct (_ && _) eqn:E; [reflexivity|].
    apply andb_false_iff in E as [E%Z.leb_gt|E%Z.ltb_ge]; lia. }
  rewrite Hstore. cbn [mbind result_bind].
  apply IH; rewrite ?length_insert; lia.
Qed.

(** The loop reads past the end of a buffer that is too short. *)
Lemma copy_embd_short embd k : forall i output,
  0 <= i -> i + Z.of_nat k < 2 ^ 64 ->
  (Z.to_nat i <= length embd < Z.to_nat i + k)%nat ->
  (Z.to_nat i + k <= length output)%nat ->
  copy_embd k i embd output = UB.
Proof.
  induction k as [|k IH]; intros i output Hi Hk He Ho; cbn [copy_embd];
    [lia|].
  destruct (decide (Z.to_nat i < length embd)%nat) as [Hlt|Hge].
  - destruct (lookup_lt_is_Some_2 embd (Z.to_nat i) Hlt) as [x Hx].
    assert (Hload : load embd i = Ok x).
    { unfold load. destruct (_ && _) eqn:E.
      - now rewrite Hx.
      - apply andb_false_iff in E as [E%Z.leb_gt|E%Z.ltb_ge]; lia. }
    rewrite Hload. cbn [mbind result_bind].
    rewrite to_size_t_small by lia.
    assert (Hstore : store output i x = Ok (<[Z.to_nat i := x]> output)).
    { unfold store. destruct (_ && _) eqn:E; [reflexivity|].
      apply andb_false_iff in E as [E%Z.leb_gt|E%Z.ltb_ge]; lia. }
    rewrite Hstore. cbn [mbind result_bind].
    apply IH; rewrite ?length_insert; lia.
  - assert (Hload : load embd i = UB).
    { unfold load. destruct (_ && _) eqn:E; [|reflexivity].
      apply andb_true_iff in E as [_ E%Z.ltb_lt]. lia. }
    rewrite Hload. reflexivity.
Qed.

(** The output stage of [nativeEmbed] on a buffer that is long enough. *)
Lemma embed_output_runs n embd :
  0 <= n <= INT32_MAX ->
  (Z.to_nat n <= length embd)%nat ->
  embed_output n embd = Ok (normalize_l2 (take (Z.to_nat n) embd)).
Proof.
  intros Hn Hlen. pose proof Hn as Hn'. unfold INT32_MAX in Hn'.
  assert (Hrange : INT32_MIN <= n <= INT32_MAX)
    by (unfold INT32_MIN, INT32_MAX; lia).
  destruct (embed_output n embd) as [arr| |] eqn:Eout.
  - apply (embed_output_Ok _ _ _ Hrange) in Eout as (_ & _ & ->).
    reflexivity.
  - exfalso. revert Eout. unfold embed_output.
    rewrite to_size_t_small by lia. unfold Vec.make.
    destruct (n >? Vec.max_size) eqn:E.
    { unfold Vec.max_size in E. lia. }
    cbn [mbind result_bind].
    destruct (copy_embd_runs embd (Z.to_nat n) 0
                (repeat F32.zero (Z.to_nat n))) as [o Ho];
      rewrite ?repeat_length; try lia.
    rewrite Ho. discriminate.
  - exfalso. revert Eout. unfold embed_output.
    rewrite to_size_t_small by lia. unfold Vec.make.
    destruct (n >? Vec.max_size) eqn:E.
    { unfold Vec.max_size in E. lia. }
    cbn [mbind result_bind].
    destruct (copy_embd_runs embd (Z.to_nat n) 0
                (repeat F32.zero (Z.to_nat n))) as [o Ho];
      rewrite ?repeat_length; try lia.
    rewrite Ho. discriminate.
Qed.

End CopyProperties.

(** X15. The output stage of [nativeEmbed] copies exactly the first [n_embd]
    values of the pooled buffer, whatever lies behind them, and normalises
    the copy; on a buffer with fewer than [n_embd] values the copy loop reads
    past its end, which has no defined behaviour. *)
Theorem pooled_copy_exact_or_out_of_bounds n embd :
  0 <= n <= INT32_MAX ->
  ((Z.to_nat n <= length embd)%nat ->
   embed_output n embd = Ok (normalize_l2 (take (Z.to_nat n) embd))) /\
  ((length embd < Z.to_nat n)%nat -> embed_output n embd = UB).
Proof.
  intros Hn. split; [apply embed_output_runs, Hn|].
  intros Hshort. unfold INT32_MAX in Hn. unfold embed_output.
  rewrite to_size_t_small by lia. unfold Vec.make.
  destruct (n >? Vec.max_size) eqn:E.
  { unfold Vec.max_size in E. lia. }
  cbn [mbind result_bind].
  rewrite copy_embd_short; [reflexivity|lia|lia|lia|].
  rewrite repeat_length. lia.
Qed.

Lemma pooled_copy_exact_or_out_of_bounds_witness :
  0 <= 2 <= INT32_MAX /\
  embed_output 2 [F32.of_Z 3; F32.of_Z 4; S754_nan]
    = Ok (normalize_l2 [F32.of_Z 3; F32.of_Z 4]) /\
  embed_output 2 [F32.of_Z 3] = UB.
Proof.
  assert (Hn : 0 <= 2 <= INT32_MAX) by (unfold INT32_MAX; lia).
  split; [exact Hn|].
  split.
  - apply (proj1 (pooled_copy_exact_or_out_of_bounds 2
                    [F32.of_Z 3; F32.of_Z 4; S754_nan] Hn)).
    cbn. lia.
  - apply (proj2 (pooled_copy_exact_or_out_of_bounds 2 [F32.of_Z 3] Hn)).
    cbn. lia.
Defined.

(** ** The path of [nativeEmbed] that returns a vector *)

(** X16. [nativeEmbed] returns a vector whenever every step of its success
    path is in place: a live session, a text the JVM hands out, a non-empty
    token sequence within the context size, a decode of the cleared memory
    and of the batch of these tokens at positions [0 .. L-1], all in sequence
    0 and all marked for output, that answers 0 with a pooled vector of at
    least [n_embd] values, and a JVM that allocates the result.  The result
    is the normalised copy of the first [n_embd] pooled values; the trace
    gains exactly memory clear, batch init, decode and batch free, with no
    log entry; only the context of the session changes. *)
Theorem embed_succeeds `{rt : Runtime} env text w p st m c mv cv cmv text_str
    tokens mem embd :
  states w !! p = Some st ->
  model st = Some m -> ctx st = Some c ->
  models w !! m = Some mv ->
  contexts w !! c = Some cv ->
  models w !! ctx_model cv = Some cmv ->
  GetStringUTFChars env text = Some text_str ->
  tokenize (rt_model_get_vocab mv) text_str (to_int32 (n_ctx st))
    = Ok tokens ->
  tokens <> [] ->
  Vec.size tokens <= n_ctx st -> Vec.size tokens < 2 ^ 31 ->
  rt_decode cmv (ctx_params cv) (rt_memory_clear (ctx_memory cv) true)
    {| n_tokens := Vec.size tokens; token := tokens;
       pos := Z.of_nat <$> seq 0 (length tokens);
       n_seq_id := repeat 1 (length tokens);
       seq_id := repeat [0] (length tokens);
       logits := repeat 1 (length tokens) |}
    = (0, mem, Some embd) ->
  0 <= n_embd st <= INT32_MAX ->
  (Z.to_nat (n_embd st) <= length embd)%nat ->
  NewFloatArray env (n_embd st) = true ->
  exists w',
    nativeEmbed env (Z.pos p) text w
      = Ok (Some (normalize_l2 (take (Z.to_nat (n_embd st)) embd)), w') /\
    trace w' = trace w ++ [EvMemoryClear c; EvBatchInit (Vec.size tokens);
                           EvDecode c 0; EvBatchFree] /\
    log_events (trace w') = log_events (trace w) /\
    states w' = states w /\ models w' = models w /\
    live_batches w' = live_batches w /\
    contexts w'
      = <[c := {| ctx_model := ctx_model cv; ctx_params := ctx_params cv;
                  ctx_n_ctx := ctx_n_ctx cv; ctx_memory := mem;
                  ctx_embd_seq := Some embd |}]> (contexts w).
Proof.
  intros Hst Hm Hc Hmv Hcv Hcmv Htext Htok Hne Hfit Hsmall Hdec Hn Hlen Hnew.
  rewrite nativeEmbed_run. unfold embed_run, embed_run_session.
  replace (states w !! (p : ptr)) with (Some st) by (symmetry; exact Hst).
  rewrite Hc, Hm, Htext.
  replace (models w !! m) with (Some mv) by (symmetry; exact Hmv).
  rewrite Htok. rewrite bool_decide_eq_false_2 by exact Hne.
  unfold embed_run_tokens.
  assert (Hsize : 0 <= Vec.size tokens) by (unfold Vec.size; lia).
  assert (Hex : exceeds_context tokens (n_ctx st) = false).
  { unfold exceeds_context. rewrite to_uint32_small by lia. lia. }
  rewrite Hex.
  replace (contexts w !! c) with (Some cv) by (symmetry; exact Hcv).
  rewrite (embed_batch_built tokens Hsmall).
  replace (models w !! ctx_model cv) with (Some cmv) by (symmetry; exact Hcmv).
  unfold embed_run_decode. cbn [cleared ctx_params ctx_memory].
  rewrite Hdec. cbn [Z.eqb negb].
  rewrite (embed_output_runs _ _ Hn Hlen), Hnew.
  eexists. split; [reflexivity|].
  rewrite to_int32_small by lia.
  cbn [upd_trace upd_contexts upd_live_batches trace states models contexts
       live_batches].
  split; [rewrite <- !app_assoc; reflexivity|].
  split.
  { unfold log_events. rewrite !List.filter_app. cbn.
    rewrite !app_nil_r. reflexivity. }
  split; [reflexivity|]. split; [reflexivity|]. split; [reflexivity|].
  unfold decoded. cbn. apply insert_insert_eq.
Qed.

Lemma embed_succeeds_witness :
  let w := Toy.world_with "model.gguf" in
  states w !! 1%positive = Some Toy.session /\
  contexts w !! 1%positive = Some toy_context /\
  tokenize (H := Toy.runtime) tt "ab" (to_int32 (n_ctx Toy.session))
    = Ok [97; 98] /\
  rt_decode Toy.session_weights (ctx_params toy_context)
    (rt_memory_clear (ctx_memory toy_context) true) toy_batch_ab
    = (0, [97; 98], Some [F32.of_Z 195; F32.of_Z 2]) /\
  exists w',
    nativeEmbed Toy.env 1 "ab" w = Ok (Some Toy.ab_embedding, w') /\
    trace w' = trace w ++ [EvMemoryClear 1%positive; EvBatchInit 2;
                           EvDecode 1%positive 0; EvBatchFree] /\
    log_events (trace w') = log_events (trace w).
Proof.
  intros w.
  assert (Hst : states w !! 1%positive = Some Toy.session) by reflexivity.
  assert (Hcv : contexts w !! 1%positive = Some toy_context) by reflexivity.
  assert (Htok : tokenize (H := Toy.runtime) tt "ab"
                   (to_int32 (n_ctx Toy.session)) = Ok [97; 98])
    by (vm_compute; reflexivity).
  assert (Hdec : rt_decode Toy.session_weights (ctx_params toy_context)
                   (rt_memory_clear (ctx_memory toy_context) true)
                   toy_batch_ab
                 = (0, [97; 98], Some [F32.of_Z 195; F32.of_Z 2]))
    by (vm_compute; reflexivity).
  split; [exact Hst|]. split; [exact Hcv|]. split; [exact Htok|].
  split; [exact Hdec|].
  destruct (embed_succeeds Toy.env "ab" w 1%positive Toy.session 1%positive
              1%positive Toy.session_weights toy_context Toy.session_weights
              "ab" [97; 98] [97; 98] [F32.of_Z 195; F32.of_Z 2]
              Hst eq_refl eq_refl eq_refl Hcv eq_refl eq_refl Htok)
    as (w' & Hrun & Htr & Hlog & _).
  - discriminate.
  - vm_compute. discriminate.
  - reflexivity.
  - exact Hdec.
  - vm_compute. split; discriminate.
  - cbn. lia.
  - reflexivity.
  - exists w'. split; [exact Hrun|]. split; [exact Htr|exact Hlog].
Defined.

(** ** The batch handed to the decoder *)

Lemma lookup_repeat {A} (x : A) n : forall i,
  (i < n)%nat -> repeat x n !! i = Some x.
Proof.
  induction n as [|n IH]; intros [|i] Hi; cbn; try lia; [reflexivity|].
  apply IH. lia.
Qed.

(** X17. The filling loop of [nativeEmbed] gives every token one row of the
    batch: row [i] holds token [i] at position [i], in the single sequence 0,
    marked for output; the batch has as many rows as there are tokens.  The
    token count is a non-negative [int32_t], as the cast of [tokens.size()]
    needs. *)
Theorem embed_batch_rows `{rt : Runtime} tokens :
  Vec.size tokens < 2 ^ 31 ->
  exists batch,
    embed_batch tokens = Ok batch /\
    n_tokens batch = Vec.size tokens /\
    token batch = tokens /\
    length (pos batch) = length tokens /\
    length (n_seq_id batch) = length tokens /\
    length (seq_id batch) = length tokens /\
    length (logits batch) = length tokens /\
    forall i, (i < length tokens)%nat ->
      pos batch !! i = Some (Z.of_nat i) /\
      n_seq_id batch !! i = Some 1 /\
      seq_id batch !! i = Some [0] /\
      logits batch !! i = Some 1.
Proof.
  intros Hsmall. eexists. split; [apply embed_batch_built, Hsmall|].
  cbn [n_tokens token pos n_seq_id seq_id logits].
  rewrite length_fmap, length_seq, !repeat_length.
  repeat (split; [reflexivity|]).
  intros i Hi. split; [|split; [|split]].
  - rewrite list_lookup_fmap, lookup_seq_lt by exact Hi. reflexivity.
  - apply lookup_repeat, Hi.
  - apply lookup_repeat, Hi.
  - apply lookup_repeat, Hi.
Qed.

Lemma embed_batch_rows_witness :
  Vec.size [97; 98] < 2 ^ 31 /\
  exists batch,
    embed_batch [97; 98] = Ok batch /\
    n_tokens batch = 2 /\
    token batch = [97; 98] /\
    pos batch !! 1%nat = Some 1 /\
    seq_id batch !! 1%nat = Some [0].
Proof.
  assert (Hsmall : Vec.size [97; 98] < 2 ^ 31) by (vm_compute; reflexivity).
  split; [exact Hsmall|].
  destruct (embed_batch_rows (rt := Toy.runtime) [97; 98] Hsmall)
    as (batch & Hrun & Hn & Htok & _ & _ & _ & _ & Hrows).
  destruct (Hrows 1%nat ltac:(cbn; lia)) as (Hpos & _ & Hseq & _).
  exists batch. split; [exact Hrun|]. split; [exact Hn|].
  split; [exact Htok|]. split; [exact Hpos|exact Hseq].
Defined.

(** ** Invariants of a process *)

Section ProcessInvariants.
Context `{rt : Runtime}.

(** A call of [nativeRelease] that returns was given 0 or the address of a
    session object. *)
Lemma release_returns handle w w' :
  nativeRelease handle w = Ok (tt, w') ->
  (handle = 0 /\ w' = w) \/
  exists p st, handle = Z.pos p /\ states w !! p = Some st.
Proof.
  unfold nativeRelease. destruct handle as [|p|q]; cbn [Z.eqb].
  - intros [= <-]. left. auto.
  - unfold_prims.
    destruct (states w !! (p : ptr)) as [st|] eqn:E; [|discriminate].
    right. eauto.
  - unfold_prims. discriminate.
Qed.

Lemma heap_consistent_live w p st :
  heap_consistent w -> states w !! p = Some st -> live_session w p st.
Proof.
  intros (H1 & _) Hst.
  destruct (H1 p st Hst) as (m & c & cv & Hm & Hc & Hlive & Hcv & Hbound).
  split; [exact Hst|]. split.
  - intros m' Hm'. rewrite Hm in Hm'. injection Hm' as <-. exact Hlive.
  - intros c' Hc'. rewrite Hc in Hc'. injection Hc' as <-.
    exists cv. split; [exact Hcv|]. rewrite Hbound. exact Hlive.
Qed.

Lemma heap_consistent_same w w' :
  states w' = states w -> models w' = models w ->
  contexts w' = contexts w -> live_batches w' = live_batches w ->
  heap_consistent w -> heap_consistent w'.
Proof.
  unfold heap_consistent. intros -> -> -> ->. auto.
Qed.

Lemma heap_consistent_init w w' p m c mv cv n k :
  states w !! p = None -> models w !! m = None -> contexts w !! c = None ->
  states w' = <[p := {| model := Some m; ctx := Some c;
                        n_embd := n; n_ctx := k |}]> (states w) ->
  models w' = <[m := mv]> (models w) ->
  contexts w' = <[c := cv]> (contexts w) ->
  ctx_model cv = m ->
  live_batches w' = live_batches w ->
  heap_consistent w -> heap_consistent w'.
Proof.
  intros Hfp Hfm Hfc Hs Hm Hc Hbound Hb (H1 & H2 & H3 & H4 & H5).
  assert (Hold : forall q st, states w !! q = Some st ->
            exists m0 c0, model st = Some m0 /\ ctx st = Some c0 /\
                          m0 <> m /\ c0 <> c).
  { intros q st Hq.
    destruct (H1 q st Hq) as (m0 & c0 & cv0 & Hm0 & Hc0 & Hl0 & Hcv0 & _).
    exists m0, c0. do 2 (split; [assumption|]). split.
    - intros ->. rewrite Hfm in Hl0. destruct Hl0. discriminate.
    - intros ->. rewrite Hfc in Hcv0. discriminate. }
  unfold heap_consistent. rewrite Hs, Hm, Hc, Hb.
  split; [|split; [|split; [|split; [|exact H5]]]].
  - intros q st Hq. destruct (decide (q = p)) as [->|Hne].
    + rewrite lookup_insert_eq in Hq. injection Hq as <-.
      exists m, c, cv. cbn [model ctx].
      rewrite !lookup_insert_eq. eauto 10.
    + rewrite lookup_insert_ne in Hq by congruence.
      destruct (H1 q st Hq) as (m0 & c0 & cv0 & Hm0 & Hc0 & Hl0 & Hcv0 & Hb0).
      destruct (Hold q st Hq) as (m1 & c1 & Hm1 & Hc1 & Hnm & Hnc).
      assert (m1 = m0) as -> by congruence.
      assert (c1 = c0) as -> by congruence.
      exists m0, c0, cv0.
      rewrite !lookup_insert_ne by congruence. auto.
  - intros q q' st st' Hq Hq' Hne.
    destruct (decide (q = p)) as [->|Hqp];
      destruct (decide (q' = p)) as [->|Hq'p]; [congruence|..].
    + rewrite lookup_insert_eq in Hq. injection Hq as <-.
      rewrite lookup_insert_ne in Hq' by congruence.
      destruct (Hold q' st' Hq') as (m1 & c1 & -> & -> & Hnm & Hnc).
      cbn [model ctx]. split; congruence.
    + rewrite lookup_insert_eq in Hq'. injection Hq' as <-.
      rewrite lookup_insert_ne in Hq by congruence.
      destruct (Hold q st Hq) as (m1 & c1 & -> & -> & Hnm & Hnc).
      cbn [model ctx]. split; congruence.
    + rewrite lookup_insert_ne in Hq, Hq' by congruence. eauto.
  - intros m0 Hm0. destruct (decide (m0 = m)) as [->|Hne].
    + exists p. eexists. rewrite lookup_insert_eq. split; reflexivity.
    + rewrite lookup_insert_ne in Hm0 by congruence.
      destruct (H3 m0 Hm0) as (q & st & Hq & Hmq).
      exists q, st. split; [|exact Hmq].
      rewrite lookup_insert_ne; [exact Hq|]. intros <-. congruence.
  - intros c0 Hc0. destruct (decide (c0 = c)) as [->|Hne].
    + exists p. eexists. rewrite lookup_insert_eq. split; reflexivity.
    + rewrite lookup_insert_ne in Hc0 by congruence.
      destruct (H4 c0 Hc0) as (q & st & Hq & Hcq).
      exists q, st. split; [|exact Hcq].
      rewrite lookup_insert_ne; [exact Hq|]. intros <-. congruence.
Qed.

Lemma heap_consistent_release w w' p st m c :
  states w !! p = Some st -> model st = Some m -> ctx st = Some c ->
  states w' = delete p (states w) ->
  models w' = delete m (models w) ->
  contexts w' = delete c (contexts w) ->
  live_batches w' = live_batches w ->
  heap_consistent w -> heap_consistent w'.
Proof.
  intros Hst Hmod Hctx Hs Hm Hc Hb (H1 & H2 & H3 & H4 & H5).
  unfold heap_consistent. rewrite Hs, Hm, Hc, Hb.
  split; [|split; [|split; [|split; [|exact H5]]]].
  - intros q stq [Hne Hq]%lookup_delete_Some.
    destruct (H1 q stq Hq) as (m0 & c0 & cv0 & Hm0 & Hc0 & Hl0 & Hcv0 & Hb0).
    destruct (H2 p q st stq Hst Hq Hne) as [Hdm Hdc].
    exists m0, c0, cv0.
    rewrite !lookup_delete_ne by congruence. auto.
  - intros q q' stq stq' [_ Hq]%lookup_delete_Some
      [_ Hq']%lookup_delete_Some. eauto.
  - intros m0 Hm0. destruct (decide (m0 = m)) as [->|Hne].
    { rewrite lookup_delete_eq in Hm0. destruct Hm0. discriminate. }
    rewrite lookup_delete_ne in Hm0 by congruence.
    destruct (H3 m0 Hm0) as (q & stq & Hq & Hmq).
    exists q, stq. split; [|exact Hmq].
    apply lookup_delete_Some. split; [|exact Hq]. intros <-. congruence.
  - intros c0 Hc0. destruct (decide (c0 = c)) as [->|Hne].
    { rewrite lookup_delete_eq in Hc0. destruct Hc0. discriminate. }
    rewrite lookup_delete_ne in Hc0 by congruence.
    destruct (H4 c0 Hc0) as (q & stq & Hq & Hcq).
    exists q, stq. split; [|exact Hcq].
    apply lookup_delete_Some. split; [|exact Hq]. intros <-. congruence.
Qed.

Lemma heap_consistent_embed w w' :
  states w' = states w -> models w' = models w ->
  (contexts w' = contexts w \/
   exists c cv cv',
     contexts w !! c = Some cv /\
     contexts w' = <[c := cv']> (contexts w) /\
     ctx_model cv' = ctx_model cv /\ ctx_params cv' = ctx_params cv /\
     ctx_n_ctx cv' = ctx_n_ctx cv) ->
  live_batches w' = live_batches w ->
  heap_consistent w -> heap_consistent w'.
Proof.
  intros Hs Hm [Hc|(c & cv & cv' & Hcv & Hc & Hbound & _)] Hb.
  { apply heap_consistent_same; assumption. }
  intros (H1 & H2 & H3 & H4 & H5).
  unfold heap_consistent. rewrite Hs, Hm, Hc, Hb.
  split; [|split; [exact H2|split; [exact H3|split; [|exact H5]]]].
  - intros q st Hq.
    destruct (H1 q st Hq) as (m0 & c0 & cv0 & Hm0 & Hc0 & Hl0 & Hcv0 & Hb0).
    destruct (decide (c0 = c)) as [->|Hne].
    + exists m0, c, cv'. rewrite lookup_insert_eq.
      do 4 (split; [assumption || reflexivity|]). congruence.
    + exists m0, c0, cv0. rewrite lookup_insert_ne by congruence. auto.
  - intros c0 Hc0. destruct (decide (c0 = c)) as [->|Hne].
    + apply H4. rewrite Hcv. eauto.
    + rewrite lookup_insert_ne in Hc0 by congruence. apply H4, Hc0.
Qed.

(** The events of a returning [nativeEmbed] hold no backend start. *)
Lemma embed_run_backend env handle text w r w' :
  embed_run env handle text w = Ok (r, w') ->
  backend_inits (trace w') = backend_inits (trace w).
Proof.
  unfold embed_run, embed_run_session, embed_run_tokens, embed_run_decode.
  assert (Hexit : forall message,
            Ok (None, upd_trace (EvLog message) w) = Ok (r, w') ->
            backend_inits (trace w') = backend_inits (trace w)).
  { intros message [= <- <-]. wsimpl. unfold backend_inits.
    rewrite List.filter_app. cbn. apply app_nil_r. }
  destruct handle as [|p|q]; [apply Hexit| |discriminate].
  destruct (states w !! (p : ptr)) as [st|]; [|discriminate].
  destruct (ctx st) as [c|]; [|apply Hexit].
  destruct (model st) as [m|]; [|apply Hexit].
  destruct (GetStringUTFChars env text) as [text_str|]; [|apply Hexit].
  destruct (models w !! m) as [mv|]; [|discriminate].
  destruct (tokenize _ _ _) as [tokens0| |]; [|discriminate|discriminate].
  destruct (bool_decide (tokens0 = [])); [apply Hexit|].
  clear Hexit.
  destruct (if exceeds_context tokens0 (n_ctx st) then _ else _)
    as [tokens| |]; [|discriminate|discriminate].
  destruct (contexts w !! c) as [cv|] eqn:Ecv; [|discriminate].
  destruct (embed_batch tokens) as [batch| |]; [|discriminate|discriminate].
  destruct (models w !! ctx_model cv) as [cmv|]; [|discriminate].
  destruct (rt_decode _ _ _ _) as [[rc mem] out].
  destruct (negb (rc =? 0)).
  { intros [= <- <-]. wsimpl. unfold backend_inits.
    rewrite !List.filter_app. cbn. rewrite !app_nil_r. reflexivity. }
  destruct out as [embd|].
  2:{ intros [= <- <-]. wsimpl. unfold backend_inits.
      rewrite !List.filter_app. cbn. rewrite !app_nil_r. reflexivity. }
  destruct (embed_output _ _) as [output| |]; [|discriminate|discriminate].
  destruct (NewFloatArray _ _); intros [= <- <-]; wsimpl;
    unfold backend_inits; rewrite !List.filter_app; cbn;
    rewrite !app_nil_r; reflexivity.
Qed.

Lemma backend_tracked_init w w' evs :
  g_backend_ready w' = true ->
  trace w' = trace w ++ backend_events w ++ evs ->
  backend_inits evs = [] ->
  backend_tracked w -> backend_tracked w'.
Proof.
  unfold backend_tracked, backend_events, backend_inits.
  intros -> -> Hevs. rewrite !List.filter_app, Hevs, app_nil_r.
  destruct (g_backend_ready w); intros ->; reflexivity.
Qed.

(** Both invariants hold across one returning call. *)
Lemma api_step_invariant w w' :
  api_step w w' ->
  heap_consistent w /\ backend_tracked w ->
  heap_consistent w' /\ backend_tracked w'.
Proof.
  intros Hstep [Hheap Hback]. destruct Hstep as
    [env model_path w handle w' Hrun
    |env handle text w r w' Hrun
    |handle w w' Hrun].
  - pose proof (init_ready _ _ _ _ _ Hrun) as Hready.
    destruct (GetStringUTFChars env model_path) as [path|] eqn:Hp.
    2:{ destruct (init_null_path env model_path w Hp)
          as (w1 & Hrun' & Htr & Hs & Hm & Hc & Hb).
        rewrite Hrun in Hrun'. injection Hrun' as -> ->. split.
        - apply (heap_consistent_same w w1); assumption.
        - apply (backend_tracked_init w w1 _ Hready Htr); auto. }
    destruct (rt_model_load path init_model_params) as [mv|] eqn:Hl.
    2:{ destruct (init_load_fails env model_path path w Hp Hl)
          as (w1 & p & Hrun' & Htr & Hs & Hm & Hc & Hb).
        rewrite Hrun in Hrun'. injection Hrun' as -> ->. split.
        - apply (heap_consistent_same w w1); assumption.
        - apply (backend_tracked_init w w1 _ Hready Htr); auto. }
    destruct (rt_context_create mv init_context_params)
      as [[realised mem]|] eqn:Hc.
    2:{ destruct (init_context_fails env model_path path mv w Hp Hl Hc)
          as (w1 & p & m & Hrun' & Htr & Hs & Hm & Hcs & Hb).
        rewrite Hrun in Hrun'. injection Hrun' as -> ->. split.
        - apply (heap_consistent_same w w1); assumption.
        - apply (backend_tracked_init w w1 _ Hready Htr); auto. }
    destruct (init_succeeds env model_path path mv realised mem w Hp Hl Hc)
      as (w1 & p & m & c & Hrun' & Htr & Hfp & Hfm & Hfc & Hs & Hm & Hcs
          & Hb).
    rewrite Hrun in Hrun'. injection Hrun' as -> ->. split.
    + eapply (heap_consistent_init w w1 p m c); eauto.
    + apply (backend_tracked_init w w1 _ Hready Htr); auto.
  - rewrite nativeEmbed_run in Hrun.
    destruct (embed_run_world _ _ _ _ _ _ Hrun) as (Hs & Hm & Hr & Hc & _).
    destruct (embed_run_batch _ _ _ _ _ _ Hrun) as (evs & _ & Hb & _).
    split.
    + apply (heap_consistent_embed w w'); assumption.
    + unfold backend_tracked.
      rewrite (embed_run_backend _ _ _ _ _ _ Hrun), Hr. exact Hback.
  - destruct (release_returns _ _ _ Hrun) as [[-> ->]|(p & st & -> & Hst)];
      [auto|].
    pose proof (heap_consistent_live w p st Hheap Hst) as Hlive.
    destruct (release_live w p st Hlive)
      as (w1 & Hrun' & Htr & Hs & Hc & Hm & Hb & Hr).
    rewrite Hrun in Hrun'. injection Hrun' as ->.
    destruct Hheap as (H1 & Hrest).
    destruct (H1 p st Hst) as (m & c & cv & Hmod & Hctx & _).
    rewrite Hctx in Hc. rewrite Hmod in Hm. split.
    + apply (heap_consistent_release w w1 p st m c); try assumption.
      split; assumption.
    + unfold backend_tracked. rewrite Htr, Hr.
      unfold backend_inits, release_events.
      rewrite List.filter_app, Hctx, Hmod. cbn. rewrite app_nil_r.
      exact Hback.
Qed.

Lemma process_invariant w0 w :
  rtc api_step w0 w ->
  heap_consistent w0 /\ backend_tracked w0 ->
  heap_consistent w /\ backend_tracked w.
Proof.
  induction 1 as [|w0 w1 w Hstep _ IH]; [auto|].
  intros Hinv. apply IH, (api_step_invariant w0 w1 Hstep Hinv).
Qed.

Lemma initial_world_invariant :
  heap_consistent initial_world /\ backend_tracked initial_world.
Proof.
  split; [|reflexivity].
  unfold heap_consistent, initial_world. cbn.
  split; [intros p st Hp; rewrite lookup_empty in Hp; discriminate|].
  split; [intros p q st st' Hp; rewrite lookup_empty in Hp; discriminate|].
  split; [intros m [x Hm]; rewrite lookup_empty in Hm; discriminate|].
  split; [intros c [x Hc]; rewrite lookup_empty in Hc; discriminate|].
  reflexivity.
Qed.

End ProcessInvariants.

Lemma toy_init_step :
  api_step (rt := Toy.runtime) initial_world (Toy.world_with "model.gguf").
Proof.
  apply (step_init Toy.env "model.gguf" _ 1).
  change (initial_world (rt := Toy.runtime)) with Toy.world0.
  unfold Toy.world_with. apply toy_run. vm_compute. reflexivity.
Qed.

(** X18. In every state that a process reaches from its start by calls of
    [nativeInit], [nativeEmbed] and [nativeRelease] that return, in any
    order and number, every session object holds a live model and a live
    context bound to that model, no two sessions share a model or a
    context, every model and every context belongs to a session (nothing
    is leaked by a failed [nativeInit] or left behind by [nativeRelease]),
    and no decode batch is allocated.  So every session of such a state is
    live: [nativeRelease] on its address returns. *)
Theorem process_heap_invariant `{rt : Runtime} w :
  rtc api_step initial_world w ->
  heap_consistent w /\
  forall p st, states w !! p = Some st ->
    live_session w p st /\
    exists w', nativeRelease (Z.pos p) w = Ok (tt, w').
Proof.
  intros Hreach.
  destruct (process_invariant _ _ Hreach initial_world_invariant)
    as [Hheap _].
  split; [exact Hheap|]. intros p st Hst.
  pose proof (heap_consistent_live w p st Hheap Hst) as Hlive.
  split; [exact Hlive|].
  destruct (release_live w p st Hlive) as (w' & Hrun & _). eauto.
Qed.

Lemma process_heap_invariant_witness :
  rtc (api_step (rt := Toy.runtime)) initial_world
    (Toy.world_with "model.gguf") /\
  heap_consistent (Toy.world_with "model.gguf") /\
  live_session (Toy.world_with "model.gguf") 1%positive Toy.session.
Proof.
  assert (Hreach : rtc (api_step (rt := Toy.runtime)) initial_world
                     (Toy.world_with "model.gguf"))
    by (apply rtc_once, toy_init_step).
  split; [exact Hreach|].
  destruct (process_heap_invariant (Toy.world_with "model.gguf") Hreach)
    as [Hheap Hall].
  split; [exact Hheap|].
  apply (Hall 1%positive Toy.session). reflexivity.
Defined.

(** X19. [llama_backend_init] is called at most once in the life of a
    process, whatever calls of the entry points are made, and
    [g_backend_ready] is set exactly when it was called. *)
Theorem backend_initialised_once `{rt : Runtime} w :
  rtc api_step initial_world w ->
  backend_inits (trace w)
    = (if g_backend_ready w then [EvBackendInit] else []) /\
  (length (backend_inits (trace w)) <= 1)%nat.
Proof.
  intros Hreach.
  destruct (process_invariant _ _ Hreach initial_world_invariant)
    as [_ Hback].
  unfold backend_tracked in Hback. split; [exact Hback|].
  rewrite Hback. destruct (g_backend_ready w); cbn; lia.
Qed.

Lemma backend_initialised_once_witness :
  rtc (api_step (rt := Toy.runtime)) initial_world
    (Toy.world_with "model.gguf") /\
  g_backend_ready (Toy.world_with "model.gguf") = true /\
  backend_inits (trace (Toy.world_with "model.gguf")) = [EvBackendInit].
Proof.
  assert (Hreach : rtc (api_step (rt := Toy.runtime)) initial_world
                     (Toy.world_with "model.gguf"))
    by (apply rtc_once, toy_init_step).
  split; [exact Hreach|].
  assert (Hready : g_backend_ready (Toy.world_with "model.gguf") = true)
    by reflexivity.
  split; [exact Hready|].
  destruct (backend_initialised_once (Toy.world_with "model.gguf") Hreach)
    as [Hback _].
  rewrite Hready in Hback. exact Hback.
Defined.
